(** * appletv-node: the Device facade of [src/lib/appletv.ts]

    A shallow embedding of the [AppleTV] class (key commands, introduction,
    now-playing polling, [SetStateMessage] fan-out, [messageOfType], the
    constructor's address choice, the playback-queue request and the
    key-name parser), with the properties its specification states. *)

From Stdlib Require Import ZArith Ascii String List Lia.
From stdpp Require Import gmap strings list fin_maps.

Open Scope Z_scope.

(** ** JavaScript values and completions *)

(** A call either returns a value or throws. *)
Inductive completion (A : Type) : Type :=
| Return (v : A)
| Throw (e : string).
Arguments Return {A} v.
Arguments Throw {A} e.

(** [Buffer]: a sequence of octets, each a [Z] in [0, 256). *)
Abbreviation Buffer := (list Z).

Module Buf.

(** One hexadecimal digit, as Node's hex decoder reads it. *)
Definition hex_digit (c : ascii) : option Z :=
  let n := Z.of_N (N_of_ascii c) in
  if (48 <=? n) && (n <=? 57) then Some (n - 48)
  else if (97 <=? n) && (n <=? 102) then Some (n - 87)
  else if (65 <=? n) && (n <=? 70) then Some (n - 55)
  else None.

(** [Buffer.from(s, 'hex')]: pairs of digits, stopping at the first pair
    that is not hexadecimal; a trailing single digit is dropped. *)
Fixpoint from_hex_chars (cs : list ascii) : Buffer :=
  match cs with
  | hi :: lo :: rest =>
      match hex_digit hi, hex_digit lo with
      | Some h, Some l => (16 * h + l) :: from_hex_chars rest
      | _, _ => []
      end
  | _ => []
  end.

Definition from_hex (s : string) : Buffer :=
  from_hex_chars (list_ascii_of_string s).

(** [Buffer.concat]. *)
Definition concat (bs : list Buffer) : Buffer := List.concat bs.

(** [buf.slice(lo, hi)] for [0 <= lo <= hi]. *)
Definition slice (lo hi : nat) (b : Buffer) : Buffer :=
  take (hi - lo) (drop lo b).

End Buf.

(** [interface Size]. *)
Record Size := { width : Z; height : Z }.

(** The values the modelled code stores in object fields. *)
Inductive value :=
| VUndef
| VNull
| VBool (b : bool)
| VNum (n : Z)
| VStr (s : string)
| VBuf (b : Buffer)
| VSize (sz : Size).

(** An object literal: property name to value. A property that is absent
    reads as [undefined]. *)
Abbreviation obj := (gmap string value).

Definition get (o : obj) (k : string) : value := default VUndef (o !! k).

(** [if (v)]: JavaScript truthiness. *)
Definition truthy (v : value) : bool :=
  match v with
  | VUndef | VNull => false
  | VBool b => b
  | VNum n => negb (n =? 0)
  | VStr s => negb (String.eqb s "")
  | VBuf _ | VSize _ => true
  end.

(** [v.k] for a value that is not [null] or [undefined]. *)
Definition member (v : value) (k : string) : value :=
  match v with
  | VSize sz =>
      if String.eqb k "width" then VNum (width sz)
      else if String.eqb k "height" then VNum (height sz)
      else VUndef
  | _ => VUndef
  end.

(** ** Promises and the calls that reach the connection *)

(** One call of [sendMessage(definitionFilename, messageType, body,
    waitForResponse, priority = 0)]. *)
Record SendCall := {
  definitionFilename : string;
  messageType : string;
  body : obj;
  waitForResponse : bool;
  priority : Z
}.

Inductive Effect :=
| Sent (c : SendCall)
| Slept (ms : Z).

(** A settled promise. *)
Inductive outcome (A : Type) : Type :=
| Resolved (a : A)
| Rejected (e : string).
Arguments Resolved {A} a.
Arguments Rejected {A} e.

(** What an asynchronous method runs against: the objects it holds by
    reference, the random source behind [uuid()], the transport's verdict on
    each [sendMessage] (loading the schema and [connection.send] may
    reject), and the log of what it did, oldest first. *)
Record Runtime := {
  heap : gmap nat obj;
  rand : nat -> string;
  uuid_calls : nat;
  refuses : nat -> option string;
  send_calls : nat;
  wire : list Effect
}.

Definition Async (A : Type) : Type := Runtime -> Runtime * outcome A.

Module Async.

Definition ret {A} (a : A) : Async A := fun r => (r, Resolved a).

(** [await m; k]: a rejection of [m] rejects the whole method. *)
Definition bind {A B} (m : Async A) (k : A -> Async B) : Async B :=
  fun r =>
    match m r with
    | (r', Resolved a) => k a r'
    | (r', Rejected e) => (r', Rejected e)
    end.

Definition log (e : Effect) (r : Runtime) : Runtime :=
  {| heap := heap r; rand := rand r; uuid_calls := uuid_calls r;
     refuses := refuses r; send_calls := send_calls r;
     wire := wire r ++ [e] |}.

(** [uuid()]: the next draw of the random source. *)
Definition uuid : Async string :=
  fun r =>
    ({| heap := heap r; rand := rand r; uuid_calls := S (uuid_calls r);
        refuses := refuses r; send_calls := send_calls r;
        wire := wire r |},
     Resolved (rand r (uuid_calls r))).

(** [delay(ms)], i.e. [promisify(setTimeout)]. *)
Definition delay (ms : Z) : Async unit :=
  fun r => (log (Slept ms) r, Resolved tt).

(** Reading and writing an object through its reference. *)
Definition load (l : nat) : Async obj :=
  fun r => (r, Resolved (default ∅ (heap r !! l))).

Definition store (l : nat) (o : obj) : Async unit :=
  fun r =>
    ({| heap := <[l := o]> (heap r); rand := rand r;
        uuid_calls := uuid_calls r; refuses := refuses r;
        send_calls := send_calls r; wire := wire r |},
     Resolved tt).

Definition modify (l : nat) (f : obj -> obj) : Async unit :=
  fun r => store l (f (default ∅ (heap r !! l))) r.

(** A new object literal: its reference is the least unused one. *)
Definition alloc (o : obj) : Async nat :=
  fun r =>
    let l := fresh (dom (heap r)) in
    ({| heap := <[l := o]> (heap r); rand := rand r;
        uuid_calls := uuid_calls r; refuses := refuses r;
        send_calls := send_calls r; wire := wire r |},
     Resolved l).

(** [sendMessage]: the message is created from [body] and handed to
    [connection.send]; the promise settles as the transport decides. *)
Definition sendMessage (file type : string) (b : obj) (wait : bool)
  : Async unit :=
  fun r =>
    let c := {| definitionFilename := file; messageType := type;
                body := b; waitForResponse := wait; priority := 0 |} in
    let r' := {| heap := heap r; rand := rand r;
                 uuid_calls := uuid_calls r; refuses := refuses r;
                 send_calls := S (send_calls r);
                 wire := wire r ++ [Sent c] |} in
    match refuses r (send_calls r) with
    | None => (r', Resolved tt)
    | Some e => (r', Rejected e)
    end.

(** The effects of running [m] from [r], and how it settles. *)
Definition run {A} (m : Async A) (r : Runtime) : list Effect * outcome A :=
  let '(r', o) := m r in (drop (length (wire r)) (wire r'), o).

End Async.

(** [x ← m; k] reads [const x = await m; k]. *)
#[global] Instance async_ret : MRet Async := @Async.ret.
#[global] Instance async_bind : MBind Async := fun A B k m => Async.bind m k.

(** A runtime with nothing in it, whose transport accepts every send. *)
Definition idle_runtime (rnd : nat -> string) : Runtime :=
  {| heap := ∅; rand := rnd; uuid_calls := 0; refuses := fun _ => None;
     send_calls := 0; wire := [] |}.

(** ** The two byte orders of a 16-bit field *)

Module Hid.

(** Modelled from the spec: the writer of the spec's "three little-endian
    uint16s", low octet first. It is not the helper [sendKeyPress] calls;
    it is kept to compare the spec's byte order with the helper's. *)
Definition uint16_le (n : Z) : Buffer := [n mod 256; (n / 256) mod 256].

(** [number.UInt16toBufferBE] of [src/lib/util/number], which
    [sendKeyPress] calls, for a value in [0, 65536): big-endian as it is
    named, the high octet first. *)
Definition uint16_be (n : Z) : Buffer := [(n / 256) mod 256; n mod 256].

End Hid.

(** ** The [AppleTV] class *)

Module AppleTV.

(** [enum Key]: members number from 0 in declaration order. *)
Inductive Key :=
| Up | Down | Left | Right | Menu | Play | Pause | Next | Previous
| Suspend | Select | Topmenu | WakeUp | VolumeUp | VolumeDown
| Home | HomeHold.

#[global] Instance Key_eq_dec : EqDecision Key.
Proof. solve_decision. Defined.

Definition Keys : list Key :=
  [Up; Down; Left; Right; Menu; Play; Pause; Next; Previous;
   Suspend; Select; Topmenu; WakeUp; VolumeUp; VolumeDown;
   Home; HomeHold].

Definition Key_value (k : Key) : Z :=
  match k with
  | Up => 0 | Down => 1 | Left => 2 | Right => 3 | Menu => 4 | Play => 5
  | Pause => 6 | Next => 7 | Previous => 8 | Suspend => 9 | Select => 10
  | Topmenu => 11 | WakeUp => 12 | VolumeUp => 13 | VolumeDown => 14
  | Home => 15 | HomeHold => 16
  end.

(** The member a run-time value denotes, if any ([===] against each
    member in turn). *)
Definition Key_of_value (v : value) : option Key :=
  match v with
  | VNum n => List.find (fun k => Key_value k =? n) Keys
  | _ => None
  end.

(** [AppleTV.key(key: string)]; falling off the [switch] returns
    [undefined], here [None]. *)
Definition key (key : string) : completion (option Key) :=
  if String.eqb key "up" then Return (Some Up)
  else if String.eqb key "down" then Return (Some Down)
  else if String.eqb key "left" then Return (Some Left)
  else if String.eqb key "right" then Return (Some Right)
  else if String.eqb key "menu" then Return (Some Menu)
  else if String.eqb key "play" then Return (Some Play)
  else if String.eqb key "pause" then Return (Some Pause)
  else if String.eqb key "previous" then Return (Some Previous)
  else if String.eqb key "suspend" then Return (Some Suspend)
  else if String.eqb key "select" then Return (Some Select)
  else if String.eqb key "topmenu" then Return (Some Topmenu)
  else if String.eqb key "wakeup" then Return (Some WakeUp)
  else if String.eqb key "volumeup" then Return (Some VolumeUp)
  else if String.eqb key "volumedown" then Return (Some VolumeDown)
  else if String.eqb key "home" then Return (Some Home)
  else if String.eqb key "homehold" then Return (Some HomeHold)
  else Return None.

Section Methods.

(** [number.UInt16toBufferBE] of [src/lib/util/number], taken as a
    parameter: the methods are embedded over whatever it writes. *)
Variable UInt16toBufferBE : Z -> Buffer.

Definition time : Buffer := Buf.from_hex "438922cf08020000".

Definition data (usePage usage : Z) (down : bool) : Buffer :=
  Buf.concat [
    UInt16toBufferBE usePage;
    UInt16toBufferBE usage;
    if down then UInt16toBufferBE 1 else UInt16toBufferBE 0
  ].

Definition scaffold : Buffer :=
  Buf.from_hex ("00000000000000000100000000000000020"
                ++ "00000200000000300000001000000000000").

Definition trailer : Buffer := Buf.from_hex "0000000000000001000000".

(** The [hidEventData] field of the body [sendKeyPress] builds. *)
Definition hidEventData (usePage usage : Z) (down : bool) : Buffer :=
  Buf.concat [ time; scaffold; data usePage usage down; trailer ].

(** [sendKeyPress]; the promise resolves to the device itself. *)
Definition sendKeyPress (usePage usage : Z) (down : bool) : Async unit :=
  let body : obj :=
    {[ "hidEventData" := VBuf (hidEventData usePage usage down) ]} in
  Async.sendMessage "SendHIDEventMessage" "SendHIDEventMessage" body false
    ≫= (fun _ => mret tt).

(** [sendKeyPressAndRelease(usePage, usage, hold = false)]. *)
Definition sendKeyPressAndRelease (usePage usage : Z) (hold : bool)
  : Async unit :=
  sendKeyPress usePage usage true;;
  (if hold then Async.delay 1000 else mret tt);;
  sendKeyPress usePage usage false.

(** [sendKeyCommand(key)] for a member of the enum. *)
Definition sendKeyCommand (key : Key) : Async unit :=
  match key with
  | Up => sendKeyPressAndRelease 1 0x8C false
  | Down => sendKeyPressAndRelease 1 0x8D false
  | Left => sendKeyPressAndRelease 1 0x8B false
  | Right => sendKeyPressAndRelease 1 0x8A false
  | Menu => sendKeyPressAndRelease 1 0x86 false
  | Play => sendKeyPressAndRelease 12 0xB0 false
  | Pause => sendKeyPressAndRelease 12 0xB1 false
  | Next => sendKeyPressAndRelease 12 0xB5 false
  | Previous => sendKeyPressAndRelease 12 0xB6 false
  | Suspend => sendKeyPressAndRelease 1 0x82 false
  | Select => sendKeyPressAndRelease 1 0x89 false
  | Topmenu => sendKeyPressAndRelease 12 0x60 false
  | WakeUp => sendKeyPressAndRelease 1 0x83 false
  | VolumeUp => sendKeyPressAndRelease 12 0xE9 false
  | VolumeDown => sendKeyPressAndRelease 12 0xEA false
  | Home => sendKeyPressAndRelease 12 0x40 false
  | HomeHold => sendKeyPressAndRelease 12 0x40 true
  end.

(** [sendKeyCommand] as JavaScript runs it, on whatever value it is
    handed: no [case] matching, the [switch] is left and the method
    returns [undefined] ([None]) without a promise. *)
Definition sendKeyCommand_js (key : value)
  : completion (option (Async unit)) :=
  match Key_of_value key with
  | Some k => Return (Some (sendKeyCommand k))
  | None => Return None
  end.

(** [requestPlaybackQueueWithWait(options, waitForResponse)]:
    [params] is the very object [options] refers to. *)
Definition requestPlaybackQueueWithWait (options : nat)
    (waitForResponse : bool) : Async unit :=
  let params := options in
  u ← Async.uuid;
  Async.modify params <["requestID" := VStr u]>;;
  o ← Async.load options;
  (if truthy (get o "artworkSize") then
     Async.modify params
       (fun o => <["artworkWidth" := member (get o "artworkSize") "width"]> o);;
     Async.modify params
       (fun o => <["artworkHeight" := member (get o "artworkSize") "height"]> o);;
     Async.modify params (delete "artworkSize")
   else mret tt);;
  b ← Async.load params;
  Async.sendMessage "PlaybackQueueRequestMessage"
    "PlaybackQueueRequestMessage" b waitForResponse.

(** [requestPlaybackQueue(options)]. *)
Definition requestPlaybackQueue (options : nat) : Async unit :=
  requestPlaybackQueueWithWait options true.

(** [sendIntroduction()] of [src/lib/appletv.ts]: its [body]. *)
Definition introduction (pairingId : string) : obj :=
  list_to_map [
    ("uniqueIdentifier", VStr pairingId);
    ("name", VStr "appletv-node");
    ("localizedModelName", VStr "iPhone");
    ("systemBuildVersion", VStr "17B111");
    ("applicationBundleIdentifier", VStr "com.apple.TVRemote");
    ("applicationBundleVersion", VStr "344.28");
    ("protocolVersion", VNum 1);
    ("allowsPairing", VBool true);
    ("lastSupportedMessageType", VNum 77);
    ("supportsSystemPairing", VBool true);
    ("supportsSharedQueue", VBool true);
    ("supportsACL", VBool true);
    ("supportsExtendedMotion", VBool true);
    ("sharedQueueVersion", VNum 2);
    ("deviceClass", VNum 1);
    ("logicalDeviceCount", VNum 1)
  ].

Definition sendIntroduction (pairingId : string) : Async unit :=
  let body := introduction pairingId in
  Async.sendMessage "DeviceInfoMessage" "DeviceInfoMessage" body true.

End Methods.

(** The compiled copy, [dist/lib/appletv.js]. *)
Module Dist.

Definition introduction (pairingId : string) : obj :=
  list_to_map [
    ("uniqueIdentifier", VStr pairingId);
    ("name", VStr "appletv-node");
    ("localizedModelName", VStr "iPhone");
    ("systemBuildVersion", VStr "17B111");
    ("applicationBundleIdentifier", VStr "com.apple.TVRemote");
    ("applicationBundleVersion", VStr "344.28");
    ("protocolVersion", VNum 1);
    ("allowsPairing", VBool true);
    ("lastSupportedMessageType", VNum 77);
    ("supportsSystemPairing", VBool true);
    ("logicalDeviceCount", VNum 1)
  ].

Definition sendIntroduction (pairingId : string) : Async unit :=
  let body := introduction pairingId in
  Async.sendMessage "DeviceInfoMessage" "DeviceInfoMessage" body true.

End Dist.

(** *** The constructor's fields *)

Record TxtRecord := { Name : string; UniqueIdentifier : string }.

(** The discovery record ([Service] of mdns), as far as it is read. *)
Record Service := {
  addresses : list string;
  service_port : Z;
  txtRecord : TxtRecord
}.

(** The fields the constructor assigns; an index past the end of
    [addresses] reads [undefined], here [None]. *)
Record Fields := {
  name : string;
  address : option string;
  port : Z;
  uid : string;
  pairingId : string
}.

Definition constructor (service : Service) : Async Fields :=
  pairingId ← Async.uuid;
  let address :=
    if (1 <? Z.of_nat (length (addresses service)))
    then addresses service !! 1%nat
    else addresses service !! 0%nat in
  mret {| name := Name (txtRecord service);
          address := address;
          port := service_port service;
          uid := UniqueIdentifier (txtRecord service);
          pairingId := pairingId |}.

End AppleTV.


(** ** Inbound messages *)

Module Message.

(** [Message.Type]: the member the device facade tests for, and the other
    members by their number. *)
Inductive Type_ :=
| SetStateMessage
| OtherMessage (n : Z).

#[global] Instance Type_eq_dec : EqDecision Type_.
Proof. solve_decision. Defined.

(** One entry of [payload.supportedCommands.supportedCommands]; a flag
    the device left out reads [undefined], here [None]. *)
Record CommandInfo := {
  command : Z;
  enabled : option bool;
  canScrub : option bool
}.

Record SupportedCommands := {
  supportedCommands_list : option (list CommandInfo)
}.

(** The body of a [SetStateMessage]; each part is an object or missing.
    The parts the facade passes on unread are kept as opaque tokens. *)
Record Payload := {
  nowPlayingInfo : option string;
  supportedCommands : option SupportedCommands;
  playbackQueue : option string
}.

Record t := {
  type : Type_;
  identifier : option string;
  payload : option Payload
}.

End Message.

(** [new SupportedCommand(command, enabled, canScrub)]. *)
Record SupportedCommand := {
  sc_command : Z;
  sc_enabled : bool;
  sc_canScrub : bool
}.

(** [new NowPlayingInfo(payload)]: built from the whole payload. *)
Record NowPlayingInfo := { np_message : Message.Payload }.

(** [x || false] for a flag. *)
Definition or_false (x : option bool) : bool := default false x.

(** What the device emits to its subscribers: [that.emit(name, value)]. *)
Inductive Emission :=
| EmitMessage (m : Message.t)
| EmitNowPlaying (info : option NowPlayingInfo)
| EmitSupportedCommands (commands : list SupportedCommand)
| EmitPlaybackQueue (queue : string).

Definition event_name (e : Emission) : string :=
  match e with
  | EmitMessage _ => "message"
  | EmitNowPlaying _ => "nowPlaying"
  | EmitSupportedCommands _ => "supportedCommands"
  | EmitPlaybackQueue _ => "playbackQueue"
  end.

(** The fan-out the constructor installs on the connection's ['message']
    event, as the list of emissions in order. *)
Definition on_connection_message (message : Message.t) : list Emission :=
  EmitMessage message ::
  if decide (Message.type message = Message.SetStateMessage) then
    match Message.payload message with
    | None => [EmitNowPlaying None]
    | Some payload =>
        (match Message.nowPlayingInfo payload with
         | Some _ => [EmitNowPlaying (Some {| np_message := payload |})]
         | None => []
         end)
        ++ (match Message.supportedCommands payload with
            | Some sc =>
                let commands :=
                  List.map
                    (fun sc => {| sc_command := Message.command sc;
                                  sc_enabled := or_false (Message.enabled sc);
                                  sc_canScrub := or_false (Message.canScrub sc) |})
                    (default [] (Message.supportedCommands_list sc)) in
                [EmitSupportedCommands commands]
            | None => []
            end)
        ++ (match Message.playbackQueue payload with
            | Some q => [EmitPlaybackQueue q]
            | None => []
            end)
    end
  else [].

(** ** The device as an event loop *)

Module Device.

(** A registered listener: a subscriber's callback (opaque to the
    device), or the closure [messageOfType] installs for its promise. *)
Inductive Listener :=
| Subscriber (id : nat)
| Awaiter (p : nat).

#[global] Instance Listener_eq_dec : EqDecision Listener.
Proof. solve_decision. Defined.

(** What a timer runs: the polling closure of the constructor, or the
    expiry closure of [messageOfType] for its promise. *)
Inductive Callback :=
| PollQueue
| Expire (p : nat).

#[global] Instance Callback_eq_dec : EqDecision Callback.
Proof. solve_decision. Defined.

(** A pending timer; [every] is the period of a [setInterval]. Times are
    in milliseconds. *)
Record Timer := {
  handle : nat;
  due : Z;
  every : option Z;
  callback : Callback
}.

(** How the promise of a [messageOfType] call settles: resolved with
    the message, or rejected with
    [new Error('Timed out waiting for message type ' + type)]. *)
Inductive Settlement :=
| ResolvedWith (message : Message.t)
| TimedOutWaitingFor (type : Message.Type_).

(** The promise of one [messageOfType] call. *)
Record Waiter := {
  awaited : Message.Type_;
  settled : option Settlement
}.

Record State := {
  runtime : Runtime;
  isOpen : bool;
  listeners : gmap string (list Listener);
  queuePollTimer : option nat;
  clock : Z;
  timers : list Timer;
  handles : nat;
  promises : list Waiter;
  emitted : list Emission
}.

Definition set_runtime (r : Runtime) (s : State) : State :=
  {| runtime := r; isOpen := isOpen s; listeners := listeners s;
     queuePollTimer := queuePollTimer s; clock := clock s;
     timers := timers s; handles := handles s; promises := promises s;
     emitted := emitted s |}.

Definition set_isOpen (b : bool) (s : State) : State :=
  {| runtime := runtime s; isOpen := b; listeners := listeners s;
     queuePollTimer := queuePollTimer s; clock := clock s;
     timers := timers s; handles := handles s; promises := promises s;
     emitted := emitted s |}.

Definition set_listeners (l : gmap string (list Listener)) (s : State)
  : State :=
  {| runtime := runtime s; isOpen := isOpen s; listeners := l;
     queuePollTimer := queuePollTimer s; clock := clock s;
     timers := timers s; handles := handles s; promises := promises s;
     emitted := emitted s |}.

Definition set_queuePollTimer (t : option nat) (s : State) : State :=
  {| runtime := runtime s; isOpen := isOpen s; listeners := listeners s;
     queuePollTimer := t; clock := clock s;
     timers := timers s; handles := handles s; promises := promises s;
     emitted := emitted s |}.

Definition set_clock (c : Z) (s : State) : State :=
  {| runtime := runtime s; isOpen := isOpen s; listeners := listeners s;
     queuePollTimer := queuePollTimer s; clock := c;
     timers := timers s; handles := handles s; promises := promises s;
     emitted := emitted s |}.

Definition set_timers (ts : list Timer) (s : State) : State :=
  {| runtime := runtime s; isOpen := isOpen s; listeners := listeners s;
     queuePollTimer := queuePollTimer s; clock := clock s;
     timers := ts; handles := handles s; promises := promises s;
     emitted := emitted s |}.

Definition set_handles (n : nat) (s : State) : State :=
  {| runtime := runtime s; isOpen := isOpen s; listeners := listeners s;
     queuePollTimer := queuePollTimer s; clock := clock s;
     timers := timers s; handles := n; promises := promises s;
     emitted := emitted s |}.

Definition set_promises (ps : list Waiter) (s : State) : State :=
  {| runtime := runtime s; isOpen := isOpen s; listeners := listeners s;
     queuePollTimer := queuePollTimer s; clock := clock s;
     timers := timers s; handles := handles s; promises := ps;
     emitted := emitted s |}.

Definition set_emitted (es : list Emission) (s : State) : State :=
  {| runtime := runtime s; isOpen := isOpen s; listeners := listeners s;
     queuePollTimer := queuePollTimer s; clock := clock s;
     timers := timers s; handles := handles s; promises := promises s;
     emitted := es |}.

(** *** Timers *)

(** The delay Node gives a timer: one below 1 ms or above 2147483647 ms
    is set to 1 ms. *)
Definition timer_delay (ms : Z) : Z :=
  if (ms <? 1) || (2147483647 <? ms) then 1 else ms.

(** [setTimeout] and [setInterval] return the handle of the new timer. *)
Definition setTimeout (cb : Callback) (ms : Z) (s : State) : nat * State :=
  let t := {| handle := handles s; due := clock s + timer_delay ms;
              every := None; callback := cb |} in
  (handles s, set_handles (S (handles s)) (set_timers (timers s ++ [t]) s)).

Definition setInterval (cb : Callback) (ms : Z) (s : State) : nat * State :=
  let t := {| handle := handles s; due := clock s + timer_delay ms;
              every := Some (timer_delay ms); callback := cb |} in
  (handles s, set_handles (S (handles s)) (set_timers (timers s ++ [t]) s)).

Definition clearInterval (h : nat) (s : State) : State :=
  set_timers (List.filter (fun t => negb (handle t =? h)%nat) (timers s)) s.

(** *** The event emitter *)

Definition registered (ev : string) (s : State) : list Listener :=
  default [] (listeners s !! ev).

Definition listenerCount (ev : string) (s : State) : nat :=
  length (registered ev s).

Definition polled (ev : string) : bool :=
  String.eqb ev "nowPlaying" || String.eqb ev "supportedCommands".

(** The constructor's ['newListener'] hook. *)
Definition newListener_hook (event : string) (s : State) : State :=
  match queuePollTimer s with
  | None =>
      if polled event then
        let '(h, s') := setInterval PollQueue 5000 s in
        set_queuePollTimer (Some h) s'
      else s
  | Some _ => s
  end.

(** The constructor's ['removeListener'] hook. *)
Definition removeListener_hook (event : string) (s : State) : State :=
  match queuePollTimer s with
  | Some h =>
      if polled event then
        let listenerCount :=
          (listenerCount "nowPlaying" s
           + listenerCount "supportedCommands" s)%nat in
        if (listenerCount =? 0)%nat then
          set_queuePollTimer None (clearInterval h s)
        else s
      else s
  | None => s
  end.

(** [on(event, listener)]: ['newListener'] is emitted before the
    listener is appended. *)
Definition on (event : string) (l : Listener) (s : State) : State :=
  let s := newListener_hook event s in
  set_listeners (<[event := registered event s ++ [l]]> (listeners s)) s.

(** Drops the most recently added occurrence of [l]. *)
Fixpoint remove_last (l : Listener) (ls : list Listener)
  : option (list Listener) :=
  match ls with
  | [] => None
  | x :: ls' =>
      match remove_last l ls' with
      | Some ls'' => Some (x :: ls'')
      | None => if decide (x = l) then Some ls' else None
      end
  end.

(** [removeListener(event, listener)]: ['removeListener'] is emitted
    after the listener is gone, and only if it was registered. *)
Definition removeListener (event : string) (l : Listener) (s : State)
  : State :=
  match remove_last l (registered event s) with
  | Some ls =>
      removeListener_hook event
        (set_listeners
           (match ls with
            | [] => delete event (listeners s)
            | _ => <[event := ls]> (listeners s)
            end) s)
  | None => s
  end.

(** *** Promises *)

(** [resolve] and [reject]: only the first call settles the promise. *)
Definition settle (p : nat) (o : Settlement) (s : State) : State :=
  match promises s !! p with
  | Some w =>
      match settled w with
      | None =>
          set_promises
            (<[p := {| awaited := awaited w; settled := Some o |}]>
               (promises s)) s
      | Some _ => s
      end
  | None => s
  end.

(** Calling one listener with an emitted value. The closure of
    [messageOfType] tests the type, resolves and unregisters itself; what
    a subscriber does with the value is outside the device. *)
Definition invoke (l : Listener) (e : Emission) (s : State) : State :=
  match l, e with
  | Awaiter p, EmitMessage message =>
      match promises s !! p with
      | Some w =>
          if decide (Message.type message = awaited w) then
            removeListener "message" (Awaiter p)
              (settle p (ResolvedWith message) s)
          else s
      | None => s
      end
  | _, _ => s
  end.

(** [emit(event, value)]: the listeners registered when the call starts
    are called in registration order. *)
Definition emit (e : Emission) (s : State) : State :=
  fold_left (fun s l => invoke l e s) (registered (event_name e) s)
    (set_emitted (emitted s ++ [e]) s).

(** The connection hands a decoded message to the device. *)
Definition receive (message : Message.t) (s : State) : State :=
  fold_left (fun s e => emit e s) (on_connection_message message) s.

(** [messageOfType(type, timeout = 5)]: returns the new promise. *)
Definition messageOfType (type : Message.Type_) (timeout : option Z)
    (s : State) : nat * State :=
  let timeout := default 5 timeout in
  let p := length (promises s) in
  let s :=
    set_promises (promises s ++ [{| awaited := type; settled := None |}]) s in
  let '(_, s) := setTimeout (Expire p) (timeout * 1000) s in
  (p, on "message" (Awaiter p) s).

(** The expiry closure of [messageOfType]. *)
Definition expire (p : nat) (s : State) : State :=
  match promises s !! p with
  | Some w =>
      removeListener "message" (Awaiter p)
        (settle p (TimedOutWaitingFor (awaited w)) s)
  | None => s
  end.

(** *** Polling *)

(** The options literal of the polling closure. *)
Definition poll_options : obj :=
  list_to_map [
    ("length", VNum 100);
    ("location", VNum 0);
    ("artworkSize", VSize {| width := -1; height := 368 |})
  ].

(** The polling closure; how the request settles is ignored
    ([.then(() => {}).catch(error => {})]). *)
Definition poll (s : State) : State :=
  if isOpen s then
    let request :=
      options ← Async.alloc poll_options;
      AppleTV.requestPlaybackQueueWithWait options false in
    set_runtime (request (runtime s)).1 s
  else s.

(** *** The passage of time *)

Definition run_callback (cb : Callback) (s : State) : State :=
  match cb with
  | PollQueue => poll s
  | Expire p => expire p s
  end.

Definition pending (h : nat) (s : State) : bool :=
  existsb (fun t => (handle t =? h)%nat) (timers s).

(** A due timer fires: an interval is put back one period later, a
    timeout is dropped; then its callback runs. *)
Definition fire (t : Timer) (s : State) : State :=
  if pending (handle t) s then
    let rest := List.filter (fun u => negb (handle u =? handle t)%nat) (timers s) in
    let s :=
      match every t with
      | Some ms =>
          set_timers (rest ++ [{| handle := handle t; due := due t + ms;
                                  every := every t;
                                  callback := callback t |}]) s
      | None => set_timers rest s
      end in
    run_callback (callback t) s
  else s.

(** One millisecond passes; the timers that have come due fire in the
    order they were set. *)
Definition tick (s : State) : State :=
  let s := set_clock (clock s + 1) s in
  fold_left (fun s t => fire t s)
    (List.filter (fun t => due t <=? clock s) (timers s)) s.

(** *** What can happen to a device *)

Inductive Step :=
| On (event : string) (id : nat)
| Off (event : string) (id : nat)
| MessageOfType (type : Message.Type_) (timeout : option Z)
| Receive (message : Message.t)
| Tick
| Link (open : bool).

Definition step (s : State) (e : Step) : State :=
  match e with
  | On event id => on event (Subscriber id) s
  | Off event id => removeListener event (Subscriber id) s
  | MessageOfType type timeout => (messageOfType type timeout s).2
  | Receive message => receive message s
  | Tick => tick s
  | Link open => set_isOpen open s
  end.

Definition run (s : State) (es : list Step) : State := fold_left step es s.

(** A device fresh from its constructor. *)
Definition init (r : Runtime) : State :=
  {| runtime := r; isOpen := false; listeners := ∅; queuePollTimer := None;
     clock := 0; timers := []; handles := 0; promises := [];
     emitted := [] |}.

Definition reachable (s : State) : Prop :=
  exists r es, s = run (init r) es.

(** The polling timers that are pending. *)
Definition poll_timers (s : State) : list Timer :=
  List.filter (fun t => bool_decide (callback t = PollQueue)) (timers s).

(** The subscribers the polling serves. *)
Definition subscribers (s : State) : nat :=
  (listenerCount "nowPlaying" s + listenerCount "supportedCommands" s)%nat.

(** The requests sent so far. *)
Definition sent (s : State) : list SendCall :=
  omap (fun e => match e with Sent c => Some c | Slept _ => None end)
    (wire (runtime s)).

End Device.

(** * Properties *)

(** ** Key presses *)

Section HidProperties.

Import AppleTV.

(** A send that the transport accepts or not is logged all the same. *)
Lemma run_sendMessage file type b wait r :
  (Async.run (Async.sendMessage file type b wait) r).1
  = [Sent {| definitionFilename := file; messageType := type; body := b;
             waitForResponse := wait; priority := 0 |}].
Proof.
  unfold Async.run, Async.sendMessage.
  destruct (refuses r (send_calls r)); simpl;
    by rewrite drop_app_length.
Qed.

Lemma run_sendKeyPress enc usePage usage down r :
  (Async.run (sendKeyPress enc usePage usage down) r).1
  = [Sent {| definitionFilename := "SendHIDEventMessage";
             messageType := "SendHIDEventMessage";
             body := {[ "hidEventData" :=
                          VBuf (hidEventData enc usePage usage down) ]};
             waitForResponse := false; priority := 0 |}].
Proof.
  unfold Async.run, sendKeyPress, mbind, async_bind, Async.bind,
    Async.sendMessage.
  destruct (refuses r (send_calls r)); simpl;
    by rewrite drop_app_length.
Qed.

(** A writer of two octets, taken apart. *)
Lemma two_octets (enc : Z -> Buffer) n :
  length (enc n) = 2%nat -> exists a b, enc n = [a; b].
Proof.
  destruct (enc n) as [|a [|b [|c l]]]; simpl; try discriminate.
  intros _. by exists a, b.
Qed.

(** The blob as a whole: stub, scaffold, the three fields, trailer. *)
Lemma hidEventData_split enc usePage usage down :
  hidEventData enc usePage usage down
  = time ++ scaffold
    ++ (enc usePage ++ enc usage ++ enc (if down then 1 else 0))
    ++ trailer.
Proof.
  unfold hidEventData, data, Buf.concat. simpl.
  rewrite !app_nil_r. by destruct down.
Qed.

End HidProperties.

(** The 35 bytes between the stub and the three fields. *)
Definition scaffold_bytes : Buffer :=
  [0; 0; 0; 0; 0; 0; 0; 0; 1; 0; 0; 0; 0; 0; 0; 0; 2; 0; 0; 0;
   0x20; 0; 0; 0; 3; 0; 0; 0; 1; 0; 0; 0; 0; 0; 0].

(** The blob byte by byte, for 16-bit [usePage] and [usage]: stub,
    scaffold, the three fields with the high octet first, trailer. *)
Definition hid_bytes (usePage usage : Z) (down : bool) : Buffer :=
  [0x43; 0x89; 0x22; 0xCF; 0x08; 0x02; 0x00; 0x00]
  ++ scaffold_bytes
  ++ [usePage / 256; usePage mod 256; usage / 256; usage mod 256;
      0; if down then 1 else 0]
  ++ [0; 0; 0; 0; 0; 0; 0; 1; 0; 0; 0].

Lemma uint16_be_octets n :
  0 <= n < 65536 -> Hid.uint16_be n = [n / 256; n mod 256].
Proof.
  intros Hn. unfold Hid.uint16_be. rewrite (Z.mod_small (n / 256)); [done|].
  split; [apply Z.div_pos; lia|apply Z.div_lt_upper_bound; lia].
Qed.

Lemma hidEventData_bytes usePage usage down :
  0 <= usePage < 65536 -> 0 <= usage < 65536 ->
  AppleTV.hidEventData Hid.uint16_be usePage usage down
  = hid_bytes usePage usage down.
Proof.
  intros Hp Hu. rewrite hidEventData_split, !uint16_be_octets by done.
  rewrite uint16_be_octets by (destruct down; lia).
  by destruct down.
Qed.

(** C1, as amended: the [hidEventData] buffer of every [sendKeyPress] with
    a 16-bit usage page and usage is a 60-byte blob, constant but for six
    bytes: it starts with the stub 43 89 22 CF 08 02 00 00, the 35 scaffold
    bytes follow, the three fields (usage page, usage, down) sit at offsets
    43 to 48, each two octets with the high octet first as
    [number.UInt16toBufferBE] writes them, and the 11 trailer bytes end it.
    The fields of [Key.Menu] read 00 01 00 86 00 01 when pressed and
    00 01 00 86 00 00 when released. *)
Theorem hidEventData_layout (usePage usage : Z) (down : bool) (r : Runtime) :
  0 <= usePage < 65536 ->
  0 <= usage < 65536 ->
  let blob := hid_bytes usePage usage down in
  (Async.run (AppleTV.sendKeyPress Hid.uint16_be usePage usage down) r).1
  = [Sent {| definitionFilename := "SendHIDEventMessage";
             messageType := "SendHIDEventMessage";
             body := {[ "hidEventData" := VBuf blob ]};
             waitForResponse := false; priority := 0 |}]
  /\ length blob = 60%nat
  /\ Buf.slice 0 8 blob = [0x43; 0x89; 0x22; 0xCF; 0x08; 0x02; 0x00; 0x00]
  /\ Buf.slice 8 43 blob = scaffold_bytes
  /\ Buf.slice 43 49 blob
     = [usePage / 256; usePage mod 256; usage / 256; usage mod 256;
        0; if down then 1 else 0]
  /\ Buf.slice 49 60 blob = [0; 0; 0; 0; 0; 0; 0; 1; 0; 0; 0]
  /\ Buf.slice 43 49 (AppleTV.hidEventData Hid.uint16_be 1 0x86 true)
     = [0x00; 0x01; 0x00; 0x86; 0x00; 0x01]
  /\ Buf.slice 43 49 (AppleTV.hidEventData Hid.uint16_be 1 0x86 false)
     = [0x00; 0x01; 0x00; 0x86; 0x00; 0x00].
Proof.
  intros Hp Hu blob.
  split.
  { rewrite run_sendKeyPress. by rewrite hidEventData_bytes. }
  subst blob. unfold hid_bytes.
  do 5 (split; [reflexivity|]).
  split; reflexivity.
Qed.

(** The layout at [Key.Menu], pressed. *)
Lemma hidEventData_layout_witness :
  0 <= 1 < 65536
  /\ 0 <= 0x86 < 65536
  /\ (Async.run (AppleTV.sendKeyPress Hid.uint16_be 1 0x86 true)
        (idle_runtime (fun _ => ""))).1
     = [Sent {| definitionFilename := "SendHIDEventMessage";
                messageType := "SendHIDEventMessage";
                body := {[ "hidEventData" := VBuf (hid_bytes 1 0x86 true) ]};
                waitForResponse := false; priority := 0 |}]
  /\ Buf.slice 43 49 (hid_bytes 1 0x86 true)
     = [0x00; 0x01; 0x00; 0x86; 0x00; 0x01].
Proof.
  assert (Hp : 0 <= 1 < 65536) by lia.
  assert (Hu : 0 <= 0x86 < 65536) by lia.
  split; [exact Hp|]. split; [exact Hu|].
  destruct (hidEventData_layout 1 0x86 true (idle_runtime (fun _ => ""))
              Hp Hu) as (Hrun & _ & _ & _ & Hfields & _).
  split; [exact Hrun|exact Hfields].
Defined.

(** C1 as stated fails: whichever byte order the writer uses, the blob of
    [Key.Menu] is not 44 bytes long, and its bytes at offsets 30 to 35 are
    scaffold bytes, not the three fields; and where the fields are, at
    offsets 43 to 48, the helper has written them high octet first, not
    01 00 86 00 01 00. *)
Lemma hidEventData_not_44_bytes :
  length (AppleTV.hidEventData Hid.uint16_le 1 0x86 true) <> 44%nat
  /\ length (AppleTV.hidEventData Hid.uint16_be 1 0x86 true) <> 44%nat
  /\ Buf.slice 30 36 (AppleTV.hidEventData Hid.uint16_le 1 0x86 true)
     <> [0x01; 0x00; 0x86; 0x00; 0x01; 0x00]
  /\ Buf.slice 30 36 (AppleTV.hidEventData Hid.uint16_be 1 0x86 true)
     <> [0x01; 0x00; 0x86; 0x00; 0x01; 0x00]
  /\ Buf.slice 43 49 (AppleTV.hidEventData Hid.uint16_be 1 0x86 true)
     <> [0x01; 0x00; 0x86; 0x00; 0x01; 0x00].
Proof. repeat split; discriminate. Qed.

(** Under the little-endian writer of the spec the fields of [Key.Menu]
    would read 01 00 86 00 01 00 and 01 00 86 00 00 00, at offsets 43 to
    48. *)
Example hidEventData_menu_little_endian :
  Buf.slice 43 49 (AppleTV.hidEventData Hid.uint16_le 1 0x86 true)
  = [0x01; 0x00; 0x86; 0x00; 0x01; 0x00]
  /\ Buf.slice 43 49 (AppleTV.hidEventData Hid.uint16_le 1 0x86 false)
     = [0x01; 0x00; 0x86; 0x00; 0x00; 0x00].
Proof. split; reflexivity. Qed.

(** ** Key commands *)

(** The frame [sendKeyPress] hands to [sendMessage]. *)
Definition hid_frame (enc : Z -> Buffer) (usePage usage : Z) (down : bool)
  : SendCall :=
  {| definitionFilename := "SendHIDEventMessage";
     messageType := "SendHIDEventMessage";
     body := {[ "hidEventData" :=
                  VBuf (AppleTV.hidEventData enc usePage usage down) ]};
     waitForResponse := false; priority := 0 |}.

(** The table of key commands as the specification lists it: usage page
    and usage of each key. *)
Definition usage_table (k : AppleTV.Key) : Z * Z :=
  match k with
  | AppleTV.Up => (1, 0x8C) | AppleTV.Down => (1, 0x8D)
  | AppleTV.Left => (1, 0x8B) | AppleTV.Right => (1, 0x8A)
  | AppleTV.Menu => (1, 0x86) | AppleTV.Select => (1, 0x89)
  | AppleTV.Suspend => (1, 0x82) | AppleTV.WakeUp => (1, 0x83)
  | AppleTV.Play => (12, 0xB0) | AppleTV.Pause => (12, 0xB1)
  | AppleTV.Next => (12, 0xB5) | AppleTV.Previous => (12, 0xB6)
  | AppleTV.Topmenu => (12, 0x60) | AppleTV.Home => (12, 0x40)
  | AppleTV.HomeHold => (12, 0x40) | AppleTV.VolumeUp => (12, 0xE9)
  | AppleTV.VolumeDown => (12, 0xEA)
  end.

Section KeyCommands.

Import AppleTV.

Variable enc : Z -> Buffer.

(** Press, optional hold, release, when the press is accepted. *)
Lemma run_sendKeyPressAndRelease usePage usage hold r :
  refuses r (send_calls r) = None ->
  (Async.run (sendKeyPressAndRelease enc usePage usage hold) r).1
  = Sent (hid_frame enc usePage usage true)
    :: (if hold then [Slept 1000] else [])
    ++ [Sent (hid_frame enc usePage usage false)].
Proof.
  intros Hok.
  unfold Async.run, sendKeyPressAndRelease, sendKeyPress, mbind, async_bind,
    Async.bind, Async.sendMessage, Async.delay, Async.log, mret, async_ret,
    Async.ret, hid_frame.
  rewrite Hok. destruct hold; simpl.
  - destruct (refuses r (S (send_calls r))); simpl;
      rewrite <- !app_assoc; by rewrite drop_app_length.
  - destruct (refuses r (S (send_calls r))); simpl;
      rewrite <- !app_assoc; by rewrite drop_app_length.
Qed.

(** When the transport rejects the press, the method rejects with the
    same error and the release is never sent. *)
Lemma run_sendKeyPressAndRelease_rejected usePage usage hold r e :
  refuses r (send_calls r) = Some e ->
  Async.run (sendKeyPressAndRelease enc usePage usage hold) r
  = ([Sent (hid_frame enc usePage usage true)], Rejected e).
Proof.
  intros Hno.
  unfold Async.run, sendKeyPressAndRelease, sendKeyPress, mbind, async_bind,
    Async.bind, Async.sendMessage, hid_frame.
  rewrite Hno. simpl. by rewrite drop_app_length.
Qed.

(** Each [case] of [sendKeyCommand] against the table. *)
Lemma sendKeyCommand_table k :
  sendKeyCommand enc k
  = sendKeyPressAndRelease enc (usage_table k).1 (usage_table k).2
      (bool_decide (k = HomeHold)).
Proof. by destruct k. Qed.

End KeyCommands.

(** A [SendHIDEventMessage] frame with its bytes spelled out. *)
Definition key_frame (usePage usage : Z) (down : bool) : SendCall :=
  {| definitionFilename := "SendHIDEventMessage";
     messageType := "SendHIDEventMessage";
     body := {[ "hidEventData" := VBuf (hid_bytes usePage usage down) ]};
     waitForResponse := false; priority := 0 |}.

Lemma usage_table_range (k : AppleTV.Key) :
  0 <= (usage_table k).1 < 65536 /\ 0 <= (usage_table k).2 < 65536.
Proof. destruct k; simpl; lia. Qed.

Lemma hid_frame_bytes usePage usage down :
  0 <= usePage < 65536 -> 0 <= usage < 65536 ->
  hid_frame Hid.uint16_be usePage usage down = key_frame usePage usage down.
Proof.
  intros Hp Hu. unfold hid_frame, key_frame. by rewrite hidEventData_bytes.
Qed.

(** What [sendKeyPressAndRelease] does and how it settles, whatever the
    transport answers. *)
Lemma run_sendKeyPressAndRelease_outcome enc usePage usage hold r :
  Async.run (AppleTV.sendKeyPressAndRelease enc usePage usage hold) r
  = match refuses r (send_calls r) with
    | Some e => ([Sent (hid_frame enc usePage usage true)], Rejected e)
    | None =>
        ([Sent (hid_frame enc usePage usage true)]
         ++ (if hold then [Slept 1000] else [])
         ++ [Sent (hid_frame enc usePage usage false)],
         match refuses r (S (send_calls r)) with
         | Some e => Rejected e
         | None => Resolved tt
         end)
    end.
Proof.
  unfold Async.run, AppleTV.sendKeyPressAndRelease, AppleTV.sendKeyPress,
    mbind, async_bind, Async.bind, Async.sendMessage, Async.delay, Async.log,
    mret, async_ret, Async.ret, hid_frame.
  destruct (refuses r (send_calls r)) as [e|]; simpl.
  { by rewrite drop_app_length. }
  destruct hold; simpl;
    destruct (refuses r (S (send_calls r))); simpl;
    rewrite <- !app_assoc; by rewrite drop_app_length.
Qed.

(** C3, as amended: for every key of the enum, [sendKeyCommand] first
    sends a [SendHIDEventMessage] frame whose [hidEventData] carries the
    key's usage page and usage from the table and down = 1. If the
    transport rejects this press, the command rejects with the same error
    and nothing more is sent. Otherwise it sends a second frame with the
    same page and usage and down = 0, after sleeping 1000 ms for
    [HomeHold] and for no other key, and settles as that send does. *)
Theorem sendKeyCommand_frames (k : AppleTV.Key) (r : Runtime) :
  let '(usagePage, usageId) := usage_table k in
  let press := Sent (key_frame usagePage usageId true) in
  let release := Sent (key_frame usagePage usageId false) in
  Async.run (AppleTV.sendKeyCommand Hid.uint16_be k) r
  = match refuses r (send_calls r) with
    | Some e => ([press], Rejected e)
    | None =>
        ([press]
         ++ (if decide (k = AppleTV.HomeHold) then [Slept 1000] else [])
         ++ [release],
         match refuses r (S (send_calls r)) with
         | Some e => Rejected e
         | None => Resolved tt
         end)
    end.
Proof.
  rewrite sendKeyCommand_table, run_sendKeyPressAndRelease_outcome.
  destruct (usage_table_range k) as [Hp Hu].
  destruct (usage_table k) as [usagePage usageId] eqn:Htab.
  cbn [fst snd] in *. rewrite !hid_frame_bytes by done.
  unfold bool_decide.
  by destruct (decide_rel eq k AppleTV.HomeHold),
    (decide (k = AppleTV.HomeHold)).
Qed.

(** [Key.Menu] on a transport that accepts every send: two frames, the
    fields 00 01 00 86 00 01 and 00 01 00 86 00 00. *)
Lemma sendKeyCommand_frames_witness :
  Async.run (AppleTV.sendKeyCommand Hid.uint16_be AppleTV.Menu)
    (idle_runtime (fun _ => ""))
  = ([Sent (key_frame 1 0x86 true); Sent (key_frame 1 0x86 false)],
     Resolved tt)
  /\ Buf.slice 43 49 (hid_bytes 1 0x86 true)
     = [0x00; 0x01; 0x00; 0x86; 0x00; 0x01]
  /\ Buf.slice 43 49 (hid_bytes 1 0x86 false)
     = [0x00; 0x01; 0x00; 0x86; 0x00; 0x00].
Proof.
  split; [|split; reflexivity].
  exact (sendKeyCommand_frames AppleTV.Menu (idle_runtime (fun _ => ""))).
Defined.

(** A transport that rejects every send. *)
Definition refusing_runtime (e : string) : Runtime :=
  {| heap := ∅; rand := fun _ => ""; uuid_calls := 0;
     refuses := fun _ => Some e; send_calls := 0; wire := [] |}.

(** C3 as stated fails: when the transport rejects the press,
    [sendKeyCommand(Key.Menu)] sends one frame, not two; the release never
    follows and the command rejects. *)
Lemma sendKeyCommand_refused_press :
  Async.run (AppleTV.sendKeyCommand Hid.uint16_be AppleTV.Menu)
    (refusing_runtime "closed")
  = ([Sent (key_frame 1 0x86 true)], Rejected "closed")
  /\ length (Async.run (AppleTV.sendKeyCommand Hid.uint16_be AppleTV.Menu)
               (refusing_runtime "closed")).1 <> 2%nat.
Proof. split; [reflexivity|discriminate]. Qed.

(** ** Key names *)

(** The documented key names with the enum member each stands for. *)
Definition key_names : list (string * AppleTV.Key) :=
  [ ("up", AppleTV.Up); ("down", AppleTV.Down); ("left", AppleTV.Left);
    ("right", AppleTV.Right); ("menu", AppleTV.Menu); ("play", AppleTV.Play);
    ("pause", AppleTV.Pause); ("previous", AppleTV.Previous);
    ("suspend", AppleTV.Suspend); ("select", AppleTV.Select);
    ("topmenu", AppleTV.Topmenu); ("wakeup", AppleTV.WakeUp);
    ("volumeup", AppleTV.VolumeUp); ("volumedown", AppleTV.VolumeDown);
    ("home", AppleTV.Home); ("homehold", AppleTV.HomeHold) ].

Ltac in_list :=
  repeat first [ apply list_elem_of_here | apply list_elem_of_further ].

(** A string is one of the names, or the [switch] of [key] is left with no
    [case] taken. *)
Lemma key_unrecognised (s : string) :
  s ∈ key_names.*1 \/ AppleTV.key s = Return None.
Proof.
  unfold AppleTV.key.
  repeat match goal with
         | |- context [String.eqb s ?n] =>
             destruct (String.eqb_spec s n) as [->|_]; [left; simpl; in_list|]
         end.
  by right.
Qed.

(** [key] never throws. *)
Lemma key_returns (s : string) : exists r, AppleTV.key s = Return r.
Proof.
  unfold AppleTV.key.
  repeat match goal with
         | |- context [String.eqb s ?n] => destruct (String.eqb s n); eauto
         end.
Qed.

(** The value of a member denotes that member. *)
Lemma Key_of_value_member (k : AppleTV.Key) :
  AppleTV.Key_of_value (VNum (AppleTV.Key_value k)) = Some k.
Proof. by destruct k. Qed.

Lemma Key_of_value_Some (v : value) (k : AppleTV.Key) :
  AppleTV.Key_of_value v = Some k -> v = VNum (AppleTV.Key_value k).
Proof.
  destruct v as [| | |n| | |]; try discriminate.
  unfold AppleTV.Key_of_value. intros H.
  apply find_some in H as [_ H]. f_equal. lia.
Qed.

(** C10: [key] maps each of the sixteen documented names to its member of
    the enum; ['next'] is not among them and yields [undefined], although
    [Key.Next] is a member; and every string is either one of the sixteen
    names or yields [undefined]. *)
Theorem key_covers_all_but_next :
  Forall (fun nk => AppleTV.key nk.1 = Return (Some nk.2)) key_names
  /\ AppleTV.key "next" = Return None
  /\ AppleTV.Next ∈ AppleTV.Keys
  /\ forall s : string, s ∈ key_names.*1 \/ AppleTV.key s = Return None.
Proof.
  split; [repeat constructor|].
  split; [reflexivity|].
  split; [unfold AppleTV.Keys; in_list|].
  apply key_unrecognised.
Qed.

(** C7, as amended: a key name outside the documented set makes [key]
    return [undefined], and a value that is no member of the enum makes
    [sendKeyCommand] return [undefined], without a promise and hence with
    nothing sent; neither call throws. *)
Theorem unknown_key_returns_undefined (enc : Z -> Buffer) (s : string)
    (v : value) :
  s ∉ key_names.*1 ->
  (forall k, v <> VNum (AppleTV.Key_value k)) ->
  AppleTV.key s = Return None
  /\ AppleTV.sendKeyCommand_js enc v = Return None.
Proof.
  intros Hs Hv. split.
  - by destruct (key_unrecognised s).
  - unfold AppleTV.sendKeyCommand_js.
    destruct (AppleTV.Key_of_value v) as [k|] eqn:Hk; [|done].
    apply Key_of_value_Some in Hk. by destruct (Hv k).
Qed.

(** The name ['rewind'] and the value [undefined]. *)
Lemma unknown_key_returns_undefined_witness :
  ("rewind" ∉ key_names.*1)
  /\ (forall k, VUndef <> VNum (AppleTV.Key_value k))
  /\ AppleTV.key "rewind" = Return None
  /\ AppleTV.sendKeyCommand_js Hid.uint16_be VUndef = Return None.
Proof.
  assert (H1 : "rewind" ∉ key_names.*1).
  { intros H. simpl in H.
    repeat (apply elem_of_cons in H as [H|H]; [discriminate H|]).
    by apply elem_of_nil in H. }
  assert (H2 : forall k, VUndef <> VNum (AppleTV.Key_value k)) by discriminate.
  split; [exact H1|]. split; [exact H2|].
  exact (unknown_key_returns_undefined Hid.uint16_be "rewind" VUndef H1 H2).
Defined.

(** C7 as stated fails: for the unknown name ['rewind'], [key] returns
    [undefined] and throws nothing; handed the number 17, which no member of
    the enum has, [sendKeyCommand] returns [undefined] as well. *)
Lemma unknown_key_not_an_error :
  AppleTV.key "rewind" = Return None
  /\ ~ (exists e, AppleTV.key "rewind" = Throw e)
  /\ AppleTV.sendKeyCommand_js Hid.uint16_be (VNum 17) = Return None
  /\ ~ (exists e, AppleTV.sendKeyCommand_js Hid.uint16_be (VNum 17) = Throw e).
Proof.
  split; [reflexivity|]. split; [intros [e H]; discriminate H|].
  split; [reflexivity|]. intros [e H]; discriminate H.
Qed.

(** ** The introduction *)

(** The fields of the introduction the specification fixes. *)
Definition introduction_contract (pairingId : string) : list (string * value) :=
  [ ("uniqueIdentifier", VStr pairingId);
    ("localizedModelName", VStr "iPhone");
    ("protocolVersion", VNum 1);
    ("supportsSystemPairing", VBool true);
    ("supportsSharedQueue", VBool true);
    ("supportsACL", VBool true) ].

(** The property names of the TypeScript source's introduction. *)
Definition introduction_fields : gset string :=
  list_to_set [
    "uniqueIdentifier"; "name"; "localizedModelName"; "systemBuildVersion";
    "applicationBundleIdentifier"; "applicationBundleVersion";
    "protocolVersion"; "allowsPairing"; "lastSupportedMessageType";
    "supportsSystemPairing"; "supportsSharedQueue"; "supportsACL";
    "supportsExtendedMotion"; "sharedQueueVersion"; "deviceClass";
    "logicalDeviceCount" ].

Lemma introduction_dom (pairingId : string) :
  dom (AppleTV.introduction pairingId) = introduction_fields.
Proof. unfold AppleTV.introduction. by rewrite dom_list_to_map_L. Qed.

(** C2, as amended: [sendIntroduction] of [src/lib/appletv.ts] sends one
    [DeviceInfoMessage], awaiting the reply, whose body has
    uniqueIdentifier = pairingId, localizedModelName "iPhone",
    protocolVersion 1 and supportsSystemPairing, supportsSharedQueue and
    supportsACL all true; the sixteen property names are the same at every
    invocation. The compiled copy in [dist/lib/appletv.js] agrees on
    uniqueIdentifier, localizedModelName, protocolVersion and
    supportsSystemPairing and has neither supportsSharedQueue nor
    supportsACL. *)
Theorem sendIntroduction_fields (pairingId : string) (r : Runtime) :
  (Async.run (AppleTV.sendIntroduction pairingId) r).1
  = [Sent {| definitionFilename := "DeviceInfoMessage";
             messageType := "DeviceInfoMessage";
             body := AppleTV.introduction pairingId;
             waitForResponse := true; priority := 0 |}]
  /\ Forall (fun fv => AppleTV.introduction pairingId !! fv.1 = Some fv.2)
       (introduction_contract pairingId)
  /\ dom (AppleTV.introduction pairingId) = introduction_fields
  /\ (Async.run (AppleTV.Dist.sendIntroduction pairingId) r).1
     = [Sent {| definitionFilename := "DeviceInfoMessage";
                messageType := "DeviceInfoMessage";
                body := AppleTV.Dist.introduction pairingId;
                waitForResponse := true; priority := 0 |}]
  /\ Forall (fun fv => AppleTV.Dist.introduction pairingId !! fv.1 = Some fv.2)
       (take 4 (introduction_contract pairingId))
  /\ AppleTV.Dist.introduction pairingId !! "supportsSharedQueue" = None
  /\ AppleTV.Dist.introduction pairingId !! "supportsACL" = None.
Proof.
  split; [apply run_sendMessage|].
  split; [repeat constructor|].
  split; [apply introduction_dom|].
  split; [apply run_sendMessage|].
  split; [repeat constructor|].
  split; reflexivity.
Qed.

(** C2 as stated fails: the two copies of the introduction do not agree on
    the fields the claim lists. For the pairing id ["p"] the compiled copy
    has no supportsACL (nor supportsSharedQueue) where the TypeScript source
    has it set to true. *)
Lemma introduction_copies_differ :
  ~ Forall (fun fv => AppleTV.Dist.introduction "p" !! fv.1
                      = AppleTV.introduction "p" !! fv.1)
      (introduction_contract "p").
Proof.
  intros H. rewrite Forall_forall in H.
  specialize (H ("supportsACL", VBool true)).
  assert (Hin : ("supportsACL", VBool true) ∈ introduction_contract "p")
    by (unfold introduction_contract; in_list).
  specialize (H Hin). discriminate H.
Qed.

(** ** The constructor *)

(** C8: the constructor sets the device's address to the second element of
    the service record's address list when the list has more than one
    element, and to its first element otherwise (an empty list leaves it
    [undefined]). *)
Theorem constructor_address (service : AppleTV.Service) (r : Runtime) :
  exists r' fields,
    AppleTV.constructor service r = (r', Resolved fields)
    /\ AppleTV.address fields
       = (if decide (1 < length (AppleTV.addresses service))%nat
          then AppleTV.addresses service !! 1%nat
          else AppleTV.addresses service !! 0%nat)
    /\ AppleTV.address fields
       = match AppleTV.addresses service with
         | _ :: second :: _ => Some second
         | [first] => Some first
         | [] => None
         end.
Proof.
  unfold AppleTV.constructor, mbind, async_bind, Async.bind, Async.uuid,
    mret, async_ret, Async.ret. simpl.
  eexists _, _. split; [reflexivity|]. simpl.
  destruct (AppleTV.addresses service) as [|a [|b l]]; simpl; try done.
  all: split; try done.
  all: by destruct (Z.ltb_spec 1 (Z.of_nat (S (S (length l))))); [|lia].
Qed.

(** ** The playback-queue request *)

(** What [requestPlaybackQueueWithWait] leaves in the object it was given,
    [u] being the identifier it drew. *)
Definition request_params (u : string) (o : obj) : obj :=
  if truthy (get o "artworkSize") then
    delete "artworkSize"
      (<["artworkHeight" := member (get o "artworkSize") "height"]>
         (<["artworkWidth" := member (get o "artworkSize") "width"]>
            (<["requestID" := VStr u]> o)))
  else <["requestID" := VStr u]> o.

Definition playback_request (b : obj) (wait : bool) : SendCall :=
  {| definitionFilename := "PlaybackQueueRequestMessage";
     messageType := "PlaybackQueueRequestMessage";
     body := b; waitForResponse := wait; priority := 0 |}.

Section PlaybackQueue.

Import AppleTV.

Lemma get_insert_ne (o : obj) (k k' : string) (v : value) :
  k <> k' -> get (<[k := v]> o) k' = get o k'.
Proof. intros H. unfold get. by rewrite lookup_insert_ne. Qed.

Lemma bind_run {A B} (m : Async A) (k : A -> Async B) r r' a :
  m r = (r', Resolved a) -> (m ≫= k) r = k a r'.
Proof. intros H. unfold mbind, async_bind, Async.bind. by rewrite H. Qed.

Lemma modify_run l f r o :
  heap r !! l = Some o ->
  Async.modify l f r
  = ({| heap := <[l := f o]> (heap r); rand := rand r;
        uuid_calls := uuid_calls r; refuses := refuses r;
        send_calls := send_calls r; wire := wire r |}, Resolved tt).
Proof. intros H. unfold Async.modify, Async.store. by rewrite H. Qed.

(** The runtime after the call: the object behind [options] is replaced,
    one identifier is drawn, one message is logged. *)
Lemma requestPlaybackQueueWithWait_run options wait r o :
  heap r !! options = Some o ->
  let u := rand r (uuid_calls r) in
  exists out,
    requestPlaybackQueueWithWait options wait r
    = ({| heap := <[options := request_params u o]> (heap r);
          rand := rand r; uuid_calls := S (uuid_calls r);
          refuses := refuses r; send_calls := S (send_calls r);
          wire := wire r
                  ++ [Sent (playback_request (request_params u o) wait)] |},
       out).
Proof.
  intros Ho u.
  unfold requestPlaybackQueueWithWait.
  erewrite bind_run; [|reflexivity].
  erewrite bind_run; [|apply modify_run; simpl; exact Ho].
  erewrite bind_run; [|reflexivity].
  simpl heap at 1. rewrite lookup_insert_eq. simpl default.
  rewrite get_insert_ne by done. fold u.
  unfold request_params, playback_request.
  destruct (truthy (get o "artworkSize")).
  - erewrite bind_run; cycle 1.
    { erewrite bind_run; [|apply modify_run; simpl; apply lookup_insert_eq].
      erewrite bind_run; [|apply modify_run; simpl; apply lookup_insert_eq].
      apply modify_run. simpl. apply lookup_insert_eq. }
    erewrite bind_run; [|reflexivity].
    unfold Async.sendMessage. simpl.
    rewrite !insert_insert_eq, lookup_insert_eq. simpl.
    rewrite !get_insert_ne by done.
    destruct (refuses r (send_calls r)); eauto.
  - erewrite bind_run; [|reflexivity].
    erewrite bind_run; [|reflexivity].
    unfold Async.sendMessage. simpl.
    rewrite lookup_insert_eq. simpl.
    destruct (refuses r (send_calls r)); eauto.
Qed.

End PlaybackQueue.

(** C9: [requestPlaybackQueue(options)] changes the object the caller
    passed: afterwards it holds a requestID, the identifier the call drew
    from [uuid()]; if it had an artworkSize, it now holds artworkWidth and
    artworkHeight copied from it and no artworkSize; no other object is
    touched, and the request sent carries the same object. Unless the
    object already held that very identifier and no artworkSize, it is no
    longer what it was. *)
Theorem requestPlaybackQueue_mutates_options (options : nat) (o : obj)
    (r : Runtime) :
  heap r !! options = Some o ->
  let u := rand r (uuid_calls r) in
  let r' := (AppleTV.requestPlaybackQueue options r).1 in
  exists o',
    heap r' !! options = Some o'
    /\ o' !! "requestID" = Some (VStr u)
    /\ (forall sz, o !! "artworkSize" = Some (VSize sz) ->
        o' !! "artworkWidth" = Some (VNum (width sz))
        /\ o' !! "artworkHeight" = Some (VNum (height sz))
        /\ o' !! "artworkSize" = None
        /\ o' <> o)
    /\ (o !! "artworkSize" = None -> o' = <["requestID" := VStr u]> o)
    /\ (o !! "requestID" <> Some (VStr u) -> o' <> o)
    /\ (forall l, l <> options -> heap r' !! l = heap r !! l)
    /\ drop (length (wire r)) (wire r') = [Sent (playback_request o' true)].
Proof.
  intros Ho u r'.
  destruct (requestPlaybackQueueWithWait_run options true r o Ho)
    as (out & Hrun).
  assert (Hheap : heap r' = <[options := request_params u o]> (heap r))
    by (subst r'; unfold AppleTV.requestPlaybackQueue; by rewrite Hrun).
  assert (Hwire : wire r' = wire r
            ++ [Sent (playback_request (request_params u o) true)])
    by (subst r'; unfold AppleTV.requestPlaybackQueue; by rewrite Hrun).
  exists (request_params u o).
  assert (Hid : request_params u o !! "requestID" = Some (VStr u)).
  { unfold request_params. destruct (truthy (get o "artworkSize")).
    - rewrite lookup_delete_ne by done.
      rewrite !lookup_insert_ne by done. apply lookup_insert_eq.
    - apply lookup_insert_eq. }
  split; [by rewrite Hheap, lookup_insert_eq|].
  split; [exact Hid|].
  split.
  { intros sz Hsz. unfold request_params, get. rewrite Hsz. simpl.
    split; [|split; [|split]].
    - rewrite lookup_delete_ne by done.
      rewrite lookup_insert_ne by done. apply lookup_insert_eq.
    - rewrite lookup_delete_ne by done. apply lookup_insert_eq.
    - apply lookup_delete_eq.
    - intros Heq.
      assert (H : delete "artworkSize"
                    (<["artworkHeight" := VNum (height sz)]>
                       (<["artworkWidth" := VNum (width sz)]>
                          (<["requestID" := VStr u]> o))) !! "artworkSize"
                  = o !! "artworkSize") by (by rewrite Heq).
      rewrite lookup_delete_eq, Hsz in H. discriminate H. }
  split.
  { intros Hnone. unfold request_params, get. by rewrite Hnone. }
  split.
  { intros Hfresh Heq. apply Hfresh. by rewrite <- Heq at 1. }
  split.
  { intros l Hl. by rewrite Hheap, lookup_insert_ne. }
  by rewrite Hwire, drop_app_length.
Qed.

(** The caller's object [{location: 0, length: 10, artworkSize: {width: 600,
    height: 400}}] at reference 0. *)
Lemma requestPlaybackQueue_mutates_options_witness :
  let o : obj := list_to_map [("location", VNum 0); ("length", VNum 10);
                   ("artworkSize", VSize {| width := 600; height := 400 |})] in
  let r := {| heap := {[ 0%nat := o ]}; rand := fun _ => "4b1d";
              uuid_calls := 0; refuses := fun _ => None; send_calls := 0;
              wire := [] |} in
  heap r !! 0%nat = Some o
  /\ exists o',
       heap (AppleTV.requestPlaybackQueue 0 r).1 !! 0%nat = Some o'
       /\ o' !! "requestID" = Some (VStr "4b1d").
Proof.
  intros o r.
  assert (Ho : heap r !! 0%nat = Some o) by reflexivity.
  split; [exact Ho|].
  destruct (requestPlaybackQueue_mutates_options 0 o r Ho)
    as (o' & H1 & H2 & _).
  exists o'. split; [exact H1 | exact H2].
Defined.

(** ** The event loop: frames and invariants *)

Section DeviceFrames.

Import Device.

(** *** The emitter *)

Lemma polled_spec ev :
  polled ev = true <-> ev = "nowPlaying" \/ ev = "supportedCommands".
Proof.
  unfold polled. rewrite orb_true_iff.
  split; (intros [H|H]; [left|right]).
  - by apply String.eqb_eq. - by apply String.eqb_eq.
  - by apply String.eqb_eq. - by apply String.eqb_eq.
Qed.

Lemma registered_insert ev ev' ls s :
  registered ev' (set_listeners (<[ev := ls]> (listeners s)) s)
  = if decide (ev = ev') then ls else registered ev' s.
Proof.
  unfold registered. simpl. rewrite lookup_insert.
  by destruct (decide (ev = ev')).
Qed.

Lemma registered_removed ev ev' ls s :
  registered ev'
    (set_listeners
       (match ls with
        | [] => delete ev (listeners s)
        | _ => <[ev := ls]> (listeners s)
        end) s)
  = if decide (ev = ev') then ls else registered ev' s.
Proof.
  unfold registered. destruct ls as [|l ls]; simpl.
  - rewrite lookup_delete. by destruct (decide (ev = ev')).
  - rewrite lookup_insert. by destruct (decide (ev = ev')).
Qed.

Lemma remove_last_length l ls ls' :
  remove_last l ls = Some ls' -> length ls = S (length ls').
Proof.
  revert ls'. induction ls as [|x ls IH]; intros ls'; simpl; [done|].
  destruct (remove_last l ls) as [ls''|].
  - intros [= <-]. simpl. f_equal. by apply IH.
  - destruct (decide (x = l)); [|done]. by intros [= <-].
Qed.

(** What is left after a removal: the other listeners as they were, and
    one occurrence less of the one removed. *)
Lemma remove_last_count l l' ls ls' :
  remove_last l ls = Some ls' ->
  length (filter (l' =.) ls)
  = (length (filter (l' =.) ls') + (if decide (l' = l) then 1 else 0))%nat.
Proof.
  revert ls'. induction ls as [|x ls IH]; intros ls'; simpl; [done|].
  destruct (remove_last l ls) as [ls''|].
  - intros [= <-]. rewrite !filter_cons.
    destruct (decide (l' = x)); simpl; rewrite (IH ls'') by done; lia.
  - destruct (decide (x = l)) as [->|]; [|done]. intros [= <-].
    rewrite filter_cons. destruct (decide (l' = l)); simpl; lia.
Qed.

Lemma remove_last_None l ls :
  remove_last l ls = None <-> l ∉ ls.
Proof.
  induction ls as [|x ls IH]; simpl.
  - split; [intros _; apply not_elem_of_nil|done].
  - rewrite not_elem_of_cons. destruct (remove_last l ls).
    + split; [done|]. intros [_ H]. by apply IH in H.
    + destruct (decide (x = l)) as [->|].
      * split; [done|]. by intros [H _].
      * split; [|done]. intros _. split; [done|]. by apply IH.
Qed.

(** *** What the promise machinery leaves alone *)

(** [s'] differs from [s] at most in its promises and in the listeners
    registered for ['message']. *)
Definition quiet (s s' : State) : Prop :=
  runtime s' = runtime s /\ isOpen s' = isOpen s
  /\ queuePollTimer s' = queuePollTimer s /\ clock s' = clock s
  /\ timers s' = timers s /\ handles s' = handles s
  /\ emitted s' = emitted s
  /\ forall ev, ev <> "message" -> registered ev s' = registered ev s.

Lemma quiet_refl s : quiet s s.
Proof. by repeat split. Qed.

Lemma quiet_trans s1 s2 s3 : quiet s1 s2 -> quiet s2 s3 -> quiet s1 s3.
Proof.
  intros (?&?&?&?&?&?&?&Hl1) (?&?&?&?&?&?&?&Hl2).
  repeat split; try congruence.
  intros ev Hev. rewrite Hl2, Hl1; done.
Qed.

Lemma settle_quiet p o s : quiet s (settle p o s).
Proof.
  unfold settle. destruct (promises s !! p) as [w|]; [|apply quiet_refl].
  destruct (settled w); [apply quiet_refl|]. by repeat split.
Qed.

Lemma removeListener_message s l :
  removeListener "message" l s
  = match remove_last l (registered "message" s) with
    | Some ls =>
        set_listeners
          (match ls with
           | [] => delete "message" (listeners s)
           | _ => <["message" := ls]> (listeners s)
           end) s
    | None => s
    end.
Proof.
  unfold removeListener, removeListener_hook.
  destruct (remove_last l (registered "message" s)) as [ls|]; [|done].
  simpl. by destruct (queuePollTimer s).
Qed.

Lemma removeListener_message_quiet l s :
  quiet s (removeListener "message" l s).
Proof.
  rewrite removeListener_message.
  destruct (remove_last l (registered "message" s)) as [ls|];
    [|apply quiet_refl].
  repeat split; try done.
  intros ev Hev. rewrite registered_removed.
  by destruct (decide ("message" = ev)).
Qed.

Lemma invoke_quiet l e s : quiet s (invoke l e s).
Proof.
  unfold invoke. destruct l as [id|p]; [apply quiet_refl|].
  destruct e; try apply quiet_refl.
  destruct (promises s !! p) as [w|]; [|apply quiet_refl].
  destruct (decide _); [|apply quiet_refl].
  eapply quiet_trans; [apply settle_quiet|apply removeListener_message_quiet].
Qed.

Lemma expire_quiet p s : quiet s (expire p s).
Proof.
  unfold expire. destruct (promises s !! p) as [w|]; [|apply quiet_refl].
  eapply quiet_trans; [apply settle_quiet|apply removeListener_message_quiet].
Qed.

Lemma invoke_all_quiet e ls s :
  quiet s (fold_left (fun s l => invoke l e s) ls s).
Proof.
  revert s. induction ls as [|l ls IH]; intros s; simpl;
    [apply quiet_refl|].
  eapply quiet_trans; [apply invoke_quiet|apply IH].
Qed.

(** An emission is logged; the rest is the listeners' doing. *)
Lemma emit_spec e s :
  exists s', quiet (set_emitted (emitted s ++ [e]) s) s'
             /\ emit e s = s'.
Proof. eexists. split; [apply invoke_all_quiet|done]. Qed.

Lemma emit_emitted e s : emitted (emit e s) = emitted s ++ [e].
Proof.
  destruct (emit_spec e s) as (s' & (_&_&_&_&_&_&H&_) & ->). by rewrite H.
Qed.

Lemma emit_all_emitted es s :
  emitted (fold_left (fun s e => emit e s) es s) = emitted s ++ es.
Proof.
  revert s. induction es as [|e es IH]; intros s; simpl.
  - by rewrite app_nil_r.
  - by rewrite IH, emit_emitted, <- app_assoc.
Qed.

(** The subscribers of an event see exactly the fan-out. *)
Lemma receive_emitted m s :
  emitted (receive m s) = emitted s ++ on_connection_message m.
Proof. apply emit_all_emitted. Qed.

(** *** Timers *)

(** Handles are handed out once. *)
Definition timers_wf (s : State) : Prop :=
  NoDup (handle <$> timers s)
  /\ Forall (fun t => (handle t < handles s)%nat) (timers s).

Lemma quiet_timers_wf s s' : quiet s s' -> timers_wf s -> timers_wf s'.
Proof. intros (_&_&_&_&Ht&Hh&_) H. unfold timers_wf. by rewrite Ht, Hh. Qed.

Definition without (h : nat) (ts : list Timer) : list Timer :=
  List.filter (fun t => negb (handle t =? h)%nat) ts.

Lemma elem_of_without t h ts :
  t ∈ without h ts <-> t ∈ ts /\ handle t <> h.
Proof.
  unfold without. rewrite !list_elem_of_In, filter_In, negb_true_iff.
  by rewrite Nat.eqb_neq.
Qed.

Lemma without_cons h t ts :
  without h (t :: ts)
  = if (handle t =? h)%nat then without h ts else t :: without h ts.
Proof. unfold without. simpl. by destruct (handle t =? h)%nat. Qed.

Lemma without_handles h ts :
  handle <$> without h ts = filter (fun x => x <> h) (handle <$> ts).
Proof.
  induction ts as [|t ts IH]; [done|].
  rewrite without_cons, fmap_cons, filter_cons.
  destruct (Nat.eqb_spec (handle t) h);
    destruct (decide (handle t <> h)); try done.
  by rewrite fmap_cons, IH.
Qed.

Lemma without_NoDup h ts :
  NoDup (handle <$> ts) -> NoDup (handle <$> without h ts).
Proof. intros H. rewrite without_handles. by apply NoDup_filter. Qed.

Lemma without_absent h ts : h ∉ handle <$> without h ts.
Proof.
  rewrite without_handles, list_elem_of_filter. by intros [? _].
Qed.

Lemma setTimer_wf t s :
  handle t = handles s ->
  timers_wf s ->
  timers_wf (set_handles (S (handles s)) (set_timers (timers s ++ [t]) s)).
Proof.
  intros Ht [Hnd Hlt]. split; simpl.
  - rewrite fmap_app. apply NoDup_app. split; [done|]. split.
    + intros h Hh. simpl. rewrite list_elem_of_singleton. intros ->.
      apply list_elem_of_fmap in Hh as (t' & Heq & Hin).
      rewrite Forall_forall in Hlt. specialize (Hlt t' Hin). lia.
    + simpl. apply NoDup_singleton.
  - apply Forall_app. split.
    + eapply Forall_impl; [exact Hlt|]. simpl. intros ??. lia.
    + apply Forall_singleton. lia.
Qed.

Lemma clearInterval_wf h s : timers_wf s -> timers_wf (clearInterval h s).
Proof.
  intros [Hnd Hlt]. split; simpl.
  - by apply without_NoDup.
  - rewrite Forall_forall in *. intros t Ht.
    apply list_elem_of_In, filter_In in Ht as [Ht _].
    apply Hlt. by apply list_elem_of_In.
Qed.

(** *** The polling timer follows the subscribers *)

Definition poll_timer (h : nat) (d : Z) : Timer :=
  {| handle := h; due := d; every := Some 5000; callback := PollQueue |}.

Definition polls (ts : list Timer) : list Timer :=
  List.filter (fun t => bool_decide (callback t = PollQueue)) ts.

(** At rest: no subscriber and no polling timer, or subscribers and one
    polling timer, due within the next five seconds. *)
Definition polling_inv (s : State) : Prop :=
  timers_wf s
  /\ match queuePollTimer s with
     | None => poll_timers s = [] /\ subscribers s = 0%nat
     | Some h =>
         (0 < subscribers s)%nat
         /\ exists d, poll_timers s = [poll_timer h d]
                      /\ clock s < d <= clock s + 5000
     end.

Lemma polls_app ts ts' : polls (ts ++ ts') = polls ts ++ polls ts'.
Proof. apply List.filter_app. Qed.

Lemma polls_cons t ts :
  polls (t :: ts)
  = if bool_decide (callback t = PollQueue) then t :: polls ts
    else polls ts.
Proof. done. Qed.

Lemma polls_without h ts : polls (without h ts) = without h (polls ts).
Proof.
  induction ts as [|t ts IH]; [done|].
  rewrite without_cons, polls_cons.
  destruct (handle t =? h)%nat eqn:Hh;
    destruct (bool_decide (callback t = PollQueue)) eqn:Hc;
    rewrite ?without_cons, ?polls_cons, ?Hh, ?Hc, ?IH; done.
Qed.

Lemma elem_of_polls t ts :
  t ∈ polls ts <-> t ∈ ts /\ callback t = PollQueue.
Proof.
  unfold polls. rewrite !list_elem_of_In, filter_In.
  by rewrite bool_decide_eq_true.
Qed.

Lemma quiet_polling_inv s s' : quiet s s' -> polling_inv s -> polling_inv s'.
Proof.
  intros Hq [Hwf H]. split; [by eapply quiet_timers_wf|].
  destruct Hq as (_&_&Hp&Hc&Ht&_&_&Hl).
  unfold poll_timers, subscribers, listenerCount in *.
  rewrite Hp, Hc, Ht, !Hl by done. exact H.
Qed.

Definition subscribers_of (m : gmap string (list Listener)) : nat :=
  (length (default [] (m !! "nowPlaying"))
   + length (default [] (m !! "supportedCommands")))%nat.

Lemma subscribers_insert ev ls (m : gmap string (list Listener)) :
  subscribers_of (<[ev := ls]> m)
  = if polled ev
    then (subscribers_of m + length ls - length (default [] (m !! ev)))%nat
    else subscribers_of m.
Proof.
  unfold subscribers_of. rewrite !lookup_insert. unfold polled.
  destruct (String.eqb_spec ev "nowPlaying") as [H1|H1];
    destruct (String.eqb_spec ev "supportedCommands") as [H2|H2];
    repeat case_decide; simplify_eq; simpl; lia.
Qed.

Lemma subscribers_removed ev ls (m : gmap string (list Listener)) :
  subscribers_of
    (match ls with [] => delete ev m | _ => <[ev := ls]> m end)
  = if polled ev
    then (subscribers_of m + length ls - length (default [] (m !! ev)))%nat
    else subscribers_of m.
Proof.
  destruct ls as [|l ls]; [|apply subscribers_insert].
  unfold subscribers_of. rewrite !lookup_delete. unfold polled.
  destruct (String.eqb_spec ev "nowPlaying") as [H1|H1];
    destruct (String.eqb_spec ev "supportedCommands") as [H2|H2];
    repeat case_decide; simplify_eq; simpl; lia.
Qed.

Ltac counts :=
  unfold subscribers, listenerCount, registered, subscribers_of in *.

Lemma on_polling_inv ev l s : polling_inv s -> polling_inv (on ev l s).
Proof.
  intros [Hwf H]. unfold on, newListener_hook.
  destruct (queuePollTimer s) as [h|] eqn:Hq.
  - split; [done|]. simpl. rewrite Hq.
    destruct H as (Hsub & d & Hd & Hclock).
    split; [|by exists d].
    change (0 < subscribers_of
              (<[ev := registered ev s ++ [l]]> (listeners s)))%nat.
    rewrite subscribers_insert. destruct (polled ev); [|done].
    rewrite length_app. simpl. counts. lia.
  - destruct H as [Hnone Hsub].
    destruct (polled ev) eqn:Hev.
    + split; [by apply setTimer_wf|]. simpl.
      split.
      * change (0 < subscribers_of
                  (<[ev := registered ev s ++ [l]]> (listeners s)))%nat.
        rewrite subscribers_insert, Hev, length_app. simpl. counts. lia.
      * exists (clock s + 5000). split; [|lia].
        change (polls (timers s ++ [poll_timer (handles s) (clock s + 5000)])
                = [poll_timer (handles s) (clock s + 5000)]).
        rewrite polls_app.
        change (polls (timers s)) with (poll_timers s). by rewrite Hnone.
    + split; [done|]. simpl. rewrite Hq. split; [done|].
      change (subscribers_of
                (<[ev := registered ev s ++ [l]]> (listeners s)) = 0%nat).
      by rewrite subscribers_insert, Hev.
Qed.

Lemma removeListener_polling_inv ev l s :
  polling_inv s -> polling_inv (removeListener ev l s).
Proof.
  intros [Hwf H]. unfold removeListener.
  destruct (remove_last l (registered ev s)) as [ls|] eqn:Hrem; [|done].
  apply remove_last_length in Hrem.
  set (m := match ls with
            | [] => delete ev (listeners s)
            | _ => <[ev := ls]> (listeners s)
            end).
  assert (Hm : subscribers_of m
               = if polled ev then (subscribers s - 1)%nat
                 else subscribers s).
  { subst m. rewrite subscribers_removed.
    change (subscribers_of (listeners s)) with (subscribers s).
    change (default [] (listeners s !! ev)) with (registered ev s).
    destruct (polled ev) eqn:Hev; [|done].
    assert (length (registered ev s) <= subscribers s)%nat; [|lia].
    apply polled_spec in Hev as [->| ->];
      unfold subscribers, listenerCount; lia. }
  unfold removeListener_hook. simpl.
  destruct (queuePollTimer s) as [h|] eqn:Hq.
  - destruct H as (Hsub & d & Hd & Hclock).
    destruct (polled ev) eqn:Hev.
    + change (listenerCount "nowPlaying" (set_listeners m s)
              + listenerCount "supportedCommands" (set_listeners m s))%nat
        with (subscribers_of m).
      destruct (Nat.eqb_spec (subscribers_of m) 0) as [Hz|Hnz].
      * split; [by apply clearInterval_wf|]. simpl. split; [|done].
        change (polls (without h (timers s)) = []).
        rewrite polls_without.
        change (polls (timers s)) with (poll_timers s). rewrite Hd.
        rewrite without_cons. simpl. by rewrite Nat.eqb_refl.
      * split; [done|]. simpl. rewrite Hq. split; [|by exists d].
        change (0 < subscribers_of m)%nat. lia.
    + split; [done|]. simpl. rewrite Hq. split; [|by exists d].
      change (0 < subscribers_of m)%nat. by rewrite Hm.
  - destruct H as [Hnone Hsub]. split; [done|]. simpl. rewrite Hq.
    split; [done|]. change (subscribers_of m = 0%nat).
    rewrite Hm. destruct (polled ev); lia.
Qed.

Lemma messageOfType_polling_inv type timeout s :
  polling_inv s -> polling_inv (messageOfType type timeout s).2.
Proof.
  intros [Hwf H]. unfold messageOfType, setTimeout. simpl.
  apply on_polling_inv. split.
  - by apply (setTimer_wf _ (set_promises _ s)).
  - simpl.
    assert (Hp : forall t,
               callback t <> PollQueue ->
               polls (timers s ++ [t]) = poll_timers s).
    { intros t Ht. rewrite polls_app, polls_cons.
      rewrite bool_decide_eq_false_2 by done. apply app_nil_r. }
    unfold poll_timers at 1 2. simpl.
    change (List.filter _ (timers s ++ [?t])) with (polls (timers s ++ [t])).
    rewrite Hp by done. exact H.
Qed.

Lemma emit_polling_inv e s : polling_inv s -> polling_inv (emit e s).
Proof.
  intros H. destruct (emit_spec e s) as (s' & Hq & ->).
  eapply quiet_polling_inv; [exact Hq|]. exact H.
Qed.

Lemma receive_polling_inv m s : polling_inv s -> polling_inv (receive m s).
Proof.
  unfold receive. generalize (on_connection_message m). intros es.
  revert s. induction es as [|e es IH]; intros s H; simpl; [done|].
  apply IH. by apply emit_polling_inv.
Qed.

(** *** A tick *)

(** The timer an interval becomes once it has fired. *)
Definition resched (t : Timer) : list Timer :=
  match every t with
  | Some ms => [{| handle := handle t; due := due t + ms;
                   every := every t; callback := callback t |}]
  | None => []
  end.

Lemma pending_spec h s : pending h s = true <-> h ∈ handle <$> timers s.
Proof.
  unfold pending. rewrite existsb_exists, list_elem_of_fmap.
  split.
  - intros (t & Hin & Heq). exists t. apply Nat.eqb_eq in Heq.
    split; [done|]. by apply list_elem_of_In.
  - intros (t & Heq & Hin). exists t. split; [by apply list_elem_of_In|].
    by apply Nat.eqb_eq.
Qed.

Lemma fire_pending t s :
  t ∈ timers s ->
  fire t s
  = run_callback (callback t)
      (set_timers (without (handle t) (timers s) ++ resched t) s).
Proof.
  intros Hin. unfold fire.
  assert (Hp : pending (handle t) s = true).
  { apply pending_spec, list_elem_of_fmap. by exists t. }
  rewrite Hp. unfold resched. destruct (every t); [done|].
  by rewrite app_nil_r.
Qed.

Lemma timer_by_handle ts t t' :
  NoDup (handle <$> ts) -> t ∈ ts -> t' ∈ ts -> handle t = handle t' ->
  t = t'.
Proof.
  induction ts as [|x ts IH]; intros Hnd Ht Ht' Heq.
  - by apply elem_of_nil in Ht.
  - rewrite fmap_cons in Hnd. apply NoDup_cons in Hnd as [Hx Hnd].
    apply elem_of_cons in Ht as [->|Ht];
      apply elem_of_cons in Ht' as [->|Ht']; try done.
    + destruct Hx. rewrite Heq. apply list_elem_of_fmap. by exists t'.
    + destruct Hx. rewrite <- Heq. apply list_elem_of_fmap. by exists t.
    + by apply IH.
Qed.

Lemma fired_wf t s :
  timers_wf s -> t ∈ timers s ->
  timers_wf (set_timers (without (handle t) (timers s) ++ resched t) s).
Proof.
  intros [Hnd Hlt] Hin. split; simpl.
  - rewrite fmap_app. apply NoDup_app. split; [by apply without_NoDup|].
    split.
    + intros h Hh Hh'. unfold resched in Hh'.
      destruct (every t); simpl in Hh'; [|by apply elem_of_nil in Hh'].
      apply list_elem_of_singleton in Hh' as ->.
      by apply without_absent in Hh.
    + unfold resched. destruct (every t); simpl;
        [apply NoDup_singleton|apply NoDup_nil_2].
  - rewrite Forall_forall in *. intros u Hu.
    apply elem_of_app in Hu as [Hu|Hu].
    + apply elem_of_without in Hu as [Hu _]. by apply Hlt.
    + unfold resched in Hu.
      destruct (every t); [|by apply elem_of_nil in Hu].
      apply list_elem_of_singleton in Hu as ->. simpl. by apply Hlt.
Qed.

(** The polling closure touches the runtime only. *)
Definition poll_runtime (open : bool) (r : Runtime) : Runtime :=
  if open then
    ((Async.alloc poll_options
        ≫= fun options => AppleTV.requestPlaybackQueueWithWait options false)
       r).1
  else r.

Lemma poll_shape s : poll s = set_runtime (poll_runtime (isOpen s) (runtime s)) s.
Proof. unfold poll, poll_runtime. destruct (isOpen s); [done|by destruct s]. Qed.

(** Mid-tick: [todo] are the due timers still to fire, and [d0] is when
    the polling timer was due as the tick began. *)
Definition polling_mid (d0 : Z) (todo : list Timer) (s : State) : Prop :=
  timers_wf s
  /\ NoDup (handle <$> todo)
  /\ (forall t, t ∈ todo -> t ∈ timers s /\ due t <= clock s)
  /\ match queuePollTimer s with
     | None => poll_timers s = [] /\ subscribers s = 0%nat
     | Some h =>
         (0 < subscribers s)%nat
         /\ exists d, poll_timers s = [poll_timer h d]
                      /\ clock s <= d <= clock s + 5000
                      /\ (d = clock s -> poll_timer h d ∈ todo)
                      /\ (d = d0 \/ d = d0 + 5000 /\ d0 = clock s)
     end.

Lemma quiet_polling_mid d0 todo s s' :
  quiet s s' -> polling_mid d0 todo s -> polling_mid d0 todo s'.
Proof.
  intros Hq (Hwf & Hnd & Hin & H).
  split; [by eapply quiet_timers_wf|].
  destruct Hq as (_&_&Hp&Hc&Ht&_&_&Hl).
  unfold polling_mid, poll_timers, subscribers, listenerCount in *.
  rewrite Hp, Hc, Ht, !Hl by done. done.
Qed.

Lemma run_callback_polling_mid d0 cb todo s :
  polling_mid d0 todo s -> polling_mid d0 todo (run_callback cb s).
Proof.
  destruct cb as [|p]; simpl.
  - rewrite poll_shape. by intros (Hwf & Hnd & Hin & H).
  - apply quiet_polling_mid, expire_quiet.
Qed.

Lemma fire_polling_mid d0 t todo s :
  polling_mid d0 (t :: todo) s -> polling_mid d0 todo (fire t s).
Proof.
  intros (Hwf & Hnd & Hin & H).
  destruct (Hin t) as [Ht Hdue]; [apply list_elem_of_here|].
  rewrite fire_pending by done. apply run_callback_polling_mid.
  rewrite fmap_cons in Hnd. apply NoDup_cons in Hnd as [Hfresh Hnd].
  assert (Hother : forall u, u ∈ todo -> handle u <> handle t).
  { intros u Hu Heq. apply Hfresh. rewrite <- Heq.
    apply list_elem_of_fmap. by exists u. }
  split; [by apply fired_wf|]. split; [done|]. split.
  { intros u Hu. destruct (Hin u) as [Hu' Hd]; [by apply list_elem_of_further|].
    split; [|done]. simpl. apply elem_of_app. left.
    apply elem_of_without. split; [done|]. by apply Hother. }
  set (ts' := without (handle t) (timers s) ++ resched t).
  assert (Hpolls : poll_timers (set_timers ts' s)
                   = without (handle t) (poll_timers s) ++ polls (resched t)).
  { change (polls ts' = without (handle t) (polls (timers s))
                          ++ polls (resched t)).
    subst ts'. by rewrite polls_app, polls_without. }
  rewrite Hpolls.
  change (queuePollTimer (set_timers ts' s)) with (queuePollTimer s).
  change (subscribers (set_timers ts' s)) with (subscribers s).
  change (clock (set_timers ts' s)) with (clock s).
  destruct (queuePollTimer s) as [h|].
  - destruct H as (Hsub & d & Hd & Hclock & Hdue_in & Hd0).
    split; [done|].
    assert (Hpt : poll_timer h d ∈ timers s).
    { apply (elem_of_polls (poll_timer h d) (timers s)).
      change (polls (timers s)) with (poll_timers s). rewrite Hd.
      apply list_elem_of_here. }
    destruct (decide (handle t = h)) as [Hh|Hh].
    + assert (t = poll_timer h d) as ->
        by (apply (timer_by_handle (timers s)); try done; apply Hwf).
      simpl in Hdue. exists (d + 5000). rewrite Hd. simpl.
      rewrite Nat.eqb_refl. simpl. split; [done|]. split; [lia|].
      split; lia.
    + exists d. rewrite Hd, without_cons. simpl.
      destruct (Nat.eqb_spec h (handle t)) as [Heq|_]; [by destruct Hh|].
      assert (Hnp : polls (resched t) = []).
      { unfold resched. destruct (every t); [|done].
        rewrite polls_cons. simpl.
        rewrite bool_decide_eq_false_2; [done|]. intros Hcb.
        assert (Hin' : t ∈ poll_timers s) by by apply elem_of_polls.
        rewrite Hd in Hin'. apply list_elem_of_singleton in Hin' as ->.
        by destruct Hh. }
      rewrite Hnp. split; [done|]. split; [done|]. split; [|done].
      intros Hnow. apply Hdue_in in Hnow.
      apply elem_of_cons in Hnow as [Heq|]; [|done].
      destruct Hh. by rewrite <- Heq.
  - destruct H as [Hnone Hsub]. split; [|done].
    rewrite Hnone. simpl. unfold resched. destruct (every t); [|done].
    rewrite polls_cons. simpl.
    rewrite bool_decide_eq_false_2; [done|]. intros Hcb.
    assert (Hin' : t ∈ poll_timers s) by by apply elem_of_polls.
    rewrite Hnone in Hin'. by apply elem_of_nil in Hin'.
Qed.

Definition due_now (c : Z) (ts : list Timer) : list Timer :=
  List.filter (fun t => due t <=? c) ts.

Lemma elem_of_due_now t c ts : t ∈ due_now c ts <-> t ∈ ts /\ due t <= c.
Proof.
  unfold due_now. rewrite !list_elem_of_In, filter_In.
  by rewrite Z.leb_le.
Qed.

Lemma due_now_NoDup c ts :
  NoDup (handle <$> ts) -> NoDup (handle <$> due_now c ts).
Proof.
  induction ts as [|t ts IH]; [done|]. rewrite fmap_cons.
  intros [Hfresh Hnd]%NoDup_cons. unfold due_now in *. simpl.
  destruct (due t <=? c); [|by apply IH].
  rewrite fmap_cons. apply NoDup_cons. split; [|by apply IH].
  intros Hin. apply Hfresh.
  apply list_elem_of_fmap in Hin as (u & Heq & Hu).
  apply list_elem_of_fmap. exists u. split; [done|].
  apply list_elem_of_In, filter_In in Hu as [Hu _].
  by apply list_elem_of_In.
Qed.

Lemma tick_shape s :
  tick s
  = fold_left (fun s t => fire t s) (due_now (clock s + 1) (timers s))
      (set_clock (clock s + 1) s).
Proof. done. Qed.

(** Entering a tick. *)
Lemma polling_mid_enter s :
  polling_inv s ->
  polling_mid (default 0 (due <$> head (poll_timers s)))
    (due_now (clock s + 1) (timers s)) (set_clock (clock s + 1) s).
Proof.
  intros [Hwf H]. split; [done|].
  split; [apply due_now_NoDup, Hwf|]. split.
  { intros t Ht. by apply elem_of_due_now in Ht. }
  simpl. destruct (queuePollTimer s) as [h|]; [|done].
  destruct H as (Hsub & d & Hd & Hclock). split; [done|].
  exists d. split; [done|]. split; [lia|].
  split; [|left; by rewrite Hd]. intros Hnow.
  apply elem_of_due_now. split; [|simpl; lia].
  apply (elem_of_polls (poll_timer h d) (timers s)).
  change (polls (timers s)) with (poll_timers s). rewrite Hd.
  apply list_elem_of_here.
Qed.

(** Leaving it. *)
Lemma polling_mid_leave d0 s : polling_mid d0 [] s -> polling_inv s.
Proof.
  intros (Hwf & _ & _ & H). split; [done|].
  destruct (queuePollTimer s) as [h|]; [|done].
  destruct H as (Hsub & d & Hd & Hclock & Hnow & _). split; [done|].
  exists d. split; [done|].
  destruct (decide (d = clock s)) as [Heq|]; [|lia].
  apply Hnow in Heq. by apply elem_of_nil in Heq.
Qed.

Lemma fire_all_polling_mid d0 todo s :
  polling_mid d0 todo s ->
  polling_mid d0 [] (fold_left (fun s t => fire t s) todo s).
Proof.
  revert s. induction todo as [|t todo IH]; intros s H; simpl; [done|].
  by apply IH, fire_polling_mid.
Qed.

Lemma tick_polling_inv s : polling_inv s -> polling_inv (tick s).
Proof.
  intros H. rewrite tick_shape.
  by eapply polling_mid_leave, fire_all_polling_mid, polling_mid_enter.
Qed.

Lemma init_polling_inv r : polling_inv (init r).
Proof.
  split; [split; simpl; [apply NoDup_nil_2|apply Forall_nil_2]|].
  by simpl.
Qed.

Lemma step_polling_inv s e : polling_inv s -> polling_inv (step s e).
Proof.
  destruct e; simpl.
  - apply on_polling_inv.
  - apply removeListener_polling_inv.
  - apply messageOfType_polling_inv.
  - apply receive_polling_inv.
  - apply tick_polling_inv.
  - by intros [Hwf H].
Qed.

Lemma run_polling_inv es s : polling_inv s -> polling_inv (run s es).
Proof.
  revert s. induction es as [|e es IH]; intros s H; simpl; [done|].
  by apply IH, step_polling_inv.
Qed.

Lemma reachable_polling_inv s : reachable s -> polling_inv s.
Proof. intros (r & es & ->). apply run_polling_inv, init_polling_inv. Qed.

(** *** What a tick sends *)

(** The body of a polling request, [u] being the identifier drawn. *)
Definition poll_body (u : string) : obj :=
  list_to_map [
    ("location", VNum 0);
    ("length", VNum 100);
    ("artworkWidth", VNum (-1));
    ("artworkHeight", VNum 368);
    ("requestID", VStr u)
  ].

Lemma request_params_poll_options u :
  request_params u poll_options = poll_body u.
Proof.
  unfold request_params.
  change (truthy (get poll_options "artworkSize")) with true. cbv iota.
  change (get poll_options "artworkSize")
    with (VSize {| width := -1; height := 368 |}).
  change (member _ "height") with (VNum 368).
  change (member _ "width") with (VNum (-1)).
  apply map_eq. intros k. unfold poll_body, poll_options. simpl.
  repeat first
    [ rewrite lookup_delete | rewrite lookup_insert
    | rewrite lookup_empty ].
  repeat case_decide; by simplify_eq.
Qed.

Lemma poll_runtime_wire r :
  wire (poll_runtime true r)
  = wire r
    ++ [Sent (playback_request (poll_body (rand r (uuid_calls r))) false)]
  /\ uuid_calls (poll_runtime true r) = S (uuid_calls r)
  /\ rand (poll_runtime true r) = rand r.
Proof.
  unfold poll_runtime.
  erewrite bind_run; [|reflexivity].
  set (l := fresh (dom (heap r))).
  edestruct (requestPlaybackQueueWithWait_run l false) as (out & ->).
  { simpl. apply lookup_insert_eq. }
  simpl. by rewrite request_params_poll_options.
Qed.

Lemma on_runtime ev l s :
  runtime (on ev l s) = runtime s /\ isOpen (on ev l s) = isOpen s.
Proof.
  unfold on, newListener_hook.
  by destruct (queuePollTimer s), (polled ev).
Qed.

Lemma removeListener_runtime ev l s :
  runtime (removeListener ev l s) = runtime s
  /\ isOpen (removeListener ev l s) = isOpen s.
Proof.
  unfold removeListener, removeListener_hook.
  destruct (remove_last l (registered ev s)) as [ls|]; [|done]. simpl.
  destruct (queuePollTimer s); [|done].
  destruct (polled ev); [|done]. by destruct (_ =? 0)%nat.
Qed.

Lemma receive_runtime m s :
  runtime (receive m s) = runtime s /\ isOpen (receive m s) = isOpen s.
Proof.
  unfold receive. generalize (on_connection_message m). intros es.
  revert s. induction es as [|e es IH]; intros s; simpl; [done|].
  destruct (IH (emit e s)) as [-> ->].
  destruct (emit_spec e s) as (s' & (Hr & Ho & _) & ->).
  by rewrite Hr, Ho.
Qed.

Lemma run_callback_runtime cb s :
  runtime (run_callback cb s)
  = match cb with
    | PollQueue => poll_runtime (isOpen s) (runtime s)
    | Expire _ => runtime s
    end
  /\ isOpen (run_callback cb s) = isOpen s.
Proof.
  destruct cb as [|p]; simpl.
  - by rewrite poll_shape.
  - by destruct (expire_quiet p s) as (-> & -> & _).
Qed.

(** Of the due timers, at most the polling timer touches the runtime. *)
Lemma fire_all_runtime d0 todo s :
  polling_mid d0 todo s ->
  let s' := fold_left (fun s t => fire t s) todo s in
  runtime s'
  = match polls todo with
    | [] => runtime s
    | _ => poll_runtime (isOpen s) (runtime s)
    end
  /\ isOpen s' = isOpen s.
Proof.
  revert s. induction todo as [|t todo IH]; intros s H; [done|].
  cbn [fold_left].
  pose proof (fire_polling_mid _ _ _ _ H) as H'.
  destruct (IH _ H') as [Hrt Hopen]. rewrite Hrt, Hopen. clear Hrt Hopen.
  destruct H as (Hwf & Hnd & Hin & H).
  destruct (Hin t) as [Ht _]; [apply list_elem_of_here|].
  rewrite fire_pending by done.
  destruct (run_callback_runtime (callback t)
    (set_timers (without (handle t) (timers s) ++ resched t) s))
    as [-> ->].
  change (isOpen (set_timers ?x s)) with (isOpen s).
  change (runtime (set_timers ?x s)) with (runtime s).
  rewrite polls_cons.
  destruct (callback t) as [|p] eqn:Hcb.
  - rewrite bool_decide_eq_true_2 by done.
    destruct (polls todo) as [|u us] eqn:Hus; [done|]. exfalso.
    assert (Hu : u ∈ polls todo) by (rewrite Hus; apply list_elem_of_here).
    apply elem_of_polls in Hu as [Hu Hucb].
    destruct H' as (Hwf' & _ & Hin' & H').
    destruct (Hin' u Hu) as [Hu' _].
    rewrite fire_pending in Hu' by done.
    assert (Htimers : forall cb s0, timers (run_callback cb s0) = timers s0).
    { intros [|q] s0; simpl; [by rewrite poll_shape|].
      by destruct (expire_quiet q s0) as (_&_&_&_&->&_). }
    rewrite Htimers in Hu'. simpl in Hu'.
    rewrite fmap_cons in Hnd. apply NoDup_cons in Hnd as [Hfresh _].
    apply elem_of_app in Hu' as [Hu'|Hu'].
    + (* an unfired polling timer besides [t]: both are the one of [s] *)
      apply elem_of_without in Hu' as [Hu' Hne].
      assert (Ht2 : t ∈ poll_timers s) by by apply elem_of_polls.
      assert (Hu2 : u ∈ poll_timers s) by by apply elem_of_polls.
      destruct (queuePollTimer s) as [h|].
      * destruct H as (_ & d & Hd & _). rewrite Hd in Ht2, Hu2.
        apply list_elem_of_singleton in Ht2, Hu2. by subst.
      * destruct H as [Hnone _]. rewrite Hnone in Ht2.
        by apply elem_of_nil in Ht2.
    + unfold resched in Hu'.
      destruct (every t); [|by apply elem_of_nil in Hu'].
      apply list_elem_of_singleton in Hu' as ->. simpl in *.
      apply Hfresh, list_elem_of_fmap. eexists. split; [|exact Hu]. done.
  - rewrite bool_decide_eq_false_2 by done. done.
Qed.

Lemma polls_due_now c ts : polls (due_now c ts) = due_now c (polls ts).
Proof.
  induction ts as [|t ts IH]; [done|].
  unfold polls, due_now in *. simpl.
  destruct (due t <=? c) eqn:Hd;
    destruct (bool_decide (callback t = PollQueue)) eqn:Hc;
    simpl; rewrite ?Hd, ?Hc, ?IH; done.
Qed.

(** A tick runs the polling closure exactly when the polling timer comes
    due, and nothing else reaches the runtime. *)
Lemma tick_runtime s :
  polling_inv s ->
  runtime (tick s)
  = match poll_timers s with
    | t :: _ =>
        if due t =? clock s + 1
        then poll_runtime (isOpen s) (runtime s) else runtime s
    | [] => runtime s
    end
  /\ isOpen (tick s) = isOpen s.
Proof.
  intros H. rewrite tick_shape.
  destruct (fire_all_runtime _ _ _ (polling_mid_enter s H)) as [-> ->].
  split; [|done]. simpl. rewrite polls_due_now.
  change (polls (timers s)) with (poll_timers s).
  destruct H as [_ H]. destruct (queuePollTimer s) as [h|].
  - destruct H as (_ & d & -> & Hclock). unfold due_now. simpl.
    destruct (Z.leb_spec d (clock s + 1)), (Z.eqb_spec d (clock s + 1));
      try done; lia.
  - destruct H as [-> _]. done.
Qed.

(** What no timer touches. *)
Lemma run_callback_frame cb s :
  clock (run_callback cb s) = clock s
  /\ queuePollTimer (run_callback cb s) = queuePollTimer s
  /\ subscribers (run_callback cb s) = subscribers s
  /\ timers (run_callback cb s) = timers s.
Proof.
  destruct cb as [|p]; simpl; [by rewrite poll_shape|].
  destruct (expire_quiet p s) as (_&_&Hq&Hc&Ht&_&_&Hl).
  unfold subscribers, listenerCount. by rewrite Hq, Hc, Ht, !Hl.
Qed.

Lemma fire_frame t s :
  clock (fire t s) = clock s
  /\ queuePollTimer (fire t s) = queuePollTimer s
  /\ subscribers (fire t s) = subscribers s.
Proof.
  unfold fire. destruct (pending (handle t) s); [|done].
  match goal with
  | |- context [run_callback ?cb ?s0] =>
      destruct (run_callback_frame cb s0) as (-> & -> & -> & _)
  end.
  by destruct (every t).
Qed.

Lemma fire_all_frame todo s :
  let s' := fold_left (fun s t => fire t s) todo s in
  clock s' = clock s
  /\ queuePollTimer s' = queuePollTimer s
  /\ subscribers s' = subscribers s.
Proof.
  revert s. induction todo as [|t todo IH]; intros s; simpl; [done|].
  destruct (IH (fire t s)) as (-> & -> & ->). apply fire_frame.
Qed.

Lemma tick_frame s :
  clock (tick s) = clock s + 1
  /\ queuePollTimer (tick s) = queuePollTimer s
  /\ subscribers (tick s) = subscribers s.
Proof.
  rewrite tick_shape.
  by destruct (fire_all_frame (due_now (clock s + 1) (timers s))
                 (set_clock (clock s + 1) s)) as (-> & -> & ->).
Qed.

(** The polling timer across a tick: put back five seconds later if it
    came due, left alone otherwise. *)
Lemma tick_poll_timers s h d :
  polling_inv s ->
  poll_timers s = [poll_timer h d] ->
  poll_timers (tick s)
  = [poll_timer h (if d =? clock s + 1 then d + 5000 else d)].
Proof.
  intros H Hd.
  pose proof (fire_all_polling_mid _ _ _ (polling_mid_enter s H)) as Hmid.
  rewrite <- tick_shape in Hmid. rewrite Hd in Hmid. simpl in Hmid.
  destruct H as [_ H].
  destruct Hmid as (_ & _ & _ & Hmid).
  destruct (tick_frame s) as (Hclock & Hq & _).
  rewrite Hq, Hclock in Hmid.
  destruct (queuePollTimer s) as [h'|].
  - destruct H as (_ & d' & Hd' & _). rewrite Hd in Hd'. simplify_eq.
    destruct Hmid as (_ & d'' & -> & Hrange & Hnow & Hd0).
    do 2 f_equal.
    destruct (Z.eqb_spec d' (clock s + 1)) as [Heq|Hne].
    + destruct Hd0 as [->|[-> _]]; [|done].
      specialize (Hnow Heq). by apply elem_of_nil in Hnow.
    + by destruct Hd0 as [->|[-> ?]].
  - destruct H as [Hnone _]. by rewrite Hd in Hnone.
Qed.

(** *** How the subscriber count moves *)

Lemma quiet_subscribers s s' : quiet s s' -> subscribers s' = subscribers s.
Proof.
  intros (_&_&_&_&_&_&_&Hl). unfold subscribers, listenerCount.
  by rewrite !Hl.
Qed.

Lemma on_subscribers ev l s :
  subscribers (on ev l s)
  = (subscribers s + if polled ev then 1 else 0)%nat.
Proof.
  unfold on.
  assert (Hl : listeners (newListener_hook ev s) = listeners s).
  { unfold newListener_hook. by destruct (queuePollTimer s), (polled ev). }
  change (subscribers (set_listeners ?m ?s0)) with (subscribers_of m).
  unfold registered. rewrite Hl, subscribers_insert.
  destruct (polled ev) eqn:Hev; [|by rewrite Nat.add_0_r].
  rewrite length_app. simpl.
  assert (length (default [] (listeners s !! ev)) <= subscribers_of (listeners s))%nat.
  { apply polled_spec in Hev as [->| ->]; unfold subscribers_of; lia. }
  counts. lia.
Qed.

Lemma removeListener_subscribers ev l s :
  (subscribers (removeListener ev l s) <= subscribers s)%nat.
Proof.
  unfold removeListener.
  destruct (remove_last l (registered ev s)) as [ls|] eqn:Hrem; [|done].
  apply remove_last_length in Hrem.
  assert (Hh : forall s0, subscribers (removeListener_hook ev s0)
                          = subscribers s0).
  { intros s0. unfold removeListener_hook.
    destruct (queuePollTimer s0); [|done].
    destruct (polled ev); [|done]. by destruct (_ =? 0)%nat. }
  rewrite Hh.
  change (subscribers (set_listeners ?m ?s0)) with (subscribers_of m).
  rewrite subscribers_removed. counts. destruct (polled ev); lia.
Qed.

Lemma messageOfType_subscribers type timeout s :
  subscribers (messageOfType type timeout s).2 = subscribers s.
Proof.
  unfold messageOfType, setTimeout. simpl.
  rewrite on_subscribers. simpl. apply Nat.add_0_r.
Qed.

Lemma receive_subscribers m s : subscribers (receive m s) = subscribers s.
Proof.
  unfold receive. generalize (on_connection_message m). intros es.
  revert s. induction es as [|e es IH]; intros s; simpl; [done|].
  rewrite IH. destruct (emit_spec e s) as (s' & Hq & ->).
  by rewrite (quiet_subscribers _ _ Hq).
Qed.

(** The first subscriber starts the timer, due five seconds on. *)
Lemma on_starts_polling ev l s :
  polling_inv s -> subscribers s = 0%nat -> polled ev = true ->
  poll_timers (on ev l s) = [poll_timer (handles s) (clock s + 5000)]
  /\ clock (on ev l s) = clock s.
Proof.
  intros [_ H] Hsub Hev. unfold on, newListener_hook.
  destruct (queuePollTimer s) as [h|]; [destruct H as [H _]; lia|].
  destruct H as [Hnone _]. rewrite Hev. split; [|done].
  change (polls (timers s ++ [poll_timer (handles s) (clock s + 5000)])
          = [poll_timer (handles s) (clock s + 5000)]).
  rewrite polls_app. change (polls (timers s)) with (poll_timers s).
  by rewrite Hnone.
Qed.

(** *** What each step sends *)

(** The request the tick from [s] sends, if any. *)
Definition tick_request (s : State) : list SendCall :=
  match poll_timers s with
  | t :: _ =>
      if (due t =? clock s + 1) && isOpen s then
        [playback_request
           (poll_body (rand (runtime s) (uuid_calls (runtime s)))) false]
      else []
  | [] => []
  end.

Lemma sent_poll_runtime s r :
  sent (set_runtime (poll_runtime true r) s)
  = sent (set_runtime r s)
    ++ [playback_request (poll_body (rand r (uuid_calls r))) false].
Proof.
  unfold sent. cbn [runtime set_runtime].
  destruct (poll_runtime_wire r) as (-> & _). by rewrite omap_app.
Qed.

Lemma tick_sent s :
  polling_inv s ->
  sent (tick s) = sent s ++ tick_request s
  /\ uuid_calls (runtime (tick s))
     = (uuid_calls (runtime s) + length (tick_request s))%nat.
Proof.
  intros H. destruct (tick_runtime s H) as [Hrt _].
  unfold sent, tick_request. rewrite Hrt.
  destruct (poll_timers s) as [|t ts]; [by rewrite app_nil_r, Nat.add_0_r|].
  destruct (due t =? clock s + 1); [|by rewrite app_nil_r, Nat.add_0_r].
  destruct (isOpen s); [|by rewrite app_nil_r, Nat.add_0_r].
  destruct (poll_runtime_wire (runtime s)) as (Hw & Hu & _).
  rewrite Hw, Hu, omap_app. simpl. split; [done|lia].
Qed.

Lemma step_sent s e :
  polling_inv s ->
  sent (step s e)
  = sent s ++ match e with Tick => tick_request s | _ => [] end.
Proof.
  intros H. destruct e; simpl; rewrite ?app_nil_r.
  - unfold sent. by destruct (on_runtime event (Subscriber id) s) as [-> _].
  - unfold sent.
    by destruct (removeListener_runtime event (Subscriber id) s) as [-> _].
  - unfold sent, messageOfType, setTimeout.
    cbn [snd]. by rewrite (proj1 (on_runtime _ _ _)).
  - unfold sent. by destruct (receive_runtime message s) as [-> _].
  - by apply tick_sent.
  - done.
Qed.

End DeviceFrames.


(** With the connection open and the polling timer due at [d], [n]
    milliseconds of nothing but time passing send one request each time the
    timer comes due: the first at [d], then every 5000 ms. *)
Lemma polling_every_five_seconds (n : nat) (s : Device.State) (h : nat) (d : Z) :
  polling_inv s ->
  Device.poll_timers s = [poll_timer h d] ->
  Device.isOpen s = true ->
  length (Device.sent (Device.run s (repeat Device.Tick n)))
  = (length (Device.sent s)
     + Z.to_nat ((Z.of_nat n + 5000 - (d - Device.clock s)) / 5000))%nat.
Proof.
  revert s d. induction n as [|n IH]; intros s d Hinv Hd Hopen.
  - simpl. destruct Hinv as [_ Hinv].
    destruct (Device.queuePollTimer s) as [h'|].
    + destruct Hinv as (_ & d' & Hd' & Hclock). rewrite Hd in Hd'.
      injection Hd' as <- <-.
      rewrite Z.div_small by lia. simpl. lia.
    + destruct Hinv as [Hnone _]. by rewrite Hd in Hnone.
  - cbn [repeat Device.run fold_left Device.step].
    change (fold_left Device.step (repeat Device.Tick n) (Device.tick s))
      with (Device.run (Device.tick s) (repeat Device.Tick n)).
    pose proof (tick_polling_inv s Hinv) as Hinv'.
    pose proof (tick_poll_timers s h d Hinv Hd) as Hd'.
    destruct (tick_runtime s Hinv) as [_ Hopen'].
    destruct (tick_frame s) as (Hc & _).
    destruct (tick_sent s Hinv) as [Hsent _].
    rewrite (IH _ _ Hinv' Hd') by congruence.
    rewrite Hsent, length_app, Hc. unfold tick_request. rewrite Hd, Hopen.
    simpl. rewrite andb_true_r.
    assert (Hrange : Device.clock s < d <= Device.clock s + 5000).
    { destruct Hinv as [_ Hinv].
      destruct (Device.queuePollTimer s) as [h'|].
      - destruct Hinv as (_ & d' & Hd'' & Hclock). rewrite Hd in Hd''.
        by injection Hd'' as <- <-.
      - destruct Hinv as [Hnone _]. by rewrite Hd in Hnone. }
    destruct (Z.eqb_spec d (Device.clock s + 1)) as [->|Hne]; simpl.
    + replace (Z.of_nat n + 5000
               - (Device.clock s + 1 + 5000 - (Device.clock s + 1)))
        with (Z.of_nat n) by lia.
      replace (Z.of_nat (S n) + 5000 - (Device.clock s + 1 - Device.clock s))
        with (Z.of_nat n + 1 * 5000) by lia.
      rewrite Z.div_add by lia.
      assert (0 <= Z.of_nat n / 5000) by (apply Z.div_pos; lia). lia.
    + replace (Z.of_nat (S n) + 5000 - (d - Device.clock s))
        with (Z.of_nat n + 5000 - (d - (Device.clock s + 1))) by lia.
      lia.
Qed.

(** C4: after any step from a reachable state, the polling timer follows
    the subscribers of ['nowPlaying'] and ['supportedCommands']: with no
    subscriber no polling timer is pending, with at least one exactly one
    is, a 5000 ms interval due within the next 5000 ms; when the count
    leaves 0 the timer is new and first due 5000 ms later. A tick at which
    the timer comes due puts it back 5000 ms later and, if the connection is
    open, sends one [PlaybackQueueRequestMessage] with location 0, length
    100, artworkWidth -1, artworkHeight 368 and the next identifier drawn
    from [uuid()] as requestID, not waiting for a response; so with the
    connection open, [n] ms of time passing send one request at the
    timer's due time and one every 5000 ms after. No other step sends
    anything, and nothing is sent while there is no subscriber. *)
Theorem polling_follows_subscribers (s : Device.State) (e : Device.Step) :
  Device.reachable s ->
  let s' := Device.step s e in
  match Device.subscribers s' with
  | O => Device.poll_timers s' = [] /\ Device.queuePollTimer s' = None
  | S _ =>
      exists h d,
        Device.poll_timers s' = [poll_timer h d]
        /\ Device.queuePollTimer s' = Some h
        /\ Device.clock s' < d <= Device.clock s' + 5000
  end
  /\ (Device.subscribers s = 0%nat -> (0 < Device.subscribers s')%nat ->
      exists h, Device.poll_timers s'
                = [poll_timer h (Device.clock s' + 5000)])
  /\ Device.sent s'
     = Device.sent s
       ++ match e, Device.poll_timers s with
          | Device.Tick, t :: _ =>
              if (Device.due t =? Device.clock s + 1) && Device.isOpen s then
                [playback_request
                   (list_to_map [
                      ("location", VNum 0);
                      ("length", VNum 100);
                      ("artworkWidth", VNum (-1));
                      ("artworkHeight", VNum 368);
                      ("requestID",
                       VStr (rand (Device.runtime s)
                               (uuid_calls (Device.runtime s))))
                    ]) false]
              else []
          | _, _ => []
          end
  /\ (Device.subscribers s = 0%nat -> Device.sent s' = Device.sent s)
  /\ (forall h d, e = Device.Tick -> Device.poll_timers s = [poll_timer h d] ->
      Device.poll_timers s'
      = [poll_timer h (if d =? Device.clock s + 1 then d + 5000 else d)]
      /\ uuid_calls (Device.runtime s')
         = (uuid_calls (Device.runtime s)
            + if ((d =? Device.clock s + 1)%Z && Device.isOpen s)%bool
              then 1 else 0)%nat)
  /\ (forall h d (n : nat),
      Device.poll_timers s' = [poll_timer h d] -> Device.isOpen s' = true ->
      length (Device.sent (Device.run s' (repeat Device.Tick n)))
      = (length (Device.sent s')
         + Z.to_nat ((Z.of_nat n + 5000 - (d - Device.clock s')) / 5000))%nat).
Proof.
  intros Hreach s'.
  pose proof (reachable_polling_inv s Hreach) as Hinv.
  pose proof (step_polling_inv s e Hinv) as Hinv'. fold s' in Hinv'.
  assert (Hsent : Device.sent s'
                  = Device.sent s
                    ++ match e with Device.Tick => tick_request s | _ => [] end)
    by (by apply step_sent).
  split; [|split; [|split; [|split; [|split]]]].
  - destruct Hinv' as [_ H]. destruct (Device.queuePollTimer s') as [h|].
    + destruct H as (Hsub & d & Hd & Hclock).
      destruct (Device.subscribers s'); [lia|]. by exists h, d.
    + destruct H as [Hnone ->]. done.
  - intros H0 Hpos. subst s'. destruct e; cbn [Device.step] in *.
    + rewrite on_subscribers in Hpos.
      destruct (Device.polled event) eqn:Hev; [|lia].
      destruct (on_starts_polling event (Device.Subscriber id) s Hinv H0 Hev)
        as [-> ->]. by eexists.
    + pose proof (removeListener_subscribers event (Device.Subscriber id) s).
      lia.
    + rewrite messageOfType_subscribers in Hpos. lia.
    + rewrite receive_subscribers in Hpos. lia.
    + destruct (tick_frame s) as (_ & _ & Hs). rewrite Hs in Hpos. lia.
    + change (0 < Device.subscribers s)%nat in Hpos. lia.
  - exact Hsent.
  - intros H0. rewrite Hsent. destruct e; try apply app_nil_r.
    unfold tick_request. destruct Hinv as [_ H].
    destruct (Device.queuePollTimer s) as [h|].
    + destruct H as [H _]. lia.
    + destruct H as [-> _]. apply app_nil_r.
  - intros h d -> Hd. subst s'. cbn [Device.step].
    split; [by apply tick_poll_timers|].
    destruct (tick_sent s Hinv) as [_ ->]. unfold tick_request. rewrite Hd.
    simpl. by destruct (d =? Device.clock s + 1), (Device.isOpen s).
  - intros h d n Hd Hopen. by apply (polling_every_five_seconds n s' h d).
Qed.

(** A device fresh from its constructor gets its first subscriber. *)
Lemma polling_follows_subscribers_witness :
  let s := Device.init (idle_runtime (fun _ => "")) in
  Device.reachable s
  /\ exists h,
       Device.poll_timers (Device.step s (Device.On "nowPlaying" 1))
       = [poll_timer h 5000].
Proof.
  intros s.
  assert (Hs : Device.reachable s) by (by exists (idle_runtime (fun _ => "")), []).
  split; [exact Hs|].
  destruct (polling_follows_subscribers s (Device.On "nowPlaying" 1) Hs)
    as (_ & H & _).
  apply H; [reflexivity|]. vm_compute. lia.
Defined.

(** Scenario: with the connection open, a subscriber for twelve seconds
    sees two requests go out; once it is gone, six more seconds send
    nothing. *)
Example polling_twelve_seconds :
  let s0 := Device.init (idle_runtime (fun _ => "")) in
  let s1 := Device.run s0 ([Device.Link true; Device.On "nowPlaying" 1]
                           ++ repeat Device.Tick 12000) in
  let s2 := Device.run s1 (Device.Off "nowPlaying" 1
                           :: repeat Device.Tick 6000) in
  length (Device.sent s1) = 2%nat
  /\ length (Device.sent s2) = 2%nat
  /\ Device.timers s2 = [].
Proof. vm_compute. done. Qed.


(** ** The fan-out of [SetStateMessage] *)

(** The emissions of one event among those of a message. *)
Definition emissions_of (event : string) (es : list Emission) : list Emission :=
  List.filter (fun e => String.eqb (event_name e) event) es.

(** [new SupportedCommand(sc.command, sc.enabled || false,
    sc.canScrub || false)] for each entry of the list, or of [[]]. *)
Definition supported_commands (sc : Message.SupportedCommands)
  : list SupportedCommand :=
  List.map
    (fun c => {| sc_command := Message.command c;
                 sc_enabled := or_false (Message.enabled c);
                 sc_canScrub := or_false (Message.canScrub c) |})
    (default [] (Message.supportedCommands_list sc)).

(** C5: when a [SetStateMessage] arrives, what the device emits after the
    ['message'] event itself is, for a null payload, one ['nowPlaying'] with
    [null] and nothing for ['supportedCommands'] or ['playbackQueue']; for
    a payload, one ['nowPlaying'] if [nowPlayingInfo] is there, one
    ['supportedCommands'] if [supportedCommands] is there, one
    ['playbackQueue'] if [playbackQueue] is there, and none of an event
    whose part is missing. *)
Theorem SetStateMessage_fan_out (m : Message.t) (s : Device.State) :
  Message.type m = Message.SetStateMessage ->
  let out := on_connection_message m in
  Device.emitted (Device.receive m s) = Device.emitted s ++ out
  /\ emissions_of "message" out = [EmitMessage m]
  /\ match Message.payload m with
     | None =>
         out = [EmitMessage m; EmitNowPlaying None]
         /\ emissions_of "nowPlaying" out = [EmitNowPlaying None]
         /\ emissions_of "supportedCommands" out = []
         /\ emissions_of "playbackQueue" out = []
     | Some payload =>
         emissions_of "nowPlaying" out
         = match Message.nowPlayingInfo payload with
           | Some _ => [EmitNowPlaying (Some {| np_message := payload |})]
           | None => []
           end
         /\ emissions_of "supportedCommands" out
            = match Message.supportedCommands payload with
              | Some sc => [EmitSupportedCommands (supported_commands sc)]
              | None => []
              end
         /\ emissions_of "playbackQueue" out
            = match Message.playbackQueue payload with
              | Some queue => [EmitPlaybackQueue queue]
              | None => []
              end
     end.
Proof.
  intros Htype out. split; [apply receive_emitted|].
  subst out. unfold on_connection_message. rewrite Htype.
  rewrite decide_True by done.
  destruct (Message.payload m) as [payload|]; [|done].
  by destruct (Message.nowPlayingInfo payload),
    (Message.supportedCommands payload), (Message.playbackQueue payload).
Qed.

(** A [SetStateMessage] with a null payload, on a fresh device. *)
Lemma SetStateMessage_fan_out_witness :
  let m := {| Message.type := Message.SetStateMessage;
              Message.identifier := None; Message.payload := None |} in
  Message.type m = Message.SetStateMessage
  /\ Device.emitted
       (Device.receive m (Device.init (idle_runtime (fun _ => ""))))
     = [EmitMessage m; EmitNowPlaying None].
Proof.
  intros m. split; [reflexivity|].
  exact (proj1 (SetStateMessage_fan_out m
                  (Device.init (idle_runtime (fun _ => ""))) eq_refl)).
Defined.

(** A message of another type is passed on and nothing more. *)
Lemma other_message_fan_out (m : Message.t) :
  Message.type m <> Message.SetStateMessage ->
  on_connection_message m = [EmitMessage m].
Proof.
  intros H. unfold on_connection_message. by rewrite decide_False.
Qed.


(** ** One promise of [messageOfType] *)

Section Waiting.

Import Device.

(** The promise we follow. *)
Variable p : nat.

(** How often its listener is registered for ['message']. *)
Definition awaiting (s : State) : nat :=
  length (filter (Awaiter p =.) (registered "message" s)).

(** Its pending expiry timers. *)
Definition expiries (ts : list Timer) : list Timer :=
  List.filter (fun t => bool_decide (callback t = Expire p)) ts.

(** [s'] has the promise and its listener as [s] has them. *)
Definition keeps (s s' : State) : Prop :=
  promises s' !! p = promises s !! p /\ awaiting s' = awaiting s.

Lemma keeps_refl s : keeps s s.
Proof. done. Qed.

Lemma keeps_trans s1 s2 s3 : keeps s1 s2 -> keeps s2 s3 -> keeps s1 s3.
Proof. intros [? ?] [? ?]. split; congruence. Qed.

(** The promise is settled and its listener gone. *)
Definition finished (s : State) : Prop :=
  (exists w o, promises s !! p = Some w /\ settled w = Some o)
  /\ awaiting s = 0%nat.

Lemma keeps_finished s s' : keeps s s' -> finished s -> finished s'.
Proof. intros [Hp Ha] [H H0]. split; [by rewrite Hp|by rewrite Ha]. Qed.

Lemma filter_none {A} (P : A -> Prop) `{forall x, Decision (P x)} l x :
  x ∉ l -> (forall y, P y -> y = x) -> filter P l = [].
Proof.
  intros Hx HP. induction l as [|y l IH]; [done|].
  apply not_elem_of_cons in Hx as [Hne Hx]. rewrite filter_cons.
  destruct (decide (P y)) as [Hy|_]; [|by apply IH].
  destruct Hne. symmetry. by apply HP.
Qed.

Lemma awaiting_removeListener q s :
  awaiting (removeListener "message" (Awaiter q) s)
  = if decide (q = p)
    then (awaiting s - 1)%nat
    else awaiting s.
Proof.
  rewrite removeListener_message. unfold awaiting.
  destruct (remove_last (Awaiter q) (registered "message" s)) as [ls|] eqn:Hrem.
  - rewrite registered_removed. rewrite decide_True by done.
    rewrite (remove_last_count _ (Awaiter p) _ _ Hrem).
    destruct (decide (q = p)) as [->|Hne].
    + rewrite decide_True by done. lia.
    + rewrite decide_False by congruence. lia.
  - destruct (decide (q = p)) as [->|Hne]; [|done].
    apply remove_last_None in Hrem.
    rewrite (filter_none (Awaiter p =.) _ _ Hrem); [done|]. by intros y <-.
Qed.

Lemma promises_removeListener ev l s :
  promises (removeListener ev l s) = promises s.
Proof.
  unfold removeListener, removeListener_hook.
  destruct (remove_last l (registered ev s)); [|done]. simpl.
  destruct (queuePollTimer s); [|done].
  destruct (polled ev); [|done]. by destruct (_ =? 0)%nat.
Qed.

Lemma promises_settle q o s :
  promises (settle q o s) !! p
  = if decide (q = p)
    then match promises s !! p with
         | Some w =>
             Some {| awaited := awaited w;
                     settled := match settled w with
                                | None => Some o
                                | Some o' => Some o'
                                end |}
         | None => None
         end
    else promises s !! p.
Proof.
  unfold settle. destruct (decide (q = p)) as [->|Hne].
  - destruct (promises s !! p) as [w|] eqn:Hw; [|by rewrite Hw].
    destruct (settled w) eqn:Hs.
    + rewrite Hw. by destruct w; simpl in *; subst.
    + simpl. apply list_lookup_insert_eq. by eapply lookup_lt_Some.
  - destruct (promises s !! q) as [w|]; [|done].
    destruct (settled w); [done|]. simpl. by apply list_lookup_insert_ne.
Qed.

Lemma awaiting_settle q o s : awaiting (settle q o s) = awaiting s.
Proof.
  unfold settle. destruct (promises s !! q) as [w|]; [|done].
  by destruct (settled w).
Qed.

(** *** What leaves the promise alone *)

Lemma quiet_expiries s s' : quiet s s' -> timers s' = timers s /\ clock s' = clock s.
Proof. by intros (_&_&_&?&?&_). Qed.

Lemma invoke_other l e s :
  (forall m, e <> EmitMessage m) -> invoke l e s = s.
Proof.
  intros He. destruct l as [id|q]; [done|]. destruct e; try done.
  by destruct (He m).
Qed.

Lemma invoke_keeps l e s : l <> Awaiter p -> keeps s (invoke l e s).
Proof.
  intros Hl. unfold invoke. destruct l as [id|q]; [done|].
  destruct e; try done.
  destruct (promises s !! q) as [w|]; [|done].
  destruct (decide _); [|done].
  assert (Hq : q <> p) by congruence. split.
  - by rewrite promises_removeListener, promises_settle, decide_False.
  - by rewrite awaiting_removeListener, decide_False, awaiting_settle.
Qed.

Lemma expire_keeps q s : q <> p -> keeps s (expire q s).
Proof.
  intros Hq. unfold expire. destruct (promises s !! q) as [w|]; [|done].
  split.
  - by rewrite promises_removeListener, promises_settle, decide_False.
  - by rewrite awaiting_removeListener, decide_False, awaiting_settle.
Qed.

(** Once the promise is settled and its listener gone, nothing the
    listener or the expiry does changes that. *)
Lemma invoke_finished l e s : finished s -> keeps s (invoke l e s).
Proof.
  intros [(w & o & Hw & Ho) H0].
  destruct (decide (l = Awaiter p)) as [->|]; [|by apply invoke_keeps].
  unfold invoke. destruct e; try done. rewrite Hw.
  destruct (decide _); [|done]. split.
  - rewrite promises_removeListener, promises_settle, decide_True by done.
    rewrite Hw, Ho. by destruct w; simpl in *; subst.
  - rewrite awaiting_removeListener, decide_True, awaiting_settle by done.
    lia.
Qed.

Lemma expire_finished q s : finished s -> keeps s (expire q s).
Proof.
  intros [(w & o & Hw & Ho) H0].
  destruct (decide (q = p)) as [->|]; [|by apply expire_keeps].
  unfold expire. rewrite Hw. split.
  - rewrite promises_removeListener, promises_settle, decide_True by done.
    rewrite Hw, Ho. by destruct w; simpl in *; subst.
  - rewrite awaiting_removeListener, decide_True, awaiting_settle by done.
    lia.
Qed.

Lemma invoke_all_keeps e ls s :
  Awaiter p ∉ ls -> keeps s (fold_left (fun s l => invoke l e s) ls s).
Proof.
  revert s. induction ls as [|l ls IH]; intros s Hp; simpl; [done|].
  apply not_elem_of_cons in Hp as [Hne Hp].
  eapply keeps_trans; [apply (invoke_keeps l e s); by intros ->|by apply IH].
Qed.

Lemma invoke_all_finished e ls s :
  finished s -> keeps s (fold_left (fun s l => invoke l e s) ls s).
Proof.
  revert s. induction ls as [|l ls IH]; intros s Hf; simpl; [done|].
  pose proof (invoke_finished l e s Hf) as Hk.
  eapply keeps_trans; [exact Hk|]. apply IH. by eapply keeps_finished.
Qed.

Lemma on_keeps ev l s : l <> Awaiter p -> keeps s (on ev l s).
Proof.
  intros Hl. unfold on.
  assert (Hh : promises (newListener_hook ev s) = promises s
               /\ listeners (newListener_hook ev s) = listeners s).
  { unfold newListener_hook. by destruct (queuePollTimer s), (polled ev). }
  destruct Hh as [Hp Hls]. split; [simpl; by rewrite Hp|].
  unfold awaiting. rewrite registered_insert. unfold registered. rewrite Hls.
  destruct (decide (ev = "message")) as [->|]; [|done].
  rewrite filter_app, filter_cons, decide_False by done.
  by rewrite app_nil_r.
Qed.

Lemma off_keeps ev id s : keeps s (removeListener ev (Subscriber id) s).
Proof.
  split; [by rewrite promises_removeListener|].
  unfold removeListener.
  destruct (remove_last (Subscriber id) (registered ev s)) as [ls|] eqn:Hrem;
    [|done].
  assert (Hh : forall s0, listeners (removeListener_hook ev s0) = listeners s0).
  { intros s0. unfold removeListener_hook.
    destruct (queuePollTimer s0); [|done].
    destruct (polled ev); [|done]. by destruct (_ =? 0)%nat. }
  unfold awaiting, registered at 1. rewrite Hh.
  change (default [] (listeners (set_listeners ?m ?s0) !! "message"))
    with (registered "message" (set_listeners m s0)).
  rewrite registered_removed.
  destruct (decide (ev = "message")) as [->|]; [|done].
  rewrite (remove_last_count _ (Awaiter p) _ _ Hrem).
  rewrite decide_False by done. lia.
Qed.

(** *** A settled promise stays as it is *)

Lemma messageOfType_keeps ty timeout s w :
  promises s !! p = Some w -> keeps s (messageOfType ty timeout s).2.
Proof.
  intros Hw. unfold messageOfType, setTimeout. cbn [snd].
  assert (Hlt : (p < length (promises s))%nat) by by eapply lookup_lt_Some.
  eapply keeps_trans; [|apply on_keeps; intros [= Heq]; lia].
  split; [|done]. simpl. by rewrite lookup_app_l.
Qed.

Lemma emit_finished e s : finished s -> keeps s (emit e s).
Proof.
  intros Hf. unfold emit.
  eapply keeps_trans; [|apply invoke_all_finished; exact Hf]. done.
Qed.

Lemma receive_finished m s : finished s -> keeps s (receive m s).
Proof.
  unfold receive. generalize (on_connection_message m). intros es.
  revert s. induction es as [|e es IH]; intros s Hf; simpl; [done|].
  pose proof (emit_finished e s Hf) as Hk.
  eapply keeps_trans; [exact Hk|]. apply IH. by eapply keeps_finished.
Qed.

Lemma run_callback_finished cb s : finished s -> keeps s (run_callback cb s).
Proof.
  intros Hf. destruct cb as [|q]; simpl.
  - by rewrite poll_shape.
  - by apply expire_finished.
Qed.

Lemma fire_finished t s : finished s -> keeps s (fire t s).
Proof.
  intros Hf. unfold fire. destruct (pending (handle t) s); [|done].
  destruct (every t);
    (eapply keeps_trans; [|by apply run_callback_finished]); done.
Qed.

Lemma tick_finished s : finished s -> keeps s (tick s).
Proof.
  intros Hf. rewrite tick_shape.
  generalize (due_now (clock s + 1) (timers s)). intros todo.
  assert (Hk : keeps s (set_clock (clock s + 1) s)) by done.
  revert Hk. generalize (set_clock (clock s + 1) s). intros s0 Hk.
  revert s0 Hk. induction todo as [|t todo IH]; intros s0 Hk; simpl; [done|].
  apply IH. eapply keeps_trans; [exact Hk|].
  apply fire_finished. by eapply keeps_finished.
Qed.

Lemma step_finished s e : finished s -> keeps s (step s e).
Proof.
  intros Hf. destruct e; cbn [step].
  - by apply on_keeps.
  - apply off_keeps.
  - destruct Hf as [(w & o & Hw & _) _]. by eapply messageOfType_keeps.
  - by apply receive_finished.
  - by apply tick_finished.
  - done.
Qed.

Lemma run_finished es s : finished s -> keeps s (run s es).
Proof.
  revert s. induction es as [|e es IH]; intros s Hf; simpl; [done|].
  pose proof (step_finished s e Hf) as Hk.
  eapply keeps_trans; [exact Hk|]. apply IH. by eapply keeps_finished.
Qed.

(** *** While the promise is pending *)

(** The type awaited. *)
Variable type : Message.Type_.

Definition expiry (h : nat) (d : Z) : Timer :=
  {| handle := h; due := d; every := None; callback := Expire p |}.

(** Pending: unsettled, its listener registered once, its timer due at
    [D]. *)
Definition waiting (D : Z) (s : State) : Prop :=
  promises s !! p = Some {| awaited := type; settled := None |}
  /\ awaiting s = 1%nat
  /\ exists h, expiries (timers s) = [expiry h D].

(** Settled as [o], its listener gone. *)
Definition settled_as (o : Settlement) (s : State) : Prop :=
  promises s !! p = Some {| awaited := type; settled := Some o |}
  /\ awaiting s = 0%nat.

Lemma settled_as_finished o s : settled_as o s -> finished s.
Proof. intros [Hp H0]. split; [|done]. by eexists _, _. Qed.

Lemma keeps_settled_as o s s' : keeps s s' -> settled_as o s -> settled_as o s'.
Proof. intros [Hp Ha] [H H0]. split; [by rewrite Hp|by rewrite Ha]. Qed.

Lemma expiries_app ts ts' : expiries (ts ++ ts') = expiries ts ++ expiries ts'.
Proof. apply List.filter_app. Qed.

Lemma expiries_cons t ts :
  expiries (t :: ts)
  = if bool_decide (callback t = Expire p) then t :: expiries ts
    else expiries ts.
Proof. done. Qed.

Lemma expiries_without h ts : expiries (without h ts) = without h (expiries ts).
Proof.
  induction ts as [|t ts IH]; [done|].
  rewrite without_cons, expiries_cons.
  destruct (handle t =? h)%nat eqn:Hh;
    destruct (bool_decide (callback t = Expire p)) eqn:Hc;
    rewrite ?without_cons, ?expiries_cons, ?Hh, ?Hc, ?IH; done.
Qed.

Lemma elem_of_expiries t ts :
  t ∈ expiries ts <-> t ∈ ts /\ callback t = Expire p.
Proof.
  unfold expiries. rewrite !list_elem_of_In, filter_In.
  by rewrite bool_decide_eq_true.
Qed.

Lemma keeps_waiting D s s' :
  keeps s s' -> timers s' = timers s -> waiting D s -> waiting D s'.
Proof.
  intros [Hp Ha] Ht (H & H1 & He). split; [by rewrite Hp|].
  split; [by rewrite Ha|]. by rewrite Ht.
Qed.

Lemma on_waiting D ev id s :
  waiting D s -> waiting D (on ev (Subscriber id) s).
Proof.
  intros (H & H1 & h & He).
  destruct (on_keeps ev (Subscriber id) s) as [Hp Ha]; [done|].
  split; [by rewrite Hp|]. split; [by rewrite Ha|]. exists h.
  unfold on, newListener_hook.
  destruct (queuePollTimer s); [done|]. destruct (polled ev); [|done].
  simpl. by rewrite expiries_app, He.
Qed.

Lemma off_waiting D ev id s :
  polling_inv s -> waiting D s ->
  waiting D (removeListener ev (Subscriber id) s).
Proof.
  intros [[Hnd _] Hinv] (H & H1 & h & He).
  destruct (off_keeps ev id s) as [Hp Ha].
  split; [by rewrite Hp|]. split; [by rewrite Ha|]. exists h.
  unfold removeListener.
  destruct (remove_last _ _) as [ls|]; [|done].
  unfold removeListener_hook. simpl.
  destruct (queuePollTimer s) as [hq|]; [|done].
  destruct (polled ev); [|done]. destruct (_ =? 0)%nat; [|done]. simpl.
  change (expiries (without hq (timers s)) = [expiry h D]).
  rewrite expiries_without, He, without_cons. simpl.
  destruct (Nat.eqb_spec h hq) as [->|]; [exfalso|done].
  destruct Hinv as (_ & d & Hd & _).
  assert (Hin1 : poll_timer hq d ∈ timers s).
  { apply (elem_of_polls (poll_timer hq d) (timers s)).
    change (polls (timers s)) with (poll_timers s). rewrite Hd.
    apply list_elem_of_here. }
  assert (Hin2 : expiry hq D ∈ timers s).
  { apply elem_of_expiries. rewrite He. apply list_elem_of_here. }
  by pose proof (timer_by_handle _ _ _ Hnd Hin1 Hin2 eq_refl).
Qed.

Lemma messageOfType_waiting D ty timeout s :
  waiting D s -> waiting D (messageOfType ty timeout s).2.
Proof.
  intros (H & H1 & h & He).
  destruct (messageOfType_keeps ty timeout s _ H) as [Hp Ha].
  split; [by rewrite Hp|]. split; [by rewrite Ha|]. exists h.
  assert (Hlt : (p < length (promises s))%nat) by by eapply lookup_lt_Some.
  unfold messageOfType, setTimeout. cbn [snd].
  unfold on, newListener_hook. simpl.
  assert (Hts : forall d,
             expiries (timers s ++ [{| handle := handles s; due := d;
                                       every := None;
                                       callback := Expire (length (promises s)) |}])
             = [expiry h D]).
  { intros d. rewrite expiries_app, He, expiries_cons. simpl.
    rewrite bool_decide_eq_false_2; [done|]. intros [= Heq]. lia. }
  destruct (queuePollTimer s); apply Hts.
Qed.

(** *** A message arrives *)

Lemma awaiting_once ls :
  length (filter (Awaiter p =.) ls) = 1%nat ->
  exists l1 l2, ls = l1 ++ Awaiter p :: l2
                /\ (Awaiter p ∉ l1) /\ (Awaiter p ∉ l2).
Proof.
  intros H1.
  assert (Hin : Awaiter p ∈ ls).
  { destruct (decide (Awaiter p ∈ ls)) as [|Hn]; [done|].
    rewrite (filter_none (Awaiter p =.) _ _ Hn) in H1; [done|].
    by intros y <-. }
  apply list_elem_of_split in Hin as (l1 & l2 & ->). exists l1, l2.
  split; [done|].
  rewrite filter_app, filter_cons, decide_True, length_app in H1 by done.
  simpl in H1.
  assert (H01 : length (filter (Awaiter p =.) l1) = 0%nat) by lia.
  assert (H02 : length (filter (Awaiter p =.) l2) = 0%nat) by lia.
  apply length_zero_iff_nil in H01, H02.
  split; intros Hin.
  - by apply (filter_nil_not_elem_of _ _ _ H01 eq_refl) in Hin.
  - by apply (filter_nil_not_elem_of _ _ _ H02 eq_refl) in Hin.
Qed.

Lemma emit_message_waiting D m s :
  waiting D s ->
  let s' := emit (EmitMessage m) s in
  timers s' = timers s /\ clock s' = clock s
  /\ (Message.type m = type -> settled_as (ResolvedWith m) s')
  /\ (Message.type m <> type -> waiting D s').
Proof.
  intros (Hp & H1 & h & He) s'.
  destruct (emit_spec (EmitMessage m) s) as (s0 & Hq & Hs0).
  fold s' in Hs0. rewrite <- Hs0 in Hq.
  destruct Hq as (_&_&_&Hc&Ht&_). simpl in Hc, Ht.
  split; [done|]. split; [done|].
  subst s0. unfold emit in s'. simpl in s'.
  destruct (awaiting_once _ H1) as (l1 & l2 & Hls & Hl1 & Hl2).
  subst s'. rewrite Hls, fold_left_app. simpl.
  set (s0 := set_emitted (emitted s ++ [EmitMessage m]) s).
  set (s1 := fold_left (fun s l => invoke l (EmitMessage m) s) l1 s0).
  assert (Hk1 : keeps s s1).
  { eapply keeps_trans; [|apply invoke_all_keeps; exact Hl1]. done. }
  destruct Hk1 as [Hp1 Ha1]. rewrite Hp in Hp1. rewrite H1 in Ha1.
  rewrite Hp1. simpl.
  destruct (decide (Message.type m = type)) as [Hty|Hty].
  - set (s2 := removeListener "message" (Awaiter p)
                 (settle p (ResolvedWith m) s1)).
    assert (Hs2 : settled_as (ResolvedWith m) s2).
    { split.
      - subst s2. rewrite promises_removeListener, promises_settle.
        rewrite decide_True by done. by rewrite Hp1.
      - subst s2. rewrite awaiting_removeListener, decide_True by done.
        rewrite awaiting_settle. lia. }
    split; [|done]. intros _.
    eapply keeps_settled_as; [|exact Hs2].
    apply invoke_all_finished. by eapply settled_as_finished.
  - split; [done|]. intros _.
    assert (Hk2 : keeps s1 (fold_left (fun s l => invoke l (EmitMessage m) s)
                              l2 s1)) by by apply invoke_all_keeps.
    destruct Hk2 as [Hp2 Ha2].
    split; [by rewrite Hp2|]. split; [by rewrite Ha2|].
    exists h.
    destruct (quiet_expiries _ _ (invoke_all_quiet (EmitMessage m) l2 s1))
      as [-> _].
    destruct (quiet_expiries _ _ (invoke_all_quiet (EmitMessage m) l1 s0))
      as [Ht1 _].
    fold s1 in Ht1. by rewrite Ht1.
Qed.

Lemma emit_other e s :
  (forall m, e <> EmitMessage m) ->
  emit e s = set_emitted (emitted s ++ [e]) s.
Proof.
  intros He. unfold emit. generalize (registered (event_name e) s).
  intros ls. generalize (set_emitted (emitted s ++ [e]) s). intros s0.
  induction ls as [|l ls IH]; simpl; [done|]. by rewrite invoke_other.
Qed.

Lemma emit_others es s :
  Forall (fun e => forall m, e <> EmitMessage m) es ->
  let s' := fold_left (fun s e => emit e s) es s in
  keeps s s' /\ timers s' = timers s /\ clock s' = clock s.
Proof.
  revert s. induction es as [|e es IH]; intros s Hes; simpl; [done|].
  apply Forall_cons in Hes as [He Hes].
  destruct (IH (emit e s) Hes) as ((Hp & Ha) & Ht & Hc).
  rewrite emit_other in * by done. repeat split; try done.
Qed.

Lemma on_connection_message_shape m :
  exists rest, on_connection_message m = EmitMessage m :: rest
               /\ Forall (fun e => forall m', e <> EmitMessage m') rest.
Proof.
  unfold on_connection_message. eexists. split; [done|].
  destruct (decide _); [|done].
  destruct (Message.payload m) as [payload|]; [|by repeat constructor].
  destruct (Message.nowPlayingInfo payload),
    (Message.supportedCommands payload), (Message.playbackQueue payload);
    by repeat constructor.
Qed.

Lemma receive_waiting D m s :
  waiting D s ->
  (Message.type m = type -> settled_as (ResolvedWith m) (receive m s))
  /\ (Message.type m <> type -> waiting D (receive m s)).
Proof.
  intros Hw. unfold receive.
  destruct (on_connection_message_shape m) as (rest & -> & Hrest). simpl.
  destruct (emit_message_waiting D m s Hw) as (Ht & Hc & Hyes & Hno).
  destruct (emit_others rest (emit (EmitMessage m) s) Hrest)
    as (Hk & Ht' & Hc').
  split; intros Hty.
  - eapply keeps_settled_as; [exact Hk|]. by apply Hyes.
  - eapply keeps_waiting; [exact Hk|exact Ht'|]. by apply Hno.
Qed.

(** *** Time passes *)

(** Mid-tick: [todo] are the due timers still to fire; either the promise
    is pending, its own timer still to fire if it is due, or it has just
    timed out. *)
Definition waiting_mid (D : Z) (todo : list Timer) (s : State) : Prop :=
  timers_wf s
  /\ NoDup (handle <$> todo)
  /\ (forall t, t ∈ todo -> t ∈ timers s /\ due t <= clock s)
  /\ (waiting D s
      /\ (forall h, expiries (timers s) = [expiry h D] -> D <= clock s ->
          expiry h D ∈ todo)
      \/ settled_as (TimedOutWaitingFor type) s /\ D <= clock s).

Lemma fire_waiting_mid D t todo s :
  waiting_mid D (t :: todo) s -> waiting_mid D todo (fire t s).
Proof.
  intros (Hwf & Hnd & Hin & H).
  destruct (Hin t) as [Ht Hdue]; [apply list_elem_of_here|].
  rewrite fmap_cons in Hnd. apply NoDup_cons in Hnd as [Hfresh Hnd].
  assert (Hother : forall u, u ∈ todo -> handle u <> handle t).
  { intros u Hu Heq. apply Hfresh. rewrite <- Heq.
    apply list_elem_of_fmap. by exists u. }
  rewrite fire_pending by done.
  set (s1 := set_timers (without (handle t) (timers s) ++ resched t) s).
  destruct (run_callback_frame (callback t) s1) as (Hc & _ & _ & Hts).
  assert (Hwf1 : timers_wf s1) by by apply fired_wf.
  split.
  { destruct Hwf1 as [Hnd1 Hlt1]. split; rewrite Hts; [done|].
    destruct (callback t) as [|q]; simpl; [by rewrite poll_shape|].
    by destruct (expire_quiet q s1) as (_&_&_&_&_&->&_). }
  split; [done|]. split.
  { intros u Hu. destruct (Hin u) as [Hu' Hd]; [by apply list_elem_of_further|].
    rewrite Hts, Hc. split; [|done]. simpl. apply elem_of_app. left.
    apply elem_of_without. split; [done|]. by apply Hother. }
  destruct H as [[Hw Hdue_in]|[Hs HD]].
  - destruct Hw as (Hp & H1 & h & He).
    destruct (decide (callback t = Expire p)) as [Hcb|Hcb].
    + (* the promise's own timer *)
      right. assert (t = expiry h D) as ->.
      { assert (Hin' : t ∈ expiries (timers s)) by by apply elem_of_expiries.
        rewrite He in Hin'. by apply list_elem_of_singleton in Hin'. }
      simpl in Hdue. rewrite Hc. split; [|done].
      simpl. unfold expire.
      change (promises s1 !! p) with (promises s !! p). rewrite Hp. split.
      * rewrite promises_removeListener, promises_settle.
        rewrite decide_True by done.
        change (promises s1 !! p) with (promises s !! p). by rewrite Hp.
      * rewrite awaiting_removeListener, decide_True, awaiting_settle by done.
        change (awaiting s1) with (awaiting s). lia.
    + left.
      assert (Hh : handle t <> h).
      { intros Heq. apply Hcb.
        assert (Hin' : expiry h D ∈ timers s).
        { apply elem_of_expiries. rewrite He. apply list_elem_of_here. }
        destruct Hwf as [Hnd0 _].
        by rewrite (timer_by_handle _ _ _ Hnd0 Ht Hin' Heq). }
      assert (He1 : expiries (timers s1) = [expiry h D]).
      { simpl. rewrite expiries_app, expiries_without, He, without_cons.
        simpl. destruct (Nat.eqb_spec h (handle t)) as [Heq|_];
          [by destruct Hh|].
        unfold resched. destruct (every t); [|done].
        rewrite expiries_cons. simpl.
        by rewrite bool_decide_eq_false_2. }
      assert (Hk : keeps s (run_callback (callback t) s1)).
      { destruct (callback t) as [|q]; simpl; [by rewrite poll_shape|].
        eapply keeps_trans; [|apply expire_keeps; congruence]. done. }
      split.
      * destruct Hk as [Hpk Hak].
        split; [by rewrite Hpk|]. split; [by rewrite Hak|].
        exists h. by rewrite Hts.
      * intros h' He' HD. rewrite Hts, He1 in He'.
        injection He' as <-. rewrite Hc in HD.
        specialize (Hdue_in h He HD).
        apply elem_of_cons in Hdue_in as [Heq|]; [|done].
        destruct Hh. by rewrite <- Heq.
  - right. rewrite Hc. split; [|done].
    eapply keeps_settled_as; [|exact Hs].
    eapply keeps_trans; [|apply run_callback_finished].
    + done.
    + eapply keeps_finished; [|by eapply settled_as_finished]. done.
Qed.

Lemma fire_all_waiting_mid D todo s :
  waiting_mid D todo s ->
  waiting_mid D [] (fold_left (fun s t => fire t s) todo s).
Proof.
  revert s. induction todo as [|t todo IH]; intros s H; simpl; [done|].
  by apply IH, fire_waiting_mid.
Qed.

(** A tick leaves a pending promise pending until its timer is due, and
    then rejects it and removes its listener. *)
Lemma tick_waiting D s :
  polling_inv s -> waiting D s ->
  (D <= clock s + 1 -> settled_as (TimedOutWaitingFor type) (tick s))
  /\ (clock s + 1 < D -> waiting D (tick s)).
Proof.
  intros [Hwf _] Hw.
  assert (Hmid : waiting_mid D (due_now (clock s + 1) (timers s))
                   (set_clock (clock s + 1) s)).
  { split; [done|]. split; [apply due_now_NoDup, Hwf|]. split.
    { intros t Ht. by apply elem_of_due_now in Ht. }
    left. split; [done|]. intros h He HD. simpl in *.
    apply elem_of_due_now. split; [|done].
    apply elem_of_expiries. rewrite He. apply list_elem_of_here. }
  apply fire_all_waiting_mid in Hmid. rewrite <- tick_shape in Hmid.
  destruct (tick_frame s) as (Hc & _).
  destruct Hmid as (_ & _ & _ & [[Hw' Hdue]|[Hs HD]]).
  - split; [|done]. intros HD. exfalso.
    destruct Hw' as (_ & _ & h & He).
    rewrite Hc in Hdue. specialize (Hdue h He HD).
    by apply elem_of_nil in Hdue.
  - split; [done|]. rewrite Hc in HD. lia.
Qed.

Lemma awaiting_zero s : awaiting s = 0%nat -> Awaiter p ∉ registered "message" s.
Proof.
  unfold awaiting. intros H0%length_zero_iff_nil Hin.
  by apply (filter_nil_not_elem_of _ _ _ H0 eq_refl) in Hin.
Qed.

End Waiting.

(** *** Promises not yet made *)

Section Unborn.

Import Device.

(** No listener and no timer refers to a promise that does not exist. *)
Definition unborn (s : State) : Prop :=
  forall q, (length (promises s) <= q)%nat ->
            awaiting q s = 0%nat /\ expiries q (timers s) = [].

Lemma settle_length q o s : length (promises (settle q o s)) = length (promises s).
Proof.
  unfold settle. destruct (promises s !! q) as [w|]; [|done].
  destruct (settled w); [done|]. simpl. apply length_insert.
Qed.

Lemma invoke_length l e s : length (promises (invoke l e s)) = length (promises s).
Proof.
  unfold invoke. destruct l as [id|q]; [done|]. destruct e; try done.
  destruct (promises s !! q); [|done]. destruct (decide _); [|done].
  by rewrite promises_removeListener, settle_length.
Qed.

Lemma expire_length q s : length (promises (expire q s)) = length (promises s).
Proof.
  unfold expire. destruct (promises s !! q); [|done].
  by rewrite promises_removeListener, settle_length.
Qed.

Lemma emit_length e s : length (promises (emit e s)) = length (promises s).
Proof.
  unfold emit. generalize (registered (event_name e) s). intros ls.
  change (length (promises s))
    with (length (promises (set_emitted (emitted s ++ [e]) s))).
  generalize (set_emitted (emitted s ++ [e]) s). intros s0. revert s0.
  induction ls as [|l ls IH]; intros s0; simpl; [done|].
  by rewrite IH, invoke_length.
Qed.

Lemma receive_length m s : length (promises (receive m s)) = length (promises s).
Proof.
  unfold receive. generalize (on_connection_message m). intros es.
  revert s. induction es as [|e es IH]; intros s; simpl; [done|].
  by rewrite IH, emit_length.
Qed.

Lemma on_length ev l s : promises (on ev l s) = promises s.
Proof.
  unfold on, newListener_hook. by destruct (queuePollTimer s), (polled ev).
Qed.

Lemma fire_length t s : length (promises (fire t s)) = length (promises s).
Proof.
  unfold fire. destruct (pending (handle t) s); [|done].
  assert (H : forall cb s0, length (promises (run_callback cb s0))
                            = length (promises s0)).
  { intros [|q] s0; simpl; [by rewrite poll_shape|apply expire_length]. }
  rewrite H. by destruct (every t).
Qed.

Lemma receive_unborn m s : unborn s -> unborn (receive m s).
Proof.
  intros Hu q Hq. rewrite receive_length in Hq.
  destruct (Hu q Hq) as [H0 He].
  destruct (on_connection_message_shape m) as (rest & Hshape & Hrest).
  unfold receive. rewrite Hshape. cbn [fold_left].
  set (s1 := emit (EmitMessage m) s).
  destruct (emit_others q rest s1 Hrest) as ((_ & Ha) & Ht & _).
  rewrite Ha, Ht.
  assert (Hk : keeps q s s1).
  { unfold s1, emit. eapply keeps_trans; [|apply invoke_all_keeps].
    - done.
    - by apply awaiting_zero. }
  assert (Hts : timers s1 = timers s).
  { destruct (emit_spec (EmitMessage m) s) as (s' & Hq' & Heq).
    fold s1 in Heq. subst s'. by destruct Hq' as (_&_&_&_&->&_). }
  destruct Hk as [_ Hk]. by rewrite Hk, Hts.
Qed.

Lemma on_unborn ev id s : unborn s -> unborn (on ev (Subscriber id) s).
Proof.
  intros Hu q Hq. rewrite on_length in Hq. destruct (Hu q Hq) as [H0 He].
  destruct (on_keeps q ev (Subscriber id) s) as [_ Ha]; [done|].
  split; [by rewrite Ha|].
  unfold on, newListener_hook.
  destruct (queuePollTimer s); [done|]. destruct (polled ev); [|done].
  simpl. by rewrite expiries_app, He.
Qed.

Lemma off_unborn ev id s : unborn s -> unborn (removeListener ev (Subscriber id) s).
Proof.
  intros Hu q Hq. rewrite promises_removeListener in Hq.
  destruct (Hu q Hq) as [H0 He].
  destruct (off_keeps q ev id s) as [_ Ha]. split; [by rewrite Ha|].
  unfold removeListener.
  destruct (remove_last _ _) as [ls|]; [|done].
  unfold removeListener_hook. simpl.
  destruct (queuePollTimer s) as [hq|]; [|done].
  destruct (polled ev); [|done]. destruct (_ =? 0)%nat; [|done]. simpl.
  change (expiries q (without hq (timers s)) = []).
  by rewrite expiries_without, He.
Qed.

Lemma messageOfType_unborn ty timeout s :
  unborn s -> unborn (messageOfType ty timeout s).2.
Proof.
  intros Hu q Hq. unfold messageOfType, setTimeout in *. cbn [snd] in *.
  rewrite on_length in Hq. simpl in Hq. rewrite length_app in Hq.
  simpl in Hq. destruct (Hu q) as [H0 He]; [lia|].
  split.
  - match goal with
    | |- awaiting q (on ?ev ?l ?s0) = _ =>
        destruct (on_keeps q ev l s0) as [_ Ha]; [intros [= Heq]; lia|]
    end.
    by rewrite Ha.
  - unfold on, newListener_hook. simpl.
    assert (Hts : forall d,
               expiries q
                 (timers s ++ [{| handle := handles s; due := d;
                                  every := None;
                                  callback := Expire (length (promises s)) |}])
               = []).
    { intros d. rewrite expiries_app, He, expiries_cons. simpl.
      rewrite bool_decide_eq_false_2; [done|]. intros [= Heq]. lia. }
    destruct (queuePollTimer s); apply Hts.
Qed.

Lemma tick_unborn s : unborn s -> unborn (tick s).
Proof.
  intros Hu q Hq.
  assert (Hfold : forall todo s0,
             (forall t, t ∈ todo -> callback t <> Expire q) ->
             awaiting q s0 = 0%nat -> expiries q (timers s0) = [] ->
             let s' := fold_left (fun s t => fire t s) todo s0 in
             awaiting q s' = 0%nat /\ expiries q (timers s') = []).
  { induction todo as [|t todo IH]; intros s0 Hcb H0 He; simpl; [done|].
    apply IH.
    - intros u Hu'. apply Hcb. by apply list_elem_of_further.
    - unfold fire. destruct (pending (handle t) s0); [|done].
      assert (Hk : forall s1, keeps q s1 (run_callback (callback t) s1)).
      { intros s1. destruct (callback t) as [|q'] eqn:Hc; simpl;
          [by rewrite poll_shape|].
        apply expire_keeps. intros ->.
        by apply (Hcb t (list_elem_of_here _ _)). }
      destruct (every t); by rewrite (proj2 (Hk _)).
    - unfold fire. destruct (pending (handle t) s0); [|done].
      assert (Hcb' : callback t <> Expire q)
        by apply (Hcb t (list_elem_of_here _ _)).
      destruct (every t);
        match goal with
        | |- context [run_callback ?cb ?s1] =>
            destruct (run_callback_frame cb s1) as (_ & _ & _ & ->)
        end; simpl.
      + rewrite expiries_app. change (List.filter _ (timers s0))
          with (without (handle t) (timers s0)).
        rewrite expiries_without, He, expiries_cons. simpl.
        by rewrite bool_decide_eq_false_2.
      + change (List.filter _ (timers s0))
          with (without (handle t) (timers s0)).
        by rewrite expiries_without, He. }
  assert (Hlen : length (promises (tick s)) = length (promises s)).
  { rewrite tick_shape. generalize (due_now (clock s + 1) (timers s)).
    intros todo.
    change (length (promises s))
      with (length (promises (set_clock (clock s + 1) s))).
    generalize (set_clock (clock s + 1) s). intros s0. revert s0.
    induction todo as [|t todo IH]; intros s0; simpl; [done|].
    by rewrite IH, fire_length. }
  rewrite Hlen in Hq. destruct (Hu q Hq) as [H0 He].
  rewrite tick_shape. apply Hfold; try done.
  intros t Ht Hcb. apply elem_of_due_now in Ht as [Ht _]. simpl in Ht.
  assert (Hin : t ∈ expiries q (timers s)) by by apply elem_of_expiries.
  rewrite He in Hin. by apply elem_of_nil in Hin.
Qed.

Lemma step_unborn s e : unborn s -> unborn (step s e).
Proof.
  destruct e; cbn [step].
  - apply on_unborn.
  - apply off_unborn.
  - apply messageOfType_unborn.
  - apply receive_unborn.
  - apply tick_unborn.
  - done.
Qed.

Lemma reachable_unborn s : reachable s -> unborn s.
Proof.
  intros (r & es & ->).
  assert (H0 : unborn (init r)) by done.
  revert H0. generalize (init r). intros s.
  revert s. induction es as [|e es IH]; intros s Hs; simpl; [done|].
  by apply IH, step_unborn.
Qed.

End Unborn.

(** *** From the call to the settlement *)

Section Settlement.

Import Device.

(** The milliseconds that pass in a run. *)
Definition is_tick (e : Step) : bool :=
  match e with Tick => true | _ => false end.

Definition ticks (es : list Step) : Z :=
  Z.of_nat (length (List.filter is_tick es)).

Lemma ticks_cons e es :
  ticks (e :: es) = (if is_tick e then 1 else 0) + ticks es.
Proof. unfold ticks. simpl. destruct (is_tick e); simpl; lia. Qed.

Lemma ticks_nonneg es : 0 <= ticks es.
Proof. unfold ticks. lia. Qed.


Lemma step_clock s e :
  clock (step s e) = clock s + if is_tick e then 1 else 0.
Proof.
  destruct e; cbn [step is_tick]; rewrite ?Z.add_0_r.
  - unfold on, newListener_hook. by destruct (queuePollTimer s), (polled event).
  - unfold removeListener, removeListener_hook.
    destruct (remove_last _ _); [|done]. simpl.
    destruct (queuePollTimer s); [|done].
    destruct (polled event); [|done]. by destruct (_ =? 0)%nat.
  - unfold messageOfType, setTimeout. cbn [snd].
    unfold on, newListener_hook. simpl. by destruct (queuePollTimer s).
  - unfold receive. generalize (on_connection_message message). intros es.
    revert s. induction es as [|e es IH]; intros s; simpl; [done|].
    rewrite IH. destruct (emit_spec e s) as (s' & Hq & <-).
    by destruct Hq as (_&_&_&->&_).
  - apply tick_frame.
  - done.
Qed.

(** The call leaves the new promise pending, its timer set for [timeout]
    seconds on. *)
Lemma messageOfType_enters type timeout s :
  unborn s ->
  let p := length (promises s) in
  (messageOfType type timeout s).1 = p
  /\ waiting p type (clock s + timer_delay (default 5 timeout * 1000))
       (messageOfType type timeout s).2.
Proof.
  intros Hu p. split; [done|].
  destruct (Hu p) as [H0 He]; [done|].
  unfold messageOfType, setTimeout. cbn [snd].
  split; [|split].
  - rewrite on_length. simpl. apply list_lookup_middle. done.
  - unfold awaiting, on. rewrite registered_insert, decide_True by done.
    unfold newListener_hook. simpl.
    assert (Hreg : forall s0 : State,
               listeners s0 = listeners s ->
               length (filter (Awaiter p =.)
                         (registered "message" s0 ++ [Awaiter p])) = 1%nat).
    { intros s0 Hs0. unfold registered. rewrite Hs0.
      rewrite filter_app, length_app, filter_cons, decide_True by done.
      unfold awaiting, registered in H0. rewrite H0. done. }
    destruct (queuePollTimer s); by apply Hreg.
  - exists (handles s). unfold on, newListener_hook. simpl.
    assert (Hts : forall d,
               expiries p
                 (timers s ++ [{| handle := handles s; due := d;
                                  every := None; callback := Expire p |}])
               = [expiry p (handles s) d]).
    { intros d. rewrite expiries_app, He, expiries_cons. simpl.
      by rewrite bool_decide_eq_true_2. }
    destruct (queuePollTimer s); apply Hts.
Qed.


Lemma run_settled_as p type o es s :
  settled_as p type o s -> settled_as p type o (run s es).
Proof.
  intros Hs. eapply keeps_settled_as; [|exact Hs].
  apply run_finished. by eapply settled_as_finished.
Qed.

Lemma run_app s es es' : run s (es ++ es') = run (run s es) es'.
Proof. apply fold_left_app. Qed.

End Settlement.

(** How long [messageOfType(type, timeout)] waits, in milliseconds:
    [timeout] seconds, 5 by default, or one millisecond when that is less
    than 1 ms or more than the 2147483647 ms a timer can take. *)
Definition wait_ms (timeout : option Z) : Z :=
  let ms := default 5 timeout * 1000 in
  if (1 <=? ms) && (ms <=? 2147483647) then ms else 1.

Lemma timer_delay_wait_ms timeout :
  Device.timer_delay (default 5 timeout * 1000) = wait_ms timeout.
Proof.
  unfold Device.timer_delay, wait_ms. cbn zeta.
  destruct (Z.ltb_spec (default 5 timeout * 1000) 1),
    (Z.ltb_spec 2147483647 (default 5 timeout * 1000)),
    (Z.leb_spec 1 (default 5 timeout * 1000)),
    (Z.leb_spec (default 5 timeout * 1000) 2147483647); simpl; lia.
Qed.






(** Scenario: [messageOfType(SetStateMessage, 1)] with nothing arriving is
    still pending after 999 ms and rejected after 1000 ms; a
    [SetStateMessage] arriving later changes nothing. *)
Example messageOfType_one_second :
  let s := Device.init (idle_runtime (fun _ => "")) in
  let m := {| Message.type := Message.SetStateMessage;
              Message.identifier := None; Message.payload := None |} in
  let s1 := (Device.messageOfType Message.SetStateMessage (Some 1) s).2 in
  let s2 := Device.run s1 (repeat Device.Tick 999) in
  let s3 := Device.step s2 Device.Tick in
  let s4 := Device.step s3 (Device.Receive m) in
  Device.settled <$> Device.promises s2 !! 0%nat = Some None
  /\ Device.settled <$> Device.promises s3 !! 0%nat
     = Some (Some (Device.TimedOutWaitingFor Message.SetStateMessage))
  /\ Device.listeners s3 = ∅ /\ Device.timers s3 = []
  /\ Device.promises s4 = Device.promises s3
  /\ Device.listeners s4 = ∅.
Proof. vm_compute. done. Qed.

(** Scenario: the message arrives after half a second; the promise is
    resolved with it and stays so when the timer fires. *)
Example messageOfType_resolved :
  let s := Device.init (idle_runtime (fun _ => "")) in
  let m := {| Message.type := Message.SetStateMessage;
              Message.identifier := None; Message.payload := None |} in
  let s1 := (Device.messageOfType Message.SetStateMessage (Some 1) s).2 in
  let s2 := Device.run s1 (repeat Device.Tick 500 ++ [Device.Receive m]) in
  let s3 := Device.run s2 (repeat Device.Tick 500) in
  Device.settled <$> Device.promises s2 !! 0%nat
  = Some (Some (Device.ResolvedWith m))
  /\ Device.listeners s2 = ∅
  /\ Device.promises s3 = Device.promises s2
  /\ Device.timers s3 = [].
Proof. vm_compute. done. Qed.

(** * Further properties *)

(** ** Key names and key commands together *)

(** A name that [key] accepts is one of the documented ones. *)
Lemma key_Some_inv (s : string) (k : AppleTV.Key) :
  AppleTV.key s = Return (Some k) -> (s, k) ∈ key_names.
Proof.
  unfold AppleTV.key.
  repeat match goal with
         | |- context [String.eqb s ?n] =>
             destruct (String.eqb_spec s n) as [->|_];
             [intros [= <-]; unfold key_names; in_list|]
         end.
  discriminate.
Qed.

Lemma key_names_lookup (s : string) (k : AppleTV.Key) :
  (s, k) ∈ key_names -> AppleTV.key s = Return (Some k).
Proof.
  intros H. unfold key_names in H.
  repeat (apply elem_of_cons in H as [[= -> ->]|H]; [reflexivity|]).
  by apply elem_of_nil in H.
Qed.

(** X1: [key] is one-to-one from the sixteen names onto the members of the
    enum other than [Next]: no string yields [Next], two strings that yield
    the same member are the same string, and every other member has its
    name. *)
Theorem key_one_to_one :
  (forall s, AppleTV.key s <> Return (Some AppleTV.Next))
  /\ (forall s s' k, AppleTV.key s = Return (Some k) /\
                     AppleTV.key s' = Return (Some k) -> s = s')
  /\ (forall k, k = AppleTV.Next \/ exists s, AppleTV.key s = Return (Some k)).
Proof.
  split; [|split].
  - intros s H. apply key_Some_inv in H. unfold key_names in H.
    repeat (apply elem_of_cons in H as [Heq|H]; [discriminate Heq|]).
    by apply elem_of_nil in H.
  - intros s s' k [H H'].
    apply key_Some_inv in H, H'. unfold key_names in H, H'.
    repeat (apply elem_of_cons in H as [[= -> ->]|H];
            [repeat (apply elem_of_cons in H' as [Heq|H'];
                     [first [discriminate Heq | by injection Heq as ->]|]);
             by apply elem_of_nil in H'|]).
    by apply elem_of_nil in H.
  - intros k. destruct k; first [by left | right].
    all: eexists; apply key_names_lookup; unfold key_names; in_list.
Qed.

(** What [sendKeyCommand(AppleTV.key(name))] is handed. *)
Definition returned_key (c : completion (option AppleTV.Key)) : value :=
  match c with
  | Return (Some k) => VNum (AppleTV.Key_value k)
  | _ => VUndef
  end.

(** The effects of the promise a call returned, if it returned one. *)
Definition effects_of (c : completion (option (Async unit))) (r : Runtime)
  : option (list Effect) :=
  match c with
  | Return (Some m) => Some (Async.run m r).1
  | _ => None
  end.

(** X2: [sendKeyCommand(AppleTV.key(name))] returns a promise and sends
    the press frame of a key exactly when [name] is one of the sixteen
    documented names, the key being the one the name stands for; the
    release follows if the transport accepts the press, after the hold for
    ['homehold'], and does not follow if it rejects it. For any other
    string, ['next'] among them, the call returns [undefined] and nothing
    is sent. *)
Theorem sendKeyCommand_of_key (name : string) (r : Runtime) :
  effects_of (AppleTV.sendKeyCommand_js Hid.uint16_be
                (returned_key (AppleTV.key name))) r
  = match List.find (fun nk => String.eqb name nk.1) key_names with
    | Some (_, k) =>
        let press := Sent (key_frame (usage_table k).1 (usage_table k).2 true) in
        let release :=
          Sent (key_frame (usage_table k).1 (usage_table k).2 false) in
        Some (match refuses r (send_calls r) with
              | Some _ => [press]
              | None =>
                  [press]
                  ++ (if decide (k = AppleTV.HomeHold) then [Slept 1000]
                      else [])
                  ++ [release]
              end)
    | None => None
    end.
Proof.
  assert (Hkey : AppleTV.key name
                 = Return (snd <$> List.find (fun nk => String.eqb name nk.1)
                                     key_names)).
  { unfold AppleTV.key, key_names. simpl.
    repeat match goal with
           | |- context [String.eqb name ?n] =>
               destruct (String.eqb name n); [reflexivity|]
           end.
    reflexivity. }
  rewrite Hkey.
  destruct (List.find _ key_names) as [[n k]|]; simpl; [|done].
  unfold AppleTV.sendKeyCommand_js. rewrite Key_of_value_member. simpl.
  f_equal. rewrite sendKeyCommand_table, run_sendKeyPressAndRelease_outcome.
  destruct (usage_table_range k) as [Hp Hu].
  rewrite !hid_frame_bytes by done.
  destruct (refuses r (send_calls r)); [done|]. simpl.
  unfold bool_decide. by destruct (decide_rel eq k AppleTV.HomeHold);
    destruct (decide (k = AppleTV.HomeHold)).
Qed.

(** ['menu'] when the transport rejects every send, and ['next']. *)
Lemma sendKeyCommand_of_key_witness :
  effects_of (AppleTV.sendKeyCommand_js Hid.uint16_be
                (returned_key (AppleTV.key "menu")))
    (refusing_runtime "closed")
  = Some [Sent (key_frame 1 0x86 true)]
  /\ effects_of (AppleTV.sendKeyCommand_js Hid.uint16_be
                   (returned_key (AppleTV.key "next")))
       (idle_runtime (fun _ => "")) = None.
Proof.
  split.
  - exact (sendKeyCommand_of_key "menu" (refusing_runtime "closed")).
  - exact (sendKeyCommand_of_key "next" (idle_runtime (fun _ => ""))).
Defined.

(** ** Telling key events apart *)

(** A 16-bit value. *)
Definition uint16 (n : Z) : Prop := 0 <= n < 65536.

(** A writer that loses nothing of a 16-bit value. *)
Definition faithful (enc : Z -> Buffer) : Prop :=
  (forall n, length (enc n) = 2%nat)
  /\ (forall a b, uint16 a -> uint16 b -> enc a = enc b -> a = b).

Lemma hidEventData_fields (enc : Z -> Buffer) p u d p' u' d' :
  (forall n, length (enc n) = 2%nat) ->
  AppleTV.hidEventData enc p u d = AppleTV.hidEventData enc p' u' d' ->
  enc p = enc p' /\ enc u = enc u'
  /\ enc (if d then 1 else 0) = enc (if d' then 1 else 0).
Proof.
  intros Hlen. rewrite !hidEventData_split. intros H.
  apply app_inv_head in H. apply app_inv_head in H.
  rewrite <- !app_assoc in H.
  apply app_inj_1 in H as [Hp H]; [|by rewrite !Hlen].
  apply app_inj_1 in H as [Hu H]; [|by rewrite !Hlen].
  apply app_inj_1 in H as [Hd _]; [|by rewrite !Hlen].
  done.
Qed.

Lemma uint16_be_faithful : faithful Hid.uint16_be.
Proof.
  split; [done|]. unfold uint16, Hid.uint16_be. intros a b Ha Hb [= H1 H2].
  Z.to_euclidean_division_equations. lia.
Qed.

Lemma uint16_le_faithful : faithful Hid.uint16_le.
Proof.
  split; [done|]. unfold uint16, Hid.uint16_le. intros a b Ha Hb [= H1 H2].
  Z.to_euclidean_division_equations. lia.
Qed.

(** X3: the HID blob loses nothing: with a writer that is one-to-one on
    16-bit values, two calls of [sendKeyPress] with 16-bit usage pages and
    usages build the same [hidEventData] only if usage page, usage and
    press/release all agree. *)
Theorem hidEventData_injective (enc : Z -> Buffer) (p u p' u' : Z)
    (d d' : bool) :
  faithful enc ->
  uint16 p /\ uint16 u /\ uint16 p' /\ uint16 u' ->
  AppleTV.hidEventData enc p u d = AppleTV.hidEventData enc p' u' d' ->
  p = p' /\ u = u' /\ d = d'.
Proof.
  intros [Hlen Hinj] (Hp & Hu & Hp' & Hu') H.
  apply hidEventData_fields in H as (H1 & H2 & H3); [|done].
  split; [by apply Hinj|]. split; [by apply Hinj|].
  assert (Hd : (if d then 1 else 0) = (if d' then 1 else 0)).
  { apply Hinj; [destruct d|destruct d'|done]; unfold uint16; lia. }
  destruct d, d'; done.
Qed.

(** The big-endian writer, [Menu] pressed and released. *)
Lemma hidEventData_injective_witness :
  faithful Hid.uint16_be
  /\ (uint16 1 /\ uint16 0x86 /\ uint16 1 /\ uint16 0x86)
  /\ (AppleTV.hidEventData Hid.uint16_be 1 0x86 true
      = AppleTV.hidEventData Hid.uint16_be 1 0x86 true
      -> 1 = 1 /\ 0x86 = 0x86 /\ true = true).
Proof.
  assert (Hr : uint16 1 /\ uint16 0x86 /\ uint16 1 /\ uint16 0x86)
    by (unfold uint16; lia).
  split; [exact uint16_be_faithful|]. split; [exact Hr|].
  exact (hidEventData_injective Hid.uint16_be 1 0x86 1 0x86 true true
           uint16_be_faithful Hr).
Defined.

Lemma usage_table_uint16 (k : AppleTV.Key) :
  uint16 (usage_table k).1 /\ uint16 (usage_table k).2.
Proof. unfold uint16. destruct k; simpl; lia. Qed.

Lemma hid_frame_inj enc p u d p' u' d' :
  hid_frame enc p u d = hid_frame enc p' u' d' ->
  AppleTV.hidEventData enc p u d = AppleTV.hidEventData enc p' u' d'.
Proof.
  intros H. apply (f_equal body) in H. simpl in H.
  apply (f_equal (.!! "hidEventData")) in H.
  rewrite !lookup_singleton_eq in H. congruence.
Qed.

(** The frames among the effects. *)
Definition frames_of (es : list Effect) : list SendCall :=
  omap (fun e => match e with Sent c => Some c | Slept _ => None end) es.

(** X4: what the effects of a key command tell about the key, with a
    writer that is one-to-one on 16-bit values. Two keys whose
    [sendKeyCommand] has the same effects have the same usage page and
    usage, and are the same key if the transport accepted the press.
    [Home] and [HomeHold] send the very same frames: when the press is
    accepted they differ by the 1000 ms between press and release alone,
    and when it is rejected their effects are the same. *)
Theorem sendKeyCommand_injective (enc : Z -> Buffer) (k k' : AppleTV.Key)
    (r : Runtime) :
  faithful enc ->
  ((Async.run (AppleTV.sendKeyCommand enc k) r).1
   = (Async.run (AppleTV.sendKeyCommand enc k') r).1 ->
   usage_table k = usage_table k'
   /\ (refuses r (send_calls r) = None -> k = k'))
  /\ frames_of (Async.run (AppleTV.sendKeyCommand enc AppleTV.Home) r).1
     = frames_of (Async.run (AppleTV.sendKeyCommand enc AppleTV.HomeHold) r).1
  /\ (Async.run (AppleTV.sendKeyCommand enc AppleTV.Home) r).1
     = match refuses r (send_calls r) with
       | Some _ => [Sent (hid_frame enc 12 0x40 true)]
       | None => [Sent (hid_frame enc 12 0x40 true);
                  Sent (hid_frame enc 12 0x40 false)]
       end
  /\ (Async.run (AppleTV.sendKeyCommand enc AppleTV.HomeHold) r).1
     = match refuses r (send_calls r) with
       | Some _ => [Sent (hid_frame enc 12 0x40 true)]
       | None => [Sent (hid_frame enc 12 0x40 true); Slept 1000;
                  Sent (hid_frame enc 12 0x40 false)]
       end.
Proof.
  intros Hf. rewrite !sendKeyCommand_table.
  rewrite !run_sendKeyPressAndRelease_outcome.
  split; [|by destruct (refuses r (send_calls r))].
  intros H.
  assert (Hframe : hid_frame enc (usage_table k).1 (usage_table k).2 true
                   = hid_frame enc (usage_table k').1 (usage_table k').2 true).
  { destruct (refuses r (send_calls r)); simpl in H; congruence. }
  apply hid_frame_inj in Hframe.
  destruct (usage_table_uint16 k) as [Hp Hu].
  destruct (usage_table_uint16 k') as [Hp' Hu'].
  apply hidEventData_fields in Hframe as (H1 & H2 & _); [|apply Hf].
  destruct Hf as [_ Hinj].
  apply Hinj in H1; [|done|done]. apply Hinj in H2; [|done|done].
  split.
  { destruct (usage_table k), (usage_table k'). simpl in *. congruence. }
  intros Hok. rewrite Hok in H. apply (f_equal length) in H.
  destruct k, k'; try done; simpl in *; try discriminate; try lia.
Qed.

(** [Home] and [HomeHold] under the big-endian writer, the press
    accepted. *)
Lemma sendKeyCommand_injective_witness :
  faithful Hid.uint16_be
  /\ (Async.run (AppleTV.sendKeyCommand Hid.uint16_be AppleTV.HomeHold)
        (idle_runtime (fun _ => ""))).1
     = [Sent (hid_frame Hid.uint16_be 12 0x40 true); Slept 1000;
        Sent (hid_frame Hid.uint16_be 12 0x40 false)].
Proof.
  split; [exact uint16_be_faithful|].
  exact (proj2 (proj2 (proj2
    (sendKeyCommand_injective Hid.uint16_be AppleTV.Home AppleTV.HomeHold
       (idle_runtime (fun _ => "")) uint16_be_faithful)))).
Defined.

(** ** More on the playback-queue request *)

(** How the request settles: as the transport decides on the one send. *)
Lemma requestPlaybackQueueWithWait_outcome options wait r o :
  heap r !! options = Some o ->
  AppleTV.requestPlaybackQueueWithWait options wait r
  = ({| heap := <[options := request_params (rand r (uuid_calls r)) o]> (heap r);
        rand := rand r; uuid_calls := S (uuid_calls r);
        refuses := refuses r; send_calls := S (send_calls r);
        wire := wire r
                ++ [Sent (playback_request
                            (request_params (rand r (uuid_calls r)) o) wait)] |},
     match refuses r (send_calls r) with
     | None => Resolved tt
     | Some e => Rejected e
     end).
Proof.
  intros Ho.
  destruct (requestPlaybackQueueWithWait_run options wait r o Ho) as (out & Hrun).
  rewrite Hrun. f_equal.
  assert (Hout : (AppleTV.requestPlaybackQueueWithWait options wait r).2 = out)
    by by rewrite Hrun.
  rewrite <- Hout. clear Hrun Hout.
  unfold AppleTV.requestPlaybackQueueWithWait.
  erewrite bind_run; [|reflexivity].
  erewrite bind_run; [|apply modify_run; simpl; exact Ho].
  erewrite bind_run; [|reflexivity].
  simpl heap at 1. rewrite lookup_insert_eq. simpl default.
  destruct (truthy _).
  - erewrite bind_run; cycle 1.
    { erewrite bind_run; [|apply modify_run; simpl; apply lookup_insert_eq].
      erewrite bind_run; [|apply modify_run; simpl; apply lookup_insert_eq].
      apply modify_run. simpl. apply lookup_insert_eq. }
    erewrite bind_run; [|reflexivity].
    unfold Async.sendMessage. simpl.
    by destruct (refuses r (send_calls r)).
  - erewrite bind_run; [|reflexivity].
    erewrite bind_run; [|reflexivity].
    unfold Async.sendMessage. simpl.
    by destruct (refuses r (send_calls r)).
Qed.

(** The properties the request writes to. *)
Definition request_fields : list string :=
  ["requestID"; "artworkSize"; "artworkWidth"; "artworkHeight"].

Lemma request_params_other u (o : obj) k :
  k ∉ request_fields -> request_params u o !! k = o !! k.
Proof.
  unfold request_fields. rewrite !not_elem_of_cons.
  intros (H1 & H2 & H3 & H4 & _). unfold request_params.
  destruct (truthy _).
  - rewrite lookup_delete_ne by done. by rewrite !lookup_insert_ne.
  - by rewrite lookup_insert_ne.
Qed.

Lemma request_params_no_artwork u (o : obj) k :
  truthy (get o "artworkSize") = false -> k <> "requestID" ->
  request_params u o !! k = o !! k.
Proof.
  intros Hf Hk. unfold request_params. rewrite Hf.
  by rewrite lookup_insert_ne.
Qed.

(** X5: [requestPlaybackQueueWithWait] writes to four properties of the
    caller's object and to no other: whatever else the object holds
    (location, length, the include flags) is as the caller put it, and
    when there is no artworkSize to move only requestID changes. *)
Theorem requestPlaybackQueue_keeps_other_fields (options : nat) (o : obj)
    (wait : bool) (r : Runtime) (k : string) :
  heap r !! options = Some o ->
  exists o',
    heap (AppleTV.requestPlaybackQueueWithWait options wait r).1 !! options
    = Some o'
    /\ (k ∉ request_fields -> o' !! k = o !! k)
    /\ (truthy (get o "artworkSize") = false -> k <> "requestID" ->
        o' !! k = o !! k).
Proof.
  intros Ho. rewrite (requestPlaybackQueueWithWait_outcome _ _ _ _ Ho). simpl.
  eexists. split; [apply lookup_insert_eq|].
  split; [apply request_params_other|apply request_params_no_artwork].
Qed.

(** An object with [location], [length] and [includeMetadata]. *)
Lemma requestPlaybackQueue_keeps_other_fields_witness :
  let o : obj := list_to_map [("location", VNum 3); ("length", VNum 10);
                              ("includeMetadata", VBool true)] in
  let r := {| heap := {[ 0%nat := o ]}; rand := fun _ => "4b1d";
              uuid_calls := 0; refuses := fun _ => None; send_calls := 0;
              wire := [] |} in
  heap r !! 0%nat = Some o
  /\ exists o',
       heap (AppleTV.requestPlaybackQueueWithWait 0 false r).1 !! 0%nat
       = Some o'
       /\ o' !! "includeMetadata" = Some (VBool true).
Proof.
  intros o r.
  assert (Ho : heap r !! 0%nat = Some o) by reflexivity.
  split; [exact Ho|].
  destruct (requestPlaybackQueue_keeps_other_fields 0 o false r
              "includeMetadata" Ho) as (o' & H1 & _ & H2).
  exists o'. split; [exact H1|].
  rewrite H2; [reflexivity|reflexivity|discriminate].
Defined.

Lemma request_params_twice u1 u2 (o : obj) :
  request_params u2 (request_params u1 o) = request_params u2 o.
Proof.
  unfold request_params at 2 3.
  destruct (truthy (get o "artworkSize")) eqn:Ht.
  - unfold request_params, get. rewrite lookup_delete_eq. simpl.
    apply map_eq. intros k.
    destruct (decide (k = "requestID")) as [->|H1].
    { rewrite lookup_insert_eq, lookup_delete_ne by done.
      by rewrite !lookup_insert_ne, lookup_insert_eq by done. }
    rewrite lookup_insert_ne by done.
    destruct (decide (k = "artworkSize")) as [->|H2].
    { by rewrite !lookup_delete_eq. }
    rewrite !lookup_delete_ne by done.
    destruct (decide (k = "artworkHeight")) as [->|H3].
    { by rewrite !lookup_insert_eq. }
    rewrite !(lookup_insert_ne _ "artworkHeight") by done.
    destruct (decide (k = "artworkWidth")) as [->|H4].
    { by rewrite !lookup_insert_eq. }
    rewrite !(lookup_insert_ne _ "artworkWidth") by done.
    by rewrite !lookup_insert_ne.
  - unfold request_params. rewrite get_insert_ne by done. rewrite Ht.
    apply insert_insert_eq.
Qed.

(** X6: asking twice with the same object: the second request is what a
    first request with the second identifier would have been. The
    artworkSize the first call moved is not missed: artworkWidth and
    artworkHeight are still there, and requestID is overwritten. *)
Theorem requestPlaybackQueue_twice (options : nat) (o : obj) (r : Runtime) :
  heap r !! options = Some o ->
  let u1 := rand r (uuid_calls r) in
  let u2 := rand r (S (uuid_calls r)) in
  let r1 := (AppleTV.requestPlaybackQueue options r).1 in
  let r2 := (AppleTV.requestPlaybackQueue options r1).1 in
  heap r2 !! options = Some (request_params u2 o)
  /\ drop (length (wire r)) (wire r2)
     = [Sent (playback_request (request_params u1 o) true);
        Sent (playback_request (request_params u2 o) true)].
Proof.
  intros Ho u1 u2 r1 r2. subst r1 r2. unfold AppleTV.requestPlaybackQueue.
  rewrite (requestPlaybackQueueWithWait_outcome _ _ _ _ Ho). cbn [fst].
  erewrite requestPlaybackQueueWithWait_outcome
    by (simpl; apply lookup_insert_eq).
  simpl. rewrite request_params_twice. fold u1 u2.
  split; [apply lookup_insert_eq|].
  by rewrite <- app_assoc, drop_app_length.
Qed.

(** An object with an artworkSize, asked for twice. *)
Lemma requestPlaybackQueue_twice_witness :
  let o : obj := list_to_map [("location", VNum 0); ("length", VNum 1);
                   ("artworkSize", VSize {| width := 600; height := 400 |})] in
  let r := {| heap := {[ 0%nat := o ]};
              rand := fun n => if (n =? 0)%nat then "a" else "b";
              uuid_calls := 0; refuses := fun _ => None; send_calls := 0;
              wire := [] |} in
  heap r !! 0%nat = Some o
  /\ heap (AppleTV.requestPlaybackQueue 0
             (AppleTV.requestPlaybackQueue 0 r).1).1 !! 0%nat
     = Some (request_params "b" o).
Proof.
  intros o r.
  assert (Ho : heap r !! 0%nat = Some o) by reflexivity.
  split; [exact Ho|].
  exact (proj1 (requestPlaybackQueue_twice 0 o r Ho)).
Defined.

(** X7: a request the transport rejects has changed the caller's object
    all the same: the promise is rejected with the transport's error, and
    the object holds the new requestID (and the moved artwork size), since
    it is written before anything is sent. *)
Theorem requestPlaybackQueue_rejected_still_mutates (options : nat) (o : obj)
    (r : Runtime) (e : string) :
  heap r !! options = Some o ->
  refuses r (send_calls r) = Some e ->
  let '(r', out) := AppleTV.requestPlaybackQueue options r in
  out = Rejected e
  /\ heap r' !! options = Some (request_params (rand r (uuid_calls r)) o)
  /\ uuid_calls r' = S (uuid_calls r).
Proof.
  intros Ho He. unfold AppleTV.requestPlaybackQueue.
  rewrite (requestPlaybackQueueWithWait_outcome _ _ _ _ Ho), He. simpl.
  split; [done|]. split; [apply lookup_insert_eq|done].
Qed.

(** A transport that is down. *)
Lemma requestPlaybackQueue_rejected_still_mutates_witness :
  let o : obj := list_to_map [("location", VNum 0); ("length", VNum 1)] in
  let r := {| heap := {[ 0%nat := o ]}; rand := fun _ => "4b1d";
              uuid_calls := 0; refuses := fun _ => Some "closed";
              send_calls := 0; wire := [] |} in
  heap r !! 0%nat = Some o
  /\ refuses r (send_calls r) = Some "closed"
  /\ (AppleTV.requestPlaybackQueue 0 r).2 = Rejected "closed"
  /\ heap (AppleTV.requestPlaybackQueue 0 r).1 !! 0%nat
     = Some (request_params "4b1d" o).
Proof.
  intros o r.
  assert (Ho : heap r !! 0%nat = Some o) by reflexivity.
  assert (He : refuses r (send_calls r) = Some "closed") by reflexivity.
  split; [exact Ho|]. split; [exact He|].
  pose proof (requestPlaybackQueue_rejected_still_mutates 0 o r "closed" Ho He)
    as H.
  destruct (AppleTV.requestPlaybackQueue 0 r) as [r' out].
  destruct H as (H1 & H2 & _). split; [exact H1|exact H2].
Defined.

(** ** Subscribing and unsubscribing *)

Lemma remove_last_snoc l ls : Device.remove_last l (ls ++ [l]) = Some ls.
Proof.
  induction ls as [|x ls IH]; simpl.
  - by rewrite decide_True.
  - by rewrite IH.
Qed.

Lemma without_fresh h ts :
  Forall (fun t => (Device.handle t < h)%nat) ts -> without h ts = ts.
Proof.
  induction 1 as [|t ts Ht _ IH]; [done|].
  rewrite without_cons, IH.
  destruct (Nat.eqb_spec (Device.handle t) h); [lia|done].
Qed.

(** X8: subscribing and at once unsubscribing the same listener undoes
    itself: every event has the listeners it had, and the timers, the
    polling handle, the promises, the clock and what has been sent are as
    before. A polling timer started for the subscription is cleared
    again. *)
Theorem subscribe_unsubscribe (event : string) (id : nat) (s : Device.State) :
  Device.reachable s ->
  let s' := Device.step (Device.step s (Device.On event id))
              (Device.Off event id) in
  (forall ev, Device.registered ev s' = Device.registered ev s)
  /\ Device.timers s' = Device.timers s
  /\ Device.queuePollTimer s' = Device.queuePollTimer s
  /\ Device.promises s' = Device.promises s
  /\ Device.clock s' = Device.clock s
  /\ Device.sent s' = Device.sent s.
Proof.
  intros Hreach. pose proof (reachable_polling_inv s Hreach) as [[_ Hlt] Hinv].
  cbn [Device.step]. set (l := Device.Subscriber id).
  unfold Device.on.
  set (s1 := Device.newListener_hook event s).
  assert (Hreg1 : Device.registered event s1 = Device.registered event s).
  { subst s1. unfold Device.newListener_hook.
    by destruct (Device.queuePollTimer s), (Device.polled event). }
  set (m := <[event := Device.registered event s1 ++ [l]]> (Device.listeners s1)).
  unfold Device.removeListener.
  assert (Hreg : Device.registered event (Device.set_listeners m s1)
                 = Device.registered event s ++ [l]).
  { subst m. rewrite registered_insert, decide_True by done. by rewrite Hreg1. }
  rewrite Hreg, remove_last_snoc.
  set (ls := Device.registered event s).
  set (m' := match ls with
             | [] => delete event (Device.listeners (Device.set_listeners m s1))
             | _ => <[event := ls]> (Device.listeners (Device.set_listeners m s1))
             end).
  set (s2 := Device.set_listeners m' (Device.set_listeners m s1)).
  assert (Hregs : forall ev, Device.registered ev s2 = Device.registered ev s).
  { intros ev. subst s2 m'. rewrite registered_removed.
    destruct (decide (event = ev)) as [<-|Hne]; [done|].
    subst m. rewrite registered_insert, decide_False by done.
    subst s1. unfold Device.newListener_hook, Device.registered.
    by destruct (Device.queuePollTimer s), (Device.polled event). }
  assert (Hsubs : (Device.listenerCount "nowPlaying" s2
                   + Device.listenerCount "supportedCommands" s2)%nat
                  = Device.subscribers s).
  { unfold Device.subscribers, Device.listenerCount. by rewrite !Hregs. }
  unfold Device.removeListener_hook. rewrite Hsubs.
  subst s2 s1. unfold Device.newListener_hook in *.
  destruct (Device.queuePollTimer s) as [h|] eqn:Hq.
  - simpl. rewrite Hq.
    destruct Hinv as (Hpos & _).
    destruct (Device.polled event); [|by split].
    destruct (Nat.eqb_spec (Device.subscribers s) 0) as [H0|_]; [lia|].
    by split.
  - destruct Hinv as [Hnone H0].
    destruct (Device.polled event) eqn:Hev; simpl; [|rewrite Hq; by split].
    rewrite H0. simpl. split; [done|]. split; [|done].
    change (without (Device.handles s)
              (Device.timers s
               ++ [poll_timer (Device.handles s) (Device.clock s + 5000)])
            = Device.timers s).
    unfold without. rewrite List.filter_app. simpl.
    rewrite Nat.eqb_refl. simpl. rewrite app_nil_r.
    by apply without_fresh.
Qed.

(** The first subscriber of a fresh device comes and goes. *)
Lemma subscribe_unsubscribe_witness :
  let s := Device.init (idle_runtime (fun _ => "")) in
  Device.reachable s
  /\ Device.timers (Device.step (Device.step s (Device.On "nowPlaying" 1))
                      (Device.Off "nowPlaying" 1)) = Device.timers s.
Proof.
  intros s.
  assert (Hs : Device.reachable s) by (by exists (idle_runtime (fun _ => "")), []).
  split; [exact Hs|].
  exact (proj1 (proj2 (subscribe_unsubscribe "nowPlaying" 1 s Hs))).
Defined.

(** ** What the polling does and does not send *)

(** A step that cannot start the polling: anything but a subscription to
    one of the two polled events. *)
Definition unpolled (e : Device.Step) : bool :=
  match e with
  | Device.On event _ => negb (Device.polled event)
  | _ => true
  end.

Lemma idle_no_timer s :
  polling_inv s -> Device.subscribers s = 0%nat ->
  Device.queuePollTimer s = None /\ Device.poll_timers s = [].
Proof.
  intros [_ Hinv] H0. destruct (Device.queuePollTimer s).
  - destruct Hinv as [Hpos _]. lia.
  - by destruct Hinv.
Qed.

Lemma step_subscribers s e :
  unpolled e = true ->
  (Device.subscribers (Device.step s e) <= Device.subscribers s)%nat.
Proof.
  destruct e; cbn [Device.step unpolled]; intros He.
  - rewrite on_subscribers. destruct (Device.polled event); [done|lia].
  - apply removeListener_subscribers.
  - by rewrite messageOfType_subscribers.
  - by rewrite receive_subscribers.
  - by destruct (tick_frame s) as (_ & _ & ->).
  - done.
Qed.

(** X9: while the only subscriptions are to events other than
    ['nowPlaying'] and ['supportedCommands'], a device without subscribers
    to these two never polls: whatever else happens (other subscriptions,
    waiters, inbound messages, time passing, the link going up and down), no
    polling timer is set and nothing is sent. *)
Theorem unpolled_events_never_poll (s : Device.State) (es : list Device.Step) :
  Device.reachable s ->
  Device.subscribers s = 0%nat ->
  forallb unpolled es = true ->
  let s' := Device.run s es in
  Device.queuePollTimer s' = None
  /\ Device.poll_timers s' = []
  /\ Device.sent s' = Device.sent s.
Proof.
  intros Hreach. apply reachable_polling_inv in Hreach. revert s Hreach.
  induction es as [|e es IH]; intros s Hinv H0 Hes; cbn [Device.run fold_left].
  - destruct (idle_no_timer s Hinv H0). by repeat split.
  - cbn [forallb] in Hes. apply andb_true_iff in Hes as [He Hes].
    pose proof (step_subscribers s e He) as Hle.
    pose proof (step_sent s e Hinv) as Hsent.
    assert (Hnil : match e with
                   | Device.Tick => tick_request s | _ => [] end = []).
    { destruct e; try done. unfold tick_request.
      by destruct (idle_no_timer s Hinv H0) as [_ ->]. }
    rewrite Hnil, app_nil_r in Hsent. rewrite <- Hsent.
    apply IH; [by apply step_polling_inv|lia|done].
Qed.

(** A play-queue subscriber, a waiter and ten seconds. *)
Lemma unpolled_events_never_poll_witness :
  let s := Device.init (idle_runtime (fun _ => "")) in
  let es := [Device.Link true; Device.On "playbackQueue" 1;
             Device.MessageOfType Message.SetStateMessage None]
            ++ repeat Device.Tick 10000 in
  Device.reachable s
  /\ Device.subscribers s = 0%nat
  /\ forallb unpolled es = true
  /\ Device.sent (Device.run s es) = Device.sent s.
Proof.
  intros s es.
  assert (Hs : Device.reachable s) by (by exists (idle_runtime (fun _ => "")), []).
  assert (Hes : forallb unpolled es = true) by (by vm_compute).
  split; [exact Hs|]. split; [reflexivity|]. split; [exact Hes|].
  exact (proj2 (proj2 (unpolled_events_never_poll s es Hs eq_refl Hes))).
Defined.

Lemma run_ticks_closed n s h d :
  polling_inv s ->
  Device.poll_timers s = [poll_timer h d] ->
  Device.isOpen s = false ->
  let s' := Device.run s (repeat Device.Tick n) in
  Device.sent s' = Device.sent s
  /\ Device.isOpen s' = false
  /\ Device.queuePollTimer s' = Device.queuePollTimer s
  /\ exists d', Device.poll_timers s' = [poll_timer h d']
                /\ Device.clock s' < d'.
Proof.
  revert s d. induction n as [|n IH]; intros s d Hinv Hpoll Hopen;
    cbn [repeat Device.run fold_left Device.step].
  - repeat split; try done. exists d. split; [done|].
    destruct Hinv as [_ Hinv]. destruct (Device.queuePollTimer s).
    + destruct Hinv as (_ & d' & Hd' & Hlt). rewrite Hpoll in Hd'.
      injection Hd' as ->. lia.
    + destruct Hinv as [Hnil _]. by rewrite Hpoll in Hnil.
  - pose proof (tick_polling_inv s Hinv) as Hinv'.
    pose proof (tick_poll_timers s h d Hinv Hpoll) as Hpoll'.
    destruct (tick_runtime s Hinv) as [_ Hopen']. rewrite Hopen in Hopen'.
    destruct (tick_sent s Hinv) as [Hsent _].
    destruct (tick_frame s) as (_ & Hq & _).
    unfold tick_request in Hsent. rewrite Hpoll, Hopen, andb_false_r in Hsent.
    rewrite app_nil_r in Hsent.
    destruct (IH (Device.tick s) _ Hinv' Hpoll' Hopen') as (H1 & H2 & H3 & H4).
    fold (Device.run (Device.tick s) (repeat Device.Tick n)).
    by rewrite H1, H2, H3, Hsent, Hq.
Qed.

(** X10: closing the link does not stop the polling timer, it only mutes
    it: with subscribers present the timer stays pending and keeps coming
    due, but for as long as the link is down no request is sent. *)
Theorem polling_muted_while_closed (n : nat) (s : Device.State) :
  Device.reachable s ->
  (0 < Device.subscribers s)%nat ->
  let s' := Device.run (Device.step s (Device.Link false))
              (repeat Device.Tick n) in
  Device.sent s' = Device.sent s
  /\ Device.queuePollTimer s' = Device.queuePollTimer s
  /\ exists h d, Device.queuePollTimer s = Some h
                 /\ Device.poll_timers s' = [poll_timer h d]
                 /\ Device.clock s' < d.
Proof.
  intros Hreach Hpos. pose proof (reachable_polling_inv s Hreach) as Hinv.
  pose proof Hinv as [_ Hq].
  destruct (Device.queuePollTimer s) as [h|] eqn:Hh.
  2: { destruct Hq as [_ H0]. lia. }
  destruct Hq as (_ & d & Hpoll & _).
  set (s0 := Device.step s (Device.Link false)).
  assert (Hinv0 : polling_inv s0) by (by apply step_polling_inv).
  destruct (run_ticks_closed n s0 h d Hinv0 Hpoll eq_refl)
    as (H1 & _ & H3 & d' & H4 & H5).
  split; [exact H1|]. split; [by rewrite H3|].
  exists h, d'. by repeat split.
Qed.

(** A subscriber of a device whose link is down, for a minute. *)
Lemma polling_muted_while_closed_witness :
  let s := Device.run (Device.init (idle_runtime (fun _ => "")))
             [Device.Link true; Device.On "nowPlaying" 1] in
  Device.reachable s
  /\ (0 < Device.subscribers s)%nat
  /\ Device.sent (Device.run (Device.step s (Device.Link false))
                    (repeat Device.Tick 60000)) = Device.sent s.
Proof.
  intros s.
  assert (Hs : Device.reachable s).
  { by exists (idle_runtime (fun _ => "")),
              [Device.Link true; Device.On "nowPlaying" 1]. }
  assert (Hpos : (0 < Device.subscribers s)%nat) by (vm_compute; lia).
  split; [exact Hs|]. split; [exact Hpos|].
  exact (proj1 (polling_muted_while_closed 60000 s Hs Hpos)).
Defined.

(** The polling requests for the [n] identifiers drawn from [i] on. *)
Definition poll_requests (rand : nat -> string) (i n : nat) : list SendCall :=
  (fun k => playback_request (poll_body (rand k)) false) <$> seq i n.

Lemma poll_requests_snoc rand i n :
  poll_requests rand i (S n)
  = poll_requests rand i n
    ++ [playback_request (poll_body (rand (i + n)%nat)) false].
Proof. unfold poll_requests. by rewrite seq_S, fmap_app. Qed.

Lemma step_runtime s e :
  polling_inv s ->
  rand (Device.runtime (Device.step s e)) = rand (Device.runtime s)
  /\ uuid_calls (Device.runtime (Device.step s e))
     = (uuid_calls (Device.runtime s)
        + length (match e with
                  | Device.Tick => tick_request s | _ => [] end))%nat.
Proof.
  intros Hinv. destruct e; cbn [Device.step length].
  - rewrite (proj1 (on_runtime _ _ _)). split; [done|lia].
  - rewrite (proj1 (removeListener_runtime _ _ _)). split; [done|lia].
  - unfold Device.messageOfType, Device.setTimeout. cbn [snd].
    rewrite (proj1 (on_runtime _ _ _)). split; [done|simpl; lia].
  - rewrite (proj1 (receive_runtime _ _)). split; [done|lia].
  - destruct (tick_sent s Hinv) as [_ Hcalls]. split; [|exact Hcalls].
    destruct (tick_runtime s Hinv) as [-> _].
    destruct (Device.poll_timers s) as [|t ?]; [done|].
    destruct (Device.due t =? _); [|done].
    destruct (Device.isOpen s); [|done].
    by destruct (poll_runtime_wire (Device.runtime s)) as (_ & _ & ->).
  - split; [done|simpl; lia].
Qed.

(** X11: the device sends nothing of its own accord but polling requests,
    and each takes the next identifier: after any run from the constructor,
    what has been sent is what had been sent before, followed by one
    polling request for each identifier drawn since, in the order drawn. *)
Theorem sent_by_the_loop (r : Runtime) (es : list Device.Step) :
  let s := Device.run (Device.init r) es in
  let n := (uuid_calls (Device.runtime s) - uuid_calls r)%nat in
  rand (Device.runtime s) = rand r
  /\ uuid_calls (Device.runtime s) = (uuid_calls r + n)%nat
  /\ Device.sent s
     = Device.sent (Device.init r) ++ poll_requests (rand r) (uuid_calls r) n.
Proof.
  cbn zeta.
  enough (H : forall s,
    polling_inv s ->
    rand (Device.runtime s) = rand r ->
    (exists n, uuid_calls (Device.runtime s) = (uuid_calls r + n)%nat
               /\ Device.sent s
                  = Device.sent (Device.init r)
                    ++ poll_requests (rand r) (uuid_calls r) n) ->
    let s' := Device.run s es in
    rand (Device.runtime s') = rand r
    /\ exists n, uuid_calls (Device.runtime s') = (uuid_calls r + n)%nat
                 /\ Device.sent s'
                    = Device.sent (Device.init r)
                      ++ poll_requests (rand r) (uuid_calls r) n).
  { destruct (H (Device.init r) (init_polling_inv r) eq_refl)
      as (Hrand & n & Hn & Hsent).
    { exists 0%nat. split; [simpl; lia|]. by rewrite app_nil_r. }
    split; [exact Hrand|]. rewrite Hn.
    replace (uuid_calls r + n - uuid_calls r)%nat with n by lia.
    by split. }
  induction es as [|e es IH]; intros s Hinv Hrand Hn;
    cbn [Device.run fold_left]; [by split|].
  destruct (step_runtime s e Hinv) as [Hrand' Hcalls].
  pose proof (step_sent s e Hinv) as Hsent.
  apply IH; [by apply step_polling_inv|congruence|].
  destruct Hn as (n & Hn & Hs).
  set (req := match e with Device.Tick => tick_request s | _ => [] end) in *.
  assert (Hreq : req = [] \/
                 req = [playback_request
                          (poll_body (rand r (uuid_calls r + n)%nat)) false]).
  { subst req. destruct e; try by left. unfold tick_request.
    destruct (Device.poll_timers s); [by left|].
    destruct (_ && _); [|by left]. right. by rewrite Hrand, Hn. }
  destruct Hreq as [Hreq|Hreq]; rewrite Hreq in *.
  - exists n. split; [simpl in Hcalls; lia|].
    by rewrite Hsent, app_nil_r.
  - exists (S n). split; [simpl in Hcalls; lia|].
    by rewrite Hsent, Hs, poll_requests_snoc, app_assoc.
Qed.

(** ** What a millisecond does to the timers *)

(** The timers that are not due at [c]. *)
Definition not_due (c : Z) (ts : list Device.Timer) : list Device.Timer :=
  List.filter (fun t => negb (Device.due t <=? c)) ts.

Lemma filter_id {A} (P : A -> Prop) `{forall x, Decision (P x)} (l : list A) :
  Forall P l -> filter P l = l.
Proof.
  induction 1 as [|x l Hx _ IH]; [done|].
  by rewrite filter_cons_True, IH.
Qed.

Lemma run_callback_wf cb s :
  timers_wf s -> timers_wf (Device.run_callback cb s).
Proof.
  destruct cb as [|q]; simpl; [by rewrite poll_shape|].
  apply quiet_timers_wf, expire_quiet.
Qed.

Lemma filter_without h hs ts :
  filter (fun u => Device.handle u ∉ hs) (without h ts)
  = filter (fun u => Device.handle u ∉ h :: hs) ts.
Proof.
  induction ts as [|u ts IH]; [done|]. rewrite without_cons.
  destruct (Nat.eqb_spec (Device.handle u) h) as [Heq|Hne].
  - rewrite IH, (filter_cons_False _ u); [done|].
    intros Hu. apply Hu. rewrite Heq. apply list_elem_of_here.
  - rewrite !filter_cons, IH.
    destruct (decide (Device.handle u ∉ hs)) as [Hu|Hu].
    + rewrite decide_True; [done|].
      intros [?|?]%elem_of_cons; done.
    + rewrite decide_False; [done|].
      intros Hu'. apply Hu. intros Hin. apply Hu'. by apply list_elem_of_further.
Qed.

Lemma fire_all_timers todo s :
  timers_wf s -> NoDup (Device.handle <$> todo) ->
  (forall t, t ∈ todo -> t ∈ Device.timers s) ->
  Device.timers (fold_left (fun s t => Device.fire t s) todo s)
  = filter (fun u => Device.handle u ∉ Device.handle <$> todo) (Device.timers s)
    ++ flat_map resched todo.
Proof.
  revert s. induction todo as [|t todo IH]; intros s Hwf Hnd Hin;
    cbn [fold_left flat_map].
  - rewrite app_nil_r, filter_id; [done|].
    apply Forall_forall. intros u _. apply not_elem_of_nil.
  - assert (Ht : t ∈ Device.timers s) by apply Hin, list_elem_of_here.
    rewrite fmap_cons in Hnd. apply NoDup_cons in Hnd as [Hfresh Hnd].
    rewrite fire_pending by done.
    set (s1 := Device.set_timers
                 (without (Device.handle t) (Device.timers s) ++ resched t) s).
    assert (Hwf1 : timers_wf s1) by by apply fired_wf.
    destruct (run_callback_frame (Device.callback t) s1) as (_ & _ & _ & Hts).
    rewrite IH; [|by apply run_callback_wf|done|].
    + rewrite Hts. subst s1. cbn [Device.timers Device.set_timers].
      rewrite filter_app, <- app_assoc, filter_without, fmap_cons.
      f_equal. f_equal.
      apply filter_id, Forall_forall. intros u Hu.
      unfold resched in Hu. destruct (Device.every t); [|by apply elem_of_nil in Hu].
      apply list_elem_of_singleton in Hu as ->. done.
    + intros u Hu. rewrite Hts. simpl. apply elem_of_app. left.
      apply elem_of_without. split; [by apply Hin, list_elem_of_further|].
      intros Heq. apply Hfresh. rewrite <- Heq.
      apply list_elem_of_fmap. by exists u.
Qed.

Lemma filter_due_handles c ts l :
  NoDup (Device.handle <$> ts) ->
  (forall u, u ∈ l -> u ∈ ts) ->
  filter (fun u => Device.handle u ∉ Device.handle <$> due_now c ts) l
  = not_due c l.
Proof.
  intros Hnd. induction l as [|u l IH]; intros Hl; [done|].
  assert (Hu : u ∈ ts) by apply Hl, list_elem_of_here.
  rewrite filter_cons, IH
    by (intros v Hv; by apply Hl, list_elem_of_further).
  change (not_due c (u :: l))
    with (if negb (Device.due u <=? c) then u :: not_due c l else not_due c l).
  destruct (Z.leb_spec (Device.due u) c) as [Hdue|Hdue]; cbn [negb].
  - rewrite decide_False; [done|]. intros Hno. apply Hno.
    apply list_elem_of_fmap. exists u. split; [done|].
    by apply elem_of_due_now.
  - rewrite decide_True; [done|].
    intros (t & Heq & Ht)%list_elem_of_fmap.
    apply elem_of_due_now in Ht as [Ht Hd].
    rewrite (timer_by_handle ts u t Hnd Hu Ht Heq) in Hdue. lia.
Qed.

Lemma tick_fires s :
  timers_wf s ->
  Device.timers (Device.tick s)
  = not_due (Device.clock s + 1) (Device.timers s)
    ++ flat_map resched (due_now (Device.clock s + 1) (Device.timers s)).
Proof.
  intros Hwf. rewrite tick_shape, fire_all_timers.
  - simpl. f_equal. apply filter_due_handles; [apply Hwf|done].
  - done.
  - apply due_now_NoDup, Hwf.
  - intros t Ht. by apply elem_of_due_now in Ht as [Ht _].
Qed.

(** X12: a millisecond fires exactly the timers that have come due, and
    the device's callbacks (polling, expiry of a wait) never set or clear a
    timer: afterwards the timers are those not yet due, in their order,
    then the due intervals, each one period later; the due timeouts are
    gone. *)
Theorem tick_timers (s : Device.State) :
  Device.reachable s ->
  let c := Device.clock s + 1 in
  Device.clock (Device.tick s) = c
  /\ Device.timers (Device.tick s)
     = not_due c (Device.timers s)
       ++ flat_map resched (due_now c (Device.timers s)).
Proof.
  intros [Hwf _]%reachable_polling_inv. cbn zeta.
  split; [by destruct (tick_frame s) as [-> _]|by apply tick_fires].
Qed.

(** A polling timer and a one-second wait, just before the second ends. *)
Lemma tick_timers_witness :
  let s := Device.run (Device.init (idle_runtime (fun _ => "")))
             ([Device.On "nowPlaying" 1;
               Device.MessageOfType Message.SetStateMessage (Some 1)]
              ++ repeat Device.Tick 999) in
  Device.reachable s
  /\ Device.timers (Device.tick s)
     = [poll_timer 0 5000].
Proof.
  intros s.
  assert (Hs : Device.reachable s).
  { by exists (idle_runtime (fun _ => "")),
              ([Device.On "nowPlaying" 1;
                Device.MessageOfType Message.SetStateMessage (Some 1)]
               ++ repeat Device.Tick 999). }
  split; [exact Hs|].
  rewrite (proj2 (tick_timers s Hs)). by vm_compute.
Defined.

(** ** The whole life of a wait *)

Lemma expiries_not_due p c ts :
  expiries p (not_due c ts) = not_due c (expiries p ts).
Proof.
  unfold expiries, not_due. induction ts as [|t ts IH]; [done|].
  cbn [List.filter].
  destruct (negb (Device.due t <=? c)) eqn:Hd,
           (bool_decide (Device.callback t = Device.Expire p)) eqn:Hc;
    cbn [List.filter]; rewrite ?Hd, ?Hc, IH; done.
Qed.

Lemma expiries_resched p l :
  (forall t, t ∈ l -> Device.callback t = Device.Expire p ->
             Device.every t = None) ->
  expiries p (flat_map resched l) = [].
Proof.
  induction l as [|t l IH]; intros Hl; [done|].
  cbn [flat_map]. rewrite expiries_app, IH
    by (intros u Hu; by apply Hl, list_elem_of_further).
  rewrite app_nil_r. unfold resched.
  destruct (Device.every t) as [ms|] eqn:He; [|done].
  rewrite expiries_cons. cbn [Device.callback].
  rewrite bool_decide_eq_false_2; [done|]. intros Hcb.
  specialize (Hl t (list_elem_of_here _ _) Hcb). congruence.
Qed.

(** A millisecond drops the due timers of a wait and keeps the others. *)
Lemma tick_expiries p s :
  timers_wf s ->
  Forall (fun t => Device.every t = None) (expiries p (Device.timers s)) ->
  expiries p (Device.timers (Device.tick s))
  = not_due (Device.clock s + 1) (expiries p (Device.timers s)).
Proof.
  intros Hwf Hone.
  rewrite tick_fires by done.
  rewrite expiries_app, expiries_not_due, expiries_resched.
  - apply app_nil_r.
  - intros t [Ht _]%elem_of_due_now Hcb.
    rewrite Forall_forall in Hone. apply Hone.
    by apply elem_of_expiries.
Qed.

Lemma without_other h l :
  (forall t, t ∈ l -> Device.handle t <> h) -> without h l = l.
Proof.
  induction l as [|t l IH]; intros Hl; [done|].
  rewrite without_cons, IH by (intros u Hu; by apply Hl, list_elem_of_further).
  destruct (Nat.eqb_spec (Device.handle t) h) as [Heq|_]; [|done].
  by destruct (Hl t (list_elem_of_here _ _)).
Qed.

Lemma receive_timers m s : Device.timers (Device.receive m s) = Device.timers s.
Proof.
  unfold Device.receive. generalize (on_connection_message m). intros es.
  revert s. induction es as [|e es IH]; intros s; simpl; [done|].
  rewrite IH. destruct (emit_spec e s) as (s' & Hq & ->).
  by destruct Hq as (_&_&_&_&->&_).
Qed.

(** Nothing but time removes the timer of a wait that has begun. *)
Lemma step_expiries p s e :
  polling_inv s -> (p < length (Device.promises s))%nat ->
  is_tick e = false ->
  expiries p (Device.timers (Device.step s e)) = expiries p (Device.timers s).
Proof.
  intros [[Hnd _] Hinv] Hp He. destruct e; cbn [Device.step]; try done.
  - unfold Device.on, Device.newListener_hook.
    destruct (Device.queuePollTimer s); [done|].
    destruct (Device.polled event); [|done].
    simpl. by rewrite expiries_app, app_nil_r.
  - unfold Device.removeListener.
    destruct (Device.remove_last _ _) as [ls|]; [|done].
    unfold Device.removeListener_hook. simpl.
    destruct (Device.queuePollTimer s) as [hq|]; [|done].
    destruct (Device.polled event); [|done].
    destruct (_ =? 0)%nat; [|done]. simpl.
    change (expiries p (without hq (Device.timers s))
            = expiries p (Device.timers s)).
    rewrite expiries_without. apply without_other.
    intros t [Ht Hcb]%elem_of_expiries Heq.
    destruct Hinv as (_ & d & Hpoll & _).
    assert (Hin : poll_timer hq d ∈ Device.timers s).
    { apply elem_of_polls. unfold Device.poll_timers in Hpoll.
      fold (polls (Device.timers s)) in Hpoll.
      rewrite Hpoll. apply list_elem_of_here. }
    rewrite (timer_by_handle _ t (poll_timer hq d) Hnd Ht Hin Heq) in Hcb.
    discriminate Hcb.
  - unfold Device.messageOfType, Device.setTimeout. cbn [snd].
    unfold Device.on, Device.newListener_hook. simpl.
    assert (Hts : forall d,
               expiries p
                 (Device.timers s
                  ++ [{| Device.handle := Device.handles s; Device.due := d;
                         Device.every := None;
                         Device.callback :=
                           Device.Expire (length (Device.promises s)) |}])
               = expiries p (Device.timers s)).
    { intros d. rewrite expiries_app, expiries_cons. simpl.
      rewrite bool_decide_eq_false_2, app_nil_r; [done|].
      intros [= Heq]. lia. }
    destruct (Device.queuePollTimer s); apply Hts.
  - by rewrite receive_timers.
Qed.

Lemma tick_promises_length s :
  length (Device.promises (Device.tick s)) = length (Device.promises s).
Proof.
  rewrite tick_shape. generalize (due_now (Device.clock s + 1) (Device.timers s)).
  intros todo.
  change (length (Device.promises s))
    with (length (Device.promises (Device.set_clock (Device.clock s + 1) s))).
  generalize (Device.set_clock (Device.clock s + 1) s). intros s0. revert s0.
  induction todo as [|t todo IH]; intros s0; simpl; [done|].
  by rewrite IH, fire_length.
Qed.

(** Promises are only ever added. *)
Lemma step_promises_length s e :
  (length (Device.promises s) <= length (Device.promises (Device.step s e)))%nat.
Proof.
  destruct e; cbn [Device.step].
  - by rewrite on_length.
  - by rewrite promises_removeListener.
  - unfold Device.messageOfType, Device.setTimeout. cbn [snd].
    rewrite on_length. simpl. rewrite length_app. lia.
  - by rewrite receive_length.
  - by rewrite tick_promises_length.
  - done.
Qed.

Lemma run_expiries_nil p es s :
  polling_inv s -> (p < length (Device.promises s))%nat ->
  expiries p (Device.timers s) = [] ->
  expiries p (Device.timers (Device.run s es)) = [].
Proof.
  revert s. induction es as [|e es IH]; intros s Hinv Hp He;
    cbn [Device.run fold_left]; [done|].
  apply IH.
  - by apply step_polling_inv.
  - pose proof (step_promises_length s e). lia.
  - destruct (is_tick e) eqn:Htick.
    + destruct e; try discriminate Htick. cbn [Device.step].
      rewrite tick_expiries, He; [done|apply Hinv|].
      rewrite He. apply Forall_nil_2.
    + by rewrite step_expiries.
Qed.

(** The timer of a wait is pending until its time has come, at least one
    millisecond on, and not after. *)
Lemma run_expiries p h D es s :
  polling_inv s -> (p < length (Device.promises s))%nat ->
  expiries p (Device.timers s) = [expiry p h D] ->
  expiries p (Device.timers (Device.run s es))
  = if ticks es <? Z.max 1 (D - Device.clock s) then [expiry p h D] else [].
Proof.
  revert s. induction es as [|e es IH]; intros s Hinv Hp He.
  - change (ticks []) with 0.
    destruct (Z.ltb_spec 0 (Z.max 1 (D - Device.clock s))); [done|lia].
  - change (Device.run s (e :: es)) with (Device.run (Device.step s e) es).
    rewrite ticks_cons. pose proof (ticks_nonneg es) as Hnn.
    pose proof (step_promises_length s e) as Hlen.
    pose proof (step_polling_inv s e Hinv) as Hinv'.
    pose proof (step_clock s e) as Hc.
    destruct (is_tick e) eqn:Htick.
    + destruct e; try discriminate Htick. cbn [Device.step] in *.
      pose proof (tick_expiries p s (proj1 Hinv)) as Ht.
      rewrite He in Ht. specialize (Ht ltac:(by apply Forall_singleton)).
      unfold not_due in Ht. cbn [List.filter Device.due expiry] in Ht.
      destruct (Z.leb_spec D (Device.clock s + 1)) as [Hdue|Hdue];
        cbn [negb] in Ht.
      * rewrite run_expiries_nil; [|done|lia|done].
        destruct (Z.ltb_spec (1 + ticks es) (Z.max 1 (D - Device.clock s)));
          [lia|done].
      * rewrite (IH _ Hinv'); [|lia|done]. rewrite Hc.
        destruct (Z.ltb_spec (ticks es) (Z.max 1 (D - (Device.clock s + 1)))),
                 (Z.ltb_spec (1 + ticks es) (Z.max 1 (D - Device.clock s)));
          (done || lia).
    + rewrite (IH _ Hinv'); [|lia|by rewrite step_expiries].
      by rewrite Hc, Z.add_0_r.
Qed.

(** A wait ends: by a message of its type, or by its timer. *)
Lemma run_settles p type D es s :
  polling_inv s -> waiting p type D s ->
  Z.max 1 (D - Device.clock s) <= ticks es ->
  exists o, settled_as p type o (Device.run s es)
            /\ (o = Device.TimedOutWaitingFor type
                \/ exists m, o = Device.ResolvedWith m
                             /\ Device.Receive m ∈ es
                             /\ Message.type m = type).
Proof.
  revert s. induction es as [|e es IH]; intros s Hinv Hw Hle.
  - change (ticks []) with 0 in Hle. lia.
  - rewrite ticks_cons in Hle.
    change (Device.run s (e :: es)) with (Device.run (Device.step s e) es).
    pose proof (step_polling_inv s e Hinv) as Hinv'.
    pose proof (step_clock s e) as Hc.
    assert (Hgo : waiting p type D (Device.step s e) -> is_tick e = false ->
                  exists o, settled_as p type o (Device.run (Device.step s e) es)
                    /\ (o = Device.TimedOutWaitingFor type
                        \/ exists m, o = Device.ResolvedWith m
                                     /\ Device.Receive m ∈ e :: es
                                     /\ Message.type m = type)).
    { intros Hw' Htick. rewrite Htick in Hle, Hc.
      destruct (IH _ Hinv' Hw') as (o & Ho & Hwhy); [lia|].
      exists o. split; [done|].
      destruct Hwhy as [->|(m & -> & Hin & Hm)]; [by left|right].
      exists m. split; [done|]. split; [by apply list_elem_of_further|done]. }
    destruct e; cbn [Device.step] in *.
    + apply Hgo; [by apply on_waiting|done].
    + apply Hgo; [by apply off_waiting|done].
    + apply Hgo; [by apply messageOfType_waiting|done].
    + destruct (receive_waiting p type D message s Hw) as [Hyes Hno].
      destruct (decide (Message.type message = type)) as [Hm|Hm].
      * exists (Device.ResolvedWith message).
        split; [by apply run_settled_as, Hyes|right].
        exists message. split; [done|]. split; [apply list_elem_of_here|done].
      * apply Hgo; [by apply Hno|done].
    + destruct (tick_waiting p type D s Hinv Hw) as [Hyes Hno].
      cbn [is_tick] in *.
      destruct (Z.le_gt_cases D (Device.clock s + 1)) as [Hdue|Hdue].
      * exists (Device.TimedOutWaitingFor type).
        split; [by apply run_settled_as, Hyes|by left].
      * destruct (IH _ Hinv' (Hno Hdue)) as (o & Ho & Hwhy); [lia|].
        exists o. split; [done|].
        destruct Hwhy as [->|(m & -> & Hin & Hm)]; [by left|right].
        exists m. split; [done|]. split; [by apply list_elem_of_further|done].
    + apply Hgo; [done|done].
Qed.

Lemma messageOfType_begins type timeout s :
  Device.reachable s ->
  let p := (Device.messageOfType type timeout s).1 in
  let s1 := (Device.messageOfType type timeout s).2 in
  let D := Device.clock s + wait_ms timeout in
  polling_inv s1 /\ waiting p type D s1 /\ Device.clock s1 = Device.clock s
  /\ (p < length (Device.promises s1))%nat.
Proof.
  intros Hreach p s1 D.
  pose proof (reachable_polling_inv s Hreach) as Hinv.
  destruct (messageOfType_enters type timeout s (reachable_unborn s Hreach))
    as [Hp Hw].
  rewrite timer_delay_wait_ms in Hw.
  fold p in Hp. fold s1 in Hw. rewrite <- Hp in Hw. fold D in Hw.
  split; [by apply messageOfType_polling_inv|]. split; [done|]. split.
  - subst s1. change (Device.messageOfType type timeout s).2
      with (Device.step s (Device.MessageOfType type timeout)).
    rewrite step_clock. simpl. lia.
  - destruct Hw as [Hw _]. by apply lookup_lt_Some in Hw.
Qed.

(** X13: a wait never hangs. Whatever happens after
    [messageOfType(type, timeout)], once [timeout] seconds have passed (one
    millisecond at least, when the timeout is zero or less) the promise is
    settled, its listener is removed and its timer is gone; and it is
    rejected with the timeout error unless a message of the type was among
    what happened and resolved it. *)
Theorem messageOfType_ends (s : Device.State) (type : Message.Type_)
    (timeout : option Z) (es : list Device.Step) :
  Device.reachable s ->
  Z.max 1 (default 5 timeout * 1000) <= ticks es ->
  let p := (Device.messageOfType type timeout s).1 in
  let s2 := Device.run (Device.messageOfType type timeout s).2 es in
  (exists o,
     Device.promises s2 !! p
     = Some {| Device.awaited := type; Device.settled := Some o |}
     /\ (o = Device.TimedOutWaitingFor type
         \/ exists m, o = Device.ResolvedWith m
                      /\ Device.Receive m ∈ es
                      /\ Message.type m = type))
  /\ (Device.Awaiter p ∉ Device.registered "message" s2)
  /\ expiries p (Device.timers s2) = [].
Proof.
  intros Hreach Hle p s2.
  destruct (messageOfType_begins type timeout s Hreach)
    as (Hinv & Hw & Hc & Hp).
  fold p in Hw, Hp.
  set (s1 := (Device.messageOfType type timeout s).2) in *.
  set (D := Device.clock s + wait_ms timeout) in *.
  assert (HD : D - Device.clock s1 = wait_ms timeout) by (subst D; lia).
  assert (Hms : wait_ms timeout <= Z.max 1 (default 5 timeout * 1000)).
  { unfold wait_ms. cbn zeta.
    destruct (Z.leb_spec 1 (default 5 timeout * 1000)),
      (Z.leb_spec (default 5 timeout * 1000) 2147483647); simpl; lia. }
  destruct (run_settles p type D es s1 Hinv Hw) as (o & [Ho H0] & Hwhy);
    [lia|].
  split; [by exists o|]. split; [by apply awaiting_zero|].
  destruct Hw as (_ & _ & h & He).
  subst s2. rewrite (run_expiries p h D es s1 Hinv Hp He), HD.
  destruct (Z.ltb_spec (ticks es) (Z.max 1 (wait_ms timeout))); [lia|done].
Qed.

(** A timeout of zero seconds, a message too late. *)
Lemma messageOfType_ends_witness :
  let s := Device.init (idle_runtime (fun _ => "")) in
  let m := {| Message.type := Message.SetStateMessage;
              Message.identifier := None; Message.payload := None |} in
  let es := [Device.Tick; Device.Receive m] in
  Device.reachable s
  /\ Z.max 1 (default 5 (Some 0) * 1000) <= ticks es
  /\ expiries (Device.messageOfType Message.SetStateMessage (Some 0) s).1
       (Device.timers
          (Device.run (Device.messageOfType Message.SetStateMessage (Some 0) s).2
             es)) = [].
Proof.
  intros s m es.
  assert (Hs : Device.reachable s)
    by (by exists (idle_runtime (fun _ => "")), []).
  assert (Hle : Z.max 1 (default 5 (Some 0) * 1000) <= ticks es)
    by (vm_compute; discriminate).
  split; [exact Hs|]. split; [exact Hle|].
  exact (proj2 (proj2
    (messageOfType_ends s Message.SetStateMessage (Some 0) es Hs Hle))).
Defined.



(** X15: two waits side by side. One inbound message settles each wait
    for its type, and leaves a wait for another type pending; the two
    promises are distinct. *)
Theorem two_waits (s : Device.State) (type1 type2 : Message.Type_)
    (timeout1 timeout2 : option Z) (m : Message.t) :
  Device.reachable s ->
  let p := (Device.messageOfType type1 timeout1 s).1 in
  let s1 := (Device.messageOfType type1 timeout1 s).2 in
  let q := (Device.messageOfType type2 timeout2 s1).1 in
  let s2 := (Device.messageOfType type2 timeout2 s1).2 in
  let promise k := Device.settled <$> Device.promises (Device.receive m s2) !! k in
  p <> q
  /\ promise p = Some (if decide (Message.type m = type1)
                       then Some (Device.ResolvedWith m) else None)
  /\ promise q = Some (if decide (Message.type m = type2)
                       then Some (Device.ResolvedWith m) else None).
Proof.
  intros Hreach p s1 q s2 promise.
  destruct (messageOfType_begins type1 timeout1 s Hreach)
    as (Hinv1 & Hw1 & Hc1 & Hp).
  fold p in Hw1, Hp. fold s1 in Hinv1, Hw1, Hc1, Hp.
  assert (Hreach1 : Device.reachable s1).
  { destruct Hreach as (r & es & ->).
    exists r, (es ++ [Device.MessageOfType type1 timeout1]).
    by rewrite run_app. }
  destruct (messageOfType_begins type2 timeout2 s1 Hreach1)
    as (Hinv2 & Hw2 & Hc2 & Hq).
  fold q in Hw2, Hq. fold s2 in Hinv2, Hw2, Hc2, Hq.
  assert (Hqp : q = length (Device.promises s1)) by done.
  split; [lia|].
  pose proof (messageOfType_waiting p type1 _ type2 timeout2 s1 Hw1) as Hw1'.
  fold s2 in Hw1'.
  destruct (receive_waiting p type1 _ m s2 Hw1') as [Hyes1 Hno1].
  destruct (receive_waiting q type2 _ m s2 Hw2) as [Hyes2 Hno2].
  subst promise. cbn beta. split.
  - destruct (decide (Message.type m = type1)) as [H|H].
    + destruct (Hyes1 H) as [-> _]. done.
    + destruct (Hno1 H) as [-> _]. done.
  - destruct (decide (Message.type m = type2)) as [H|H].
    + destruct (Hyes2 H) as [-> _]. done.
    + destruct (Hno2 H) as [-> _]. done.
Qed.

(** A wait for the state and a wait for something else. *)
Lemma two_waits_witness :
  let s := Device.init (idle_runtime (fun _ => "")) in
  Device.reachable s
  /\ (Device.messageOfType Message.SetStateMessage None s).1
     <> (Device.messageOfType (Message.OtherMessage 4) None
           (Device.messageOfType Message.SetStateMessage None s).2).1.
Proof.
  intros s.
  assert (Hs : Device.reachable s)
    by (by exists (idle_runtime (fun _ => "")), []).
  split; [exact Hs|].
  exact (proj1 (two_waits s Message.SetStateMessage (Message.OtherMessage 4)
                  None None
                  {| Message.type := Message.SetStateMessage;
                     Message.identifier := None; Message.payload := None |}
                  Hs)).
Defined.

(** * Opening a session *)

(** ** [buf.toString('hex')] *)

Module Hex.

(** One hexadecimal digit, lower case, as Node writes it. *)
Definition digit (n : Z) : ascii :=
  ascii_of_N (Z.to_N (if n <? 10 then 48 + n else 87 + n)).

(** [buf.toString('hex')]: two digits for each octet. *)
Fixpoint encode (b : Buffer) : string :=
  match b with
  | [] => EmptyString
  | x :: b => String (digit (x / 16)) (String (digit (x mod 16)) (encode b))
  end.

(** [v.toString('hex')] for a value: a buffer gives its octets in
    hexadecimal; [undefined] and [null] have no properties; a number
    rejects the radix; a string, a boolean and a plain object ignore the
    argument. *)
Definition toString (v : value) : completion string :=
  match v with
  | VBuf b => Return (encode b)
  | VUndef | VNull => Throw "TypeError"
  | VNum _ => Throw "RangeError"
  | VStr s => Return s
  | VBool b => Return (if b then "true" else "false")
  | VSize _ => Return "[object Object]"
  end.

End Hex.

(** ** [openConnection], [closeConnection] and the messages they send *)

Module Session.

(** A [Credentials] object, as far as the facade reads and writes it. *)
Record Credentials := {
  cred_pairingId : string;
  readKey : value;
  writeKey : value
}.

(** What the facade asks of its collaborators, in order:
    [connection.open()], [connection.close()],
    [connection.send(message, waitForResponse, priority, credentials)] with
    the credentials handed over, [verifier.verify()], and
    [emit('debug', text)]. *)
Inductive Action :=
| Opened
| Closed
| Carried (credentials : option nat) (c : SendCall)
| Verified
| EmittedDebug (text : string).

(** How the collaborators answer during one [openConnection]: whether
    [connection.open()] rejects, what [verifier.verify()] settles as, and
    the number of [Connected] in the [ConnectionState] enum of the
    schema. *)
Record Peer := {
  open : option string;
  verify : outcome obj;
  Connected : value
}.

(** The device: its runtime, the credentials objects there are, by
    reference, [this.pairingId], [this.credentials], and what it has done
    so far. *)
Record State := {
  runtime : Runtime;
  store : gmap nat Credentials;
  pairingId : string;
  credentials : option nat;
  actions : list Action
}.

Definition Task (A : Type) : Type := State -> State * outcome A.

Definition ret {A} (a : A) : Task A := fun s => (s, Resolved a).

(** [m.then(k)]: a rejection of [m] skips [k]. *)
Definition bind {A B} (m : Task A) (k : A -> Task B) : Task B :=
  fun s =>
    match m s with
    | (s', Resolved a) => k a s'
    | (s', Rejected e) => (s', Rejected e)
    end.

Definition settle {A} (o : outcome A) : Task A := fun s => (s, o).

(** A callback that throws rejects the promise. *)
Definition throwing {A} (c : completion A) : Task A :=
  fun s =>
    match c with
    | Return a => (s, Resolved a)
    | Throw e => (s, Rejected e)
    end.

Definition note (a : Action) : Task unit :=
  fun s =>
    ({| runtime := runtime s; store := store s; pairingId := pairingId s;
        credentials := credentials s; actions := actions s ++ [a] |},
     Resolved tt).

Definition set_pairingId (p : string) (s : State) : State :=
  {| runtime := runtime s; store := store s; pairingId := p;
     credentials := credentials s; actions := actions s |}.

Definition set_credentials (c : option nat) : Task unit :=
  fun s =>
    ({| runtime := runtime s; store := store s; pairingId := pairingId s;
        credentials := c; actions := actions s |},
     Resolved tt).

(** [that.credentials.k = v], and [that.credentials.k] read back. *)
Definition update (f : Credentials -> Credentials) : Task unit :=
  fun s =>
    match credentials s with
    | Some c =>
        ({| runtime := runtime s; store := alter f c (store s);
            pairingId := pairingId s; credentials := credentials s;
            actions := actions s |},
         Resolved tt)
    | None => (s, Rejected "TypeError")
    end.

Definition read (f : Credentials -> value) : Task value :=
  fun s =>
    match credentials s with
    | Some c => (s, Resolved (default VUndef (f <$> store s !! c)))
    | None => (s, Rejected "TypeError")
    end.

(** A method of the facade that ends in [connection.send]: the message is
    handed over together with [this.credentials] as they are then. *)
Definition perform {A} (m : Async A) : Task A :=
  fun s =>
    let '(r, o) := m (runtime s) in
    ({| runtime := r; store := store s; pairingId := pairingId s;
        credentials := credentials s;
        actions :=
          actions s
          ++ omap (fun e => match e with
                            | Sent c => Some (Carried (credentials s) c)
                            | Slept _ => None
                            end)
               (drop (length (wire (runtime s))) (wire r)) |},
     o).

Definition sendIntroduction : Task unit :=
  fun s => perform (AppleTV.sendIntroduction (pairingId s)) s.

(** [sendConnectionState()]: the schema is loaded and the message created
    and sent as [sendMessage] does, not waiting, with priority 0. *)
Definition sendConnectionState (peer : Peer) : Task unit :=
  perform (Async.sendMessage "SetConnectionStateMessage"
             "SetConnectionStateMessage" {[ "state" := Connected peer ]}
             false).

Definition sendClientUpdatesConfig (config : obj) : Task unit :=
  perform (Async.sendMessage "ClientUpdatesConfigMessage"
             "ClientUpdatesConfigMessage" config false).

(** The updates [openConnection] asks for. *)
Definition updates : obj :=
  list_to_map [
    ("nowPlayingUpdates", VBool true);
    ("artworkUpdates", VBool true);
    ("keyboardUpdates", VBool false);
    ("volumeUpdates", VBool false)
  ].

(** [openConnection(credentials?)]; [credentials] is a reference or
    [undefined]. *)
Definition openConnection (peer : Peer) (credentials : option nat)
  : Task unit :=
  fun s =>
    let s :=
      match credentials with
      | Some c => set_pairingId (default "" (cred_pairingId <$> store s !! c)) s
      | None => s
      end in
    bind (bind (note Opened) (fun _ => settle
            match open peer with Some e => Rejected e | None => Resolved tt end))
      (fun _ =>
    bind sendIntroduction (fun _ =>
    bind (bind (set_credentials credentials) (fun _ =>
            match credentials with
            | Some _ =>
                bind (bind (note Verified) (fun _ => settle (verify peer)))
                  (fun keys =>
                bind (update (fun c =>
                        {| cred_pairingId := cred_pairingId c;
                           readKey := get keys "readKey";
                           writeKey := writeKey c |})) (fun _ =>
                bind (update (fun c =>
                        {| cred_pairingId := cred_pairingId c;
                           readKey := readKey c;
                           writeKey := get keys "writeKey" |})) (fun _ =>
                bind (read readKey) (fun rk =>
                bind (throwing (Hex.toString rk)) (fun rhex =>
                bind (read writeKey) (fun wk =>
                bind (throwing (Hex.toString wk)) (fun whex =>
                bind (note (EmittedDebug ("DEBUG: Keys Read=" ++ rhex
                                   ++ ", Write=" ++ whex))) (fun _ =>
                sendConnectionState peer))))))))
            | None => ret tt
            end)) (fun _ =>
    bind (match credentials with
          | Some _ => sendClientUpdatesConfig updates
          | None => ret tt
          end) (fun _ =>
    ret tt)))) s.

(** [closeConnection()]. *)
Definition closeConnection : Task unit := note Closed.

End Session.

(** ** The order of the handshake *)

Definition send_call (file type : string) (b : obj) (wait : bool) : SendCall :=
  {| definitionFilename := file; messageType := type; body := b;
     waitForResponse := wait; priority := 0 |}.

(** The runtime after one more send. *)
Definition carried (c : SendCall) (r : Runtime) : Runtime :=
  {| heap := heap r; rand := rand r; uuid_calls := uuid_calls r;
     refuses := refuses r; send_calls := S (send_calls r);
     wire := wire r ++ [Sent c] |}.

Lemma perform_send file type b wait s :
  Session.perform (Async.sendMessage file type b wait) s
  = ({| Session.runtime :=
          carried (send_call file type b wait) (Session.runtime s);
        Session.store := Session.store s;
        Session.pairingId := Session.pairingId s;
        Session.credentials := Session.credentials s;
        Session.actions :=
          Session.actions s
          ++ [Session.Carried (Session.credentials s)
                (send_call file type b wait)] |},
     match refuses (Session.runtime s) (send_calls (Session.runtime s)) with
     | None => Resolved tt
     | Some e => Rejected e
     end).
Proof.
  unfold Session.perform, Async.sendMessage.
  destruct (refuses _ _); simpl; by rewrite drop_app_length.
Qed.

(** The identity a session announces. *)
Definition identity (credentials : option nat) (s : Session.State) : string :=
  match credentials with
  | Some c => default "" (Session.cred_pairingId <$> Session.store s !! c)
  | None => Session.pairingId s
  end.

(** The debug line for the keys of a verification. *)
Definition debug_line (keys : obj) : string :=
  match Hex.toString (get keys "readKey"), Hex.toString (get keys "writeKey") with
  | Return r, Return w => "DEBUG: Keys Read=" ++ r ++ ", Write=" ++ w
  | _, _ => ""
  end.

(** A whole handshake: without credentials the connection is opened and
    the device introduces itself; with credentials it goes on to verify,
    reports the keys, declares itself connected and asks for updates. *)
Definition handshake (peer : Session.Peer) (credentials : option nat)
    (s : Session.State) : list Session.Action :=
  [Session.Opened;
   Session.Carried (Session.credentials s)
     (send_call "DeviceInfoMessage" "DeviceInfoMessage"
        (AppleTV.introduction (identity credentials s)) true)]
  ++ match credentials with
     | Some c =>
         [Session.Verified;
          Session.EmittedDebug
            (match Session.verify peer with
             | Resolved keys => debug_line keys
             | Rejected _ => ""
             end);
          Session.Carried (Some c)
            (send_call "SetConnectionStateMessage" "SetConnectionStateMessage"
               {[ "state" := Session.Connected peer ]} false);
          Session.Carried (Some c)
            (send_call "ClientUpdatesConfigMessage"
               "ClientUpdatesConfigMessage" Session.updates false)]
     | None => []
     end.

Ltac session_step :=
  first
    [ rewrite perform_send
    | rewrite lookup_alter_eq
    | match goal with
      | H : Session.store _ !! _ = _ |- _ => rewrite H
      end
    | progress cbn [Session.runtime Session.store Session.pairingId
                    Session.credentials Session.actions fst snd
                    refuses send_calls carried Hex.toString
                    fmap option_fmap option_map from_option id
                    Session.readKey Session.writeKey Session.cred_pairingId]
    | match goal with
      | |- context [match Session.open ?p with _ => _ end] =>
          destruct (Session.open p) eqn:?
      | |- context [match refuses ?r ?n with _ => _ end] =>
          destruct (refuses r n) eqn:?
      | |- context [match Session.verify ?p with _ => _ end] =>
          destruct (Session.verify p) eqn:?
      | |- context [match Hex.toString ?v with _ => _ end] =>
          destruct (Hex.toString v) eqn:?
      end ].

Ltac session_run :=
  unfold Session.openConnection, Session.closeConnection,
    Session.sendIntroduction,
    AppleTV.sendIntroduction, Session.sendConnectionState,
    Session.sendClientUpdatesConfig, Session.bind, Session.note,
    Session.settle, Session.ret, Session.set_credentials, Session.update,
    Session.read, Session.throwing, Session.set_pairingId;
  repeat session_step.

Ltac recall :=
  repeat match goal with
         | H : Hex.toString _ = _ |- _ => rewrite H
         | H : Session.verify _ = _ |- _ => rewrite H
         end.

(** X16: the handshake of [openConnection] runs in one order and stops at
    the first failure. Whatever the connection, the transport and the
    verifier answer, what the call does is a beginning of: open, introduce
    (under the credentials the device had), and with credentials verify,
    report the keys, declare the connection state and ask for updates (both
    under the new credentials). It always opens; it resolves only when all
    of it is done; and without credentials it never verifies or asks for
    updates. *)
Theorem openConnection_order (peer : Session.Peer) (credentials : option nat)
    (s : Session.State) :
  let '(s', o) := Session.openConnection peer credentials s in
  exists done,
    Session.actions s' = Session.actions s ++ done
    /\ done `prefix_of` handshake peer credentials s
    /\ (o = Resolved tt -> done = handshake peer credentials s)
    /\ head done = Some Session.Opened.
Proof.
  destruct credentials as [c|].
  - destruct (Session.store s !! c) as [cr|] eqn:Hc; session_run.
    all: eexists; split; [rewrite <- ?app_assoc; cbn [app]; reflexivity|].
    all: unfold handshake, debug_line, identity; recall; rewrite ?Hc.
    all: cbn [app fmap option_fmap option_map from_option id].
    all: split; [eexists; reflexivity|].
    all: split; [|done]; intros; (done || discriminate).
  - session_run.
    all: eexists; split; [rewrite <- ?app_assoc; cbn [app]; reflexivity|].
    all: unfold handshake, identity; cbn [app].
    all: split; [eexists; reflexivity|].
    all: split; [|done]; intros; (done || discriminate).
Qed.

(** ** The caller's credentials *)

Lemma alter_keys (st : gmap nat Session.Credentials) c cr (rk wk : value) :
  st !! c = Some cr ->
  alter (fun c => {| Session.cred_pairingId := Session.cred_pairingId c;
                     Session.readKey := Session.readKey c;
                     Session.writeKey := wk |}) c
    (alter (fun c => {| Session.cred_pairingId := Session.cred_pairingId c;
                        Session.readKey := rk;
                        Session.writeKey := Session.writeKey c |}) c st)
  = <[c := {| Session.cred_pairingId := Session.cred_pairingId cr;
              Session.readKey := rk; Session.writeKey := wk |}]> st.
Proof.
  intros Hc. apply map_eq. intros i. destruct (decide (i = c)) as [->|Hne].
  - by rewrite !lookup_alter_eq, Hc, lookup_insert_eq.
  - by rewrite !lookup_alter_ne, lookup_insert_ne.
Qed.

(** X17: the keys of the verification are written into the credentials
    object the caller passed, not into a copy. Once the connection is open,
    the introduction accepted and the verification done, the caller's
    object holds the two keys and keeps its pairing id, every other
    credentials object is as it was, the device holds the same reference
    and announces the object's pairing id, and all this whether or not the
    keys can be printed and the later messages are accepted. *)
Theorem openConnection_writes_keys (peer : Session.Peer) (c : nat)
    (cr : Session.Credentials) (keys : obj) (s : Session.State) :
  Session.store s !! c = Some cr ->
  Session.open peer = None ->
  refuses (Session.runtime s) (send_calls (Session.runtime s)) = None ->
  Session.verify peer = Resolved keys ->
  let s' := (Session.openConnection peer (Some c) s).1 in
  Session.store s'
  = <[c := {| Session.cred_pairingId := Session.cred_pairingId cr;
              Session.readKey := get keys "readKey";
              Session.writeKey := get keys "writeKey" |}]> (Session.store s)
  /\ Session.credentials s' = Some c
  /\ Session.pairingId s' = Session.cred_pairingId cr.
Proof.
  intros Hc Hopen Hintro Hverify. cbn zeta.
  session_run.
  all: try congruence.
  all: match goal with
       | H : Session.verify _ = Resolved ?a |- _ =>
           assert (a = keys) as -> by congruence
       end.
  all: by rewrite (alter_keys _ _ _ _ _ Hc).
Qed.

(** Fresh credentials, a verifier that hands out two keys. *)
Lemma openConnection_writes_keys_witness :
  let cr := {| Session.cred_pairingId := "paired"; Session.readKey := VUndef;
               Session.writeKey := VUndef |} in
  let keys : obj := {[ "readKey" := VBuf [1; 2]; "writeKey" := VBuf [171] ]} in
  let peer := {| Session.open := None; Session.verify := Resolved keys;
                 Session.Connected := VNum 2 |} in
  let s := {| Session.runtime := idle_runtime (fun _ => "");
              Session.store := {[ 0%nat := cr ]};
              Session.pairingId := "fresh"; Session.credentials := None;
              Session.actions := [] |} in
  Session.store s !! 0%nat = Some cr
  /\ Session.pairingId (Session.openConnection peer (Some 0%nat) s).1
     = "paired".
Proof.
  intros cr keys peer s.
  assert (Hc : Session.store s !! 0%nat = Some cr) by reflexivity.
  split; [exact Hc|].
  exact (proj2 (proj2 (openConnection_writes_keys peer 0 cr keys s
                         Hc eq_refl eq_refl eq_refl))).
Defined.

(** ** One session after another *)

Lemma openConnection_resolved peer c cr s :
  Session.store s !! c = Some cr ->
  (Session.openConnection peer (Some c) s).2 = Resolved tt ->
  Session.credentials (Session.openConnection peer (Some c) s).1 = Some c
  /\ Session.pairingId (Session.openConnection peer (Some c) s).1
     = Session.cred_pairingId cr.
Proof.
  intros Hc. session_run.
  all: by intros.
Qed.

Lemma openConnection_undefined peer s :
  Session.open peer = None ->
  let '(s', o) := Session.openConnection peer None s in
  Session.actions s'
  = Session.actions s
    ++ [Session.Opened;
        Session.Carried (Session.credentials s)
          (send_call "DeviceInfoMessage" "DeviceInfoMessage"
             (AppleTV.introduction (Session.pairingId s)) true)]
  /\ Session.store s' = Session.store s
  /\ Session.pairingId s' = Session.pairingId s
  /\ (o = Resolved tt -> Session.credentials s' = None).
Proof.
  intros Hopen. session_run.
  all: try congruence.
  all: rewrite <- ?app_assoc; cbn [app].
  all: repeat split; intros; congruence.
Qed.

(** X18: the credentials are replaced only after the introduction. A
    device that has opened a session with credentials, closes it and opens
    another without: the new introduction still announces the pairing id
    of the credentials and is handed to the connection together with them;
    only when it has been accepted does the device drop the credentials,
    and it keeps the pairing id. The caller's object keeps its keys. *)
Theorem reopening_without_credentials (peer peer' : Session.Peer) (c : nat)
    (cr : Session.Credentials) (s : Session.State) :
  Session.store s !! c = Some cr ->
  (Session.openConnection peer (Some c) s).2 = Resolved tt ->
  Session.open peer' = None ->
  let s1 := (Session.openConnection peer (Some c) s).1 in
  let '(s2, o) :=
    Session.openConnection peer' None (Session.closeConnection s1).1 in
  Session.actions s2
  = Session.actions s1
    ++ [Session.Closed; Session.Opened;
        Session.Carried (Some c)
          (send_call "DeviceInfoMessage" "DeviceInfoMessage"
             (AppleTV.introduction (Session.cred_pairingId cr)) true)]
  /\ Session.store s2 = Session.store s1
  /\ Session.pairingId s2 = Session.cred_pairingId cr
  /\ (o = Resolved tt -> Session.credentials s2 = None).
Proof.
  intros Hc Hres Hopen s1.
  destruct (openConnection_resolved peer c cr s Hc Hres) as [Hcred Hid].
  fold s1 in Hcred, Hid.
  pose proof (openConnection_undefined peer' (Session.closeConnection s1).1
                Hopen) as H.
  destruct (Session.openConnection peer' None (Session.closeConnection s1).1)
    as [s2 o].
  destruct H as (Hacts & Hstore & Hpid & Hdrop).
  cbn [Session.closeConnection Session.note fst Session.actions
       Session.credentials Session.pairingId Session.store] in *.
  rewrite Hcred, Hid in *. rewrite <- app_assoc in Hacts.
  by repeat split.
Qed.

(** A session with credentials, then one without. *)
Lemma reopening_without_credentials_witness :
  let cr := {| Session.cred_pairingId := "paired"; Session.readKey := VUndef;
               Session.writeKey := VUndef |} in
  let keys : obj := {[ "readKey" := VBuf [1; 2]; "writeKey" := VBuf [171] ]} in
  let peer := {| Session.open := None; Session.verify := Resolved keys;
                 Session.Connected := VNum 2 |} in
  let s := {| Session.runtime := idle_runtime (fun _ => "");
              Session.store := {[ 0%nat := cr ]};
              Session.pairingId := "fresh"; Session.credentials := None;
              Session.actions := [] |} in
  let s1 := (Session.openConnection peer (Some 0%nat) s).1 in
  Session.store s !! 0%nat = Some cr
  /\ (Session.openConnection peer (Some 0%nat) s).2 = Resolved tt
  /\ Session.pairingId
       (Session.openConnection peer None (Session.closeConnection s1).1).1
     = "paired".
Proof.
  intros cr keys peer s s1.
  assert (Hc : Session.store s !! 0%nat = Some cr) by reflexivity.
  assert (Hres : (Session.openConnection peer (Some 0%nat) s).2 = Resolved tt)
    by reflexivity.
  split; [exact Hc|]. split; [exact Hres|].
  pose proof (reopening_without_credentials peer peer 0 cr s Hc Hres eq_refl)
    as H.
  cbn zeta in H. fold s1 in H.
  destruct (Session.openConnection peer None (Session.closeConnection s1).1)
    as [s2 o].
  exact (proj1 (proj2 (proj2 H))).
Defined.

(** ** Hexadecimal, there and back *)

Lemma hex_digit_digit n :
  0 <= n < 16 -> Buf.hex_digit (Hex.digit n) = Some n.
Proof.
  intros Hn. rewrite <- (Z2Nat.id n) by lia.
  assert (Hk : (Z.to_nat n < 16)%nat) by lia.
  revert Hk. generalize (Z.to_nat n). intros k Hk.
  do 16 (destruct k as [|k]; [reflexivity|]). lia.
Qed.

(** X19: the two hexadecimal conversions the facade uses agree: reading
    back, as [sendKeyPress] reads its constants, what [openConnection]
    prints of a key gives the octets of the key. *)
Theorem from_hex_encode (b : Buffer) :
  Forall (fun x => 0 <= x < 256) b ->
  Buf.from_hex (Hex.encode b) = b.
Proof.
  unfold Buf.from_hex. induction 1 as [|x b Hx _ IH]; [done|].
  cbn [Hex.encode list_ascii_of_string Buf.from_hex_chars].
  rewrite !hex_digit_digit, IH.
  - f_equal. pose proof (Z.div_mod x 16). lia.
  - apply Z.mod_pos_bound. lia.
  - split; [apply Z.div_pos; lia|apply Z.div_lt_upper_bound; lia].
Qed.

(** The timestamp stub of a key event. *)
Lemma from_hex_encode_witness :
  Forall (fun x => 0 <= x < 256) [67; 137; 34; 207; 8; 2; 0; 0]
  /\ Hex.encode [67; 137; 34; 207; 8; 2; 0; 0] = "438922cf08020000"
  /\ Buf.from_hex "438922cf08020000" = [67; 137; 34; 207; 8; 2; 0; 0].
Proof.
  assert (H : Forall (fun x => 0 <= x < 256) [67; 137; 34; 207; 8; 2; 0; 0])
    by (repeat constructor; lia).
  split; [exact H|]. split; [reflexivity|].
  exact (from_hex_encode _ H).
Defined.

(** ** A fresh device introduces itself *)

(** X20: the identity of a device that was never given credentials is the
    identifier its constructor drew. The constructor draws one identifier
    and sends nothing; the first [openConnection()] of such a device opens
    the connection and, if that succeeds, introduces the device under this
    identifier, handing the connection no credentials. *)
Theorem fresh_device_introduction (service : AppleTV.Service)
    (peer : Session.Peer) (store : gmap nat Session.Credentials)
    (r : Runtime) :
  let '(r1, made) := AppleTV.constructor service r in
  let id := rand r (uuid_calls r) in
  exists fields,
    made = Resolved fields
    /\ AppleTV.pairingId fields = id
    /\ uuid_calls r1 = S (uuid_calls r)
    /\ wire r1 = wire r
    /\ Session.actions
         (Session.openConnection peer None
            {| Session.runtime := r1; Session.store := store;
               Session.pairingId := AppleTV.pairingId fields;
               Session.credentials := None; Session.actions := [] |}).1
       = Session.Opened
         :: match Session.open peer with
            | Some _ => []
            | None =>
                [Session.Carried None
                   (send_call "DeviceInfoMessage" "DeviceInfoMessage"
                      (AppleTV.introduction id) true)]
            end.
Proof.
  unfold AppleTV.constructor, mbind, async_bind, Async.bind, Async.uuid,
    mret, async_ret, Async.ret.
  cbn zeta. eexists. split; [reflexivity|].
  cbn [AppleTV.pairingId uuid_calls wire].
  split; [done|]. split; [done|]. split; [done|].
  session_run; reflexivity.
Qed.

(** ** Key commands that fail *)

(** X21: how a key command ends. The press is sent first; if the
    transport rejects it, the command rejects with that error and neither
    the hold nor the release follows; otherwise the release is sent (after
    the hold, for [HomeHold]) and the command settles as the release
    does. *)
Theorem sendKeyCommand_outcome (enc : Z -> Buffer) (k : AppleTV.Key)
    (r : Runtime) :
  let press := Sent (hid_frame enc (usage_table k).1 (usage_table k).2 true) in
  let release := Sent (hid_frame enc (usage_table k).1 (usage_table k).2 false) in
  Async.run (AppleTV.sendKeyCommand enc k) r
  = match refuses r (send_calls r) with
    | Some e => ([press], Rejected e)
    | None =>
        (press :: (if decide (k = AppleTV.HomeHold) then [Slept 1000] else [])
               ++ [release],
         match refuses r (S (send_calls r)) with
         | Some e => Rejected e
         | None => Resolved tt
         end)
    end.
Proof.
  cbn zeta. rewrite sendKeyCommand_table.
  generalize (usage_table k).1 (usage_table k).2. intros usePage usage.
  unfold Async.run, AppleTV.sendKeyPressAndRelease, AppleTV.sendKeyPress,
    mbind, async_bind, Async.bind, Async.sendMessage, Async.delay, Async.log,
    mret, async_ret, Async.ret, hid_frame.
  destruct (refuses r (send_calls r)) as [e|]; simpl.
  { by rewrite drop_app_length. }
  unfold bool_decide.
  destruct (decide_rel eq k AppleTV.HomeHold); simpl;
    destruct (refuses r (S (send_calls r))); simpl;
    rewrite <- !app_assoc; by rewrite drop_app_length.
Qed.

(** ** The order of the fan-out *)

(** X22: what an inbound message makes the device do. It emits
    ['message'] first, then at most one each of ['nowPlaying'],
    ['supportedCommands'] and ['playbackQueue'], in this order, and for a
    message that is not a [SetStateMessage] nothing but ['message']; it
    sends nothing and leaves the timers alone. *)
Theorem fan_out_order (m : Message.t) (s : Device.State) :
  let out := on_connection_message m in
  head out = Some (EmitMessage m)
  /\ event_name <$> out
     `sublist_of` ["message"; "nowPlaying"; "supportedCommands";
                   "playbackQueue"]
  /\ (Message.type m <> Message.SetStateMessage -> out = [EmitMessage m])
  /\ Device.emitted (Device.receive m s) = Device.emitted s ++ out
  /\ Device.sent (Device.receive m s) = Device.sent s
  /\ Device.timers (Device.receive m s) = Device.timers s.
Proof.
  cbn zeta. split; [done|]. split.
  { assert (Hshape : exists a b c,
              event_name <$> on_connection_message m
              = "message" :: (if a : bool then ["nowPlaying"] else [])
                ++ (if b : bool then ["supportedCommands"] else [])
                ++ (if c : bool then ["playbackQueue"] else [])).
    { unfold on_connection_message.
      destruct (decide _); [|by exists false, false, false].
      destruct (Message.payload m) as [payload|];
        [|by exists true, false, false].
      exists (bool_decide (is_Some (Message.nowPlayingInfo payload))),
             (bool_decide (is_Some (Message.supportedCommands payload))),
             (bool_decide (is_Some (Message.playbackQueue payload))).
      by destruct (Message.nowPlayingInfo payload),
        (Message.supportedCommands payload), (Message.playbackQueue payload). }
    destruct Hshape as (a & b & c & ->).
    destruct a, b, c; simpl;
      repeat first [apply sublist_skip | apply sublist_cons | apply sublist_nil]. }
  split; [apply other_message_fan_out|].
  split; [apply receive_emitted|].
  split; [|apply receive_timers].
  unfold Device.sent. by rewrite (proj1 (receive_runtime m s)).
Qed.

(** ** The compiled copy of the introduction *)

(** The properties of the introduction that the compiled copy lacks. *)
Definition introduction_added : list string :=
  ["supportsSharedQueue"; "supportsACL"; "supportsExtendedMotion";
   "sharedQueueVersion"; "deviceClass"].

(** X23: the introduction of the compiled copy, [dist/lib/appletv.js], is
    the introduction of the source with five properties taken away: every
    property it has, the source has with the same value, and the source
    has exactly five more, the three capability flags, the queue version
    and the device class. Both are sent as the same message type, awaiting
    the reply. *)
Theorem Dist_introduction (pairingId : string) (r : Runtime) :
  AppleTV.Dist.introduction pairingId ⊆ AppleTV.introduction pairingId
  /\ (forall k, k ∈ introduction_added ->
        AppleTV.Dist.introduction pairingId !! k = None
        /\ is_Some (AppleTV.introduction pairingId !! k))
  /\ (forall k, is_Some (AppleTV.introduction pairingId !! k) ->
        is_Some (AppleTV.Dist.introduction pairingId !! k)
        \/ k ∈ introduction_added)
  /\ (Async.run (AppleTV.Dist.sendIntroduction pairingId) r).1
     = [Sent {| definitionFilename := "DeviceInfoMessage";
                messageType := "DeviceInfoMessage";
                body := AppleTV.Dist.introduction pairingId;
                waitForResponse := true; priority := 0 |}].
Proof.
  split; [|split; [|split]].
  - apply map_subseteq_spec. intros k v Hk.
    unfold AppleTV.Dist.introduction in Hk.
    apply elem_of_list_to_map_2 in Hk.
    repeat (apply elem_of_cons in Hk as [[= -> ->]|Hk]; [reflexivity|]).
    by apply elem_of_nil in Hk.
  - intros k Hk. unfold introduction_added in Hk.
    repeat (apply elem_of_cons in Hk as [->|Hk]; [by split|]).
    by apply elem_of_nil in Hk.
  - intros k [v Hk]. unfold AppleTV.introduction in Hk.
    apply elem_of_list_to_map_2 in Hk. unfold introduction_added.
    repeat (apply elem_of_cons in Hk as [[= -> ->]|Hk];
            [first [by left | right; set_solver]|]).
    by apply elem_of_nil in Hk.
  - unfold Async.run, AppleTV.Dist.sendIntroduction, Async.sendMessage.
    destruct (refuses r (send_calls r)); simpl; by rewrite drop_app_length.
Qed.
